(** * 0xlang: lexer, parser, type checker and interpreter

    A shallow embedding of the TypeScript sources of 0xlang
    ([src/lexer.ts], [src/parser.ts], [src/ast.ts], [src/typecheck.ts],
    [src/runtime.ts]) together with the properties of the language
    specification that are settled against them.

    Conventions of the embedding.
    - Source text and every JavaScript string are [string]s: a character is
      one code unit below 256.
    - A JavaScript [number] is a [JSNumber.number]: an integer-valued double,
      a signed zero, an infinity or NaN.  These are the only numbers the
      interpreter can build from a parsed program.
    - A JavaScript [Map] is a [JSMap.t]: an association list kept in insertion
      order, as [Map.prototype.entries] enumerates it.
    - A thrown [Error] is a result value; loops and recursion that the source
      does not bound take a fuel argument, and running out of it is a result
      of its own, never confused with a thrown error. *)

From Stdlib Require Import String Ascii List ZArith Lia Bool Arith.
Import ListNotations.

#[local] Set Warnings "-register-all".

Local Open Scope string_scope.
Local Open Scope list_scope.

(* ------------------------------------------------------------------ *)
(** ** JavaScript numbers, restricted to integer-valued doubles *)

Module JSNumber.

Local Open Scope Z_scope.

Inductive number : Type :=
| Fin (z : Z)      (* the double whose value is the integer z; +0 is [Fin 0] *)
| NegZero          (* -0 *)
| PosInf
| NegInf
| NaN.

(** Drop the [e] low bits of [m] (> 0), rounding to nearest, ties to even.
    [sticky] tells that bits below those of [m] were non-zero. *)
Definition roundShift (m e : Z) (sticky : bool) : Z :=
  let q := Z.shiftr m e in
  let r := m - Z.shiftl q e in
  let half := Z.shiftl 1 (e - 1) in
  if r <? half then q
  else if (half <? r) || sticky then q + 1
  else if Z.even q then q else q + 1.

(** The double nearest to the positive integer [m]. *)
Definition roundPos (m : Z) : number :=
  let bits := Z.log2 m + 1 in
  if bits <=? 53 then Fin m
  else
    let e := bits - 53 in
    let v := Z.shiftl (roundShift m e false) e in
    if 2 ^ 1024 <=? v then PosInf else Fin v.

Definition neg (x : number) : number :=
  match x with
  | Fin 0 => NegZero
  | Fin z => Fin (- z)
  | NegZero => Fin 0
  | PosInf => NegInf
  | NegInf => PosInf
  | NaN => NaN
  end.

(** The double nearest to the integer [z]; an exact zero is +0. *)
Definition round (z : Z) : number :=
  if z =? 0 then Fin 0
  else if 0 <? z then roundPos z
  else neg (roundPos (- z)).

(** Sign bit of a number that is not NaN. *)
Definition negative (x : number) : bool :=
  match x with
  | Fin z => z <? 0
  | NegZero | NegInf => true
  | PosInf | NaN => false
  end.

Definition isZero (x : number) : bool :=
  match x with
  | Fin 0 | NegZero => true
  | _ => false
  end.

Definition signedZero (neg_sign : bool) : number := if neg_sign then NegZero else Fin 0.
Definition signedInf (neg_sign : bool) : number := if neg_sign then NegInf else PosInf.

(** [x + y] *)
Definition add (x y : number) : number :=
  match x, y with
  | NaN, _ | _, NaN => NaN
  | PosInf, NegInf | NegInf, PosInf => NaN
  | PosInf, _ | _, PosInf => PosInf
  | NegInf, _ | _, NegInf => NegInf
  | NegZero, NegZero => NegZero
  | NegZero, Fin b => Fin b
  | Fin a, NegZero => Fin a
  | Fin a, Fin b => round (a + b)
  end.

(** [x - y] *)
Definition sub (x y : number) : number := add x (neg y).

(** [x * y] *)
Definition mul (x y : number) : number :=
  match x, y with
  | NaN, _ | _, NaN => NaN
  | (PosInf | NegInf), _ =>
      if isZero y then NaN else signedInf (xorb (negative x) (negative y))
  | _, (PosInf | NegInf) =>
      if isZero x then NaN else signedInf (xorb (negative x) (negative y))
  | Fin a, Fin b =>
      if (a =? 0) || (b =? 0) then signedZero (xorb (a <? 0) (b <? 0))
      else round (a * b)
  | _, _ => signedZero (xorb (negative x) (negative y))
  end.

(** [Math.floor(p / q)] for integers [p], [q] > 0, the quotient being rounded
    to a double before the floor is taken; [neg_sign] is the sign of the
    quotient. *)
Definition floorQuotPos (neg_sign : bool) (p q : Z) : number :=
  let k := Z.max 0 (56 + Z.log2 q - Z.log2 p) in
  let n := Z.shiftl p k / q in
  let sticky := negb (Z.shiftl p k mod q =? 0) in
  let e := Z.log2 n + 1 - 53 in
  let m := roundShift n e sticky in
  if k <=? e then
    let v := Z.shiftl m (e - k) in
    if 2 ^ 1024 <=? v then signedInf neg_sign
    else if neg_sign then Fin (- v) else Fin v
  else
    let d := k - e in
    if neg_sign then Fin (- Z.shiftr (m + Z.shiftl 1 d - 1) d)
    else Fin (Z.shiftr m d).

(** [Math.floor(x / y)] *)
Definition floorDiv (x y : number) : number :=
  match x, y with
  | NaN, _ | _, NaN => NaN
  | (PosInf | NegInf), (PosInf | NegInf) => NaN
  | (PosInf | NegInf), _ => signedInf (xorb (negative x) (negative y))
  | _, (PosInf | NegInf) => signedZero (xorb (negative x) (negative y))
  | _, _ =>
      if isZero y then
        if isZero x then NaN else signedInf (xorb (negative x) (negative y))
      else if isZero x then signedZero (xorb (negative x) (negative y))
      else
        match x, y with
        | Fin a, Fin b => floorQuotPos (xorb (a <? 0) (b <? 0)) (Z.abs a) (Z.abs b)
        | _, _ => NaN
        end
  end.

(** Strict equality [x === y] of two numbers. *)
Definition eqb (x y : number) : bool :=
  match x, y with
  | NaN, _ | _, NaN => false
  | PosInf, PosInf | NegInf, NegInf => true
  | (Fin 0 | NegZero), (Fin 0 | NegZero) => true
  | Fin a, Fin b => a =? b
  | _, _ => false
  end.

(** [x < y] *)
Definition ltb (x y : number) : bool :=
  match x, y with
  | NaN, _ | _, NaN => false
  | PosInf, _ | _, NegInf => false
  | _, PosInf | NegInf, _ => true
  | NegZero, NegZero => false
  | NegZero, Fin b => 0 <? b
  | Fin a, NegZero => a <? 0
  | Fin a, Fin b => a <? b
  end.

(** [x <= y] *)
Definition leb (x y : number) : bool := ltb x y || eqb x y.

(** *** Decimal text *)

Definition digitChar (d : Z) : ascii := ascii_of_nat (48 + Z.to_nat d).

Fixpoint decimalDigits (fuel : nat) (z : Z) (acc : string) : string :=
  match fuel with
  | O => acc
  | S fuel' =>
      let acc' := String (digitChar (z mod 10)) acc in
      if z <? 10 then acc' else decimalDigits fuel' (z / 10) acc'
  end.

(** Decimal digits of [z] >= 0. *)
Definition decimal (z : Z) : string :=
  decimalDigits (S (Z.to_nat (Z.log2 z))) z EmptyString.

Definition numDigits (z : Z) : Z := Z.of_nat (String.length (decimal z)).

(** The integer [s * 10^(n-k)] with the fewest significant digits [k] among
    those the double [z] > 0 is the nearest double of: what [Number::toString]
    prints the digits of. *)
Fixpoint shortestFrom (fuel : nat) (z : Z) (k : Z) : Z :=
  match fuel with
  | O => z
  | S fuel' =>
      let d := 10 ^ (numDigits z - k) in
      let lo := (z / d) * d in
      let hi := lo + d in
      let okLo := match round lo with Fin v => v =? z | _ => false end in
      let okHi := match round hi with Fin v => v =? z | _ => false end in
      if okLo && okHi then (if z - lo <=? hi - z then lo else hi)
      else if okLo then lo
      else if okHi then hi
      else shortestFrom fuel' z (k + 1)
  end.

Definition shortest (z : Z) : Z :=
  if numDigits z <=? 15 then z else shortestFrom 17 z 1.

Fixpoint stripZeros (rev_digits : list ascii) : list ascii :=
  match rev_digits with
  | "0"%char :: rest => stripZeros rest
  | _ => rev_digits
  end.

(** [String(x)] for a positive integer-valued double. *)
Definition posToString (z : Z) : string :=
  let v := shortest z in
  let n := numDigits v in
  if n <=? 21 then decimal v
  else
    match rev (stripZeros (rev (list_ascii_of_string (decimal v)))) with
    | [] => "0"
    | [c] => String c ("e+" ++ decimal (n - 1))
    | c :: cs => String c ("." ++ string_of_list_ascii cs ++ "e+" ++ decimal (n - 1))
    end.

(** [String(x)] *)
Definition toString (x : number) : string :=
  match x with
  | NaN => "NaN"
  | PosInf => "Infinity"
  | NegInf => "-Infinity"
  | NegZero => "0"
  | Fin z =>
      if z =? 0 then "0"
      else if z <? 0 then "-" ++ posToString (- z)
      else posToString z
  end.

Definition isDigit (c : ascii) : bool :=
  let n := nat_of_ascii c in (48 <=? n)%nat && (n <=? 57)%nat.

Definition digitsValue (s : string) : Z :=
  fold_left (fun acc c => 10 * acc + Z.of_nat (nat_of_ascii c - 48))
            (list_ascii_of_string s) 0.

(** [Number(s)] for a run of decimal digits [s], the only text the lexer puts
    in a [num] token; the empty string converts to 0 and, for text that is not
    a digit run, the conversion is taken to be NaN. *)
Definition ofString (s : string) : number :=
  if forallb isDigit (list_ascii_of_string s) then round (digitsValue s) else NaN.

End JSNumber.

(* ------------------------------------------------------------------ *)
(** ** JavaScript [Map]s with string keys *)

Module JSMap.

Definition t (V : Type) : Type := list (string * V).

Definition empty {V : Type} : t V := [].

(** [m.get(k)]; [None] is [undefined]. *)
Fixpoint get {V : Type} (m : t V) (k : string) : option V :=
  match m with
  | [] => None
  | (k', v) :: m' => if String.eqb k' k then Some v else get m' k
  end.

(** [m.has(k)] *)
Definition has {V : Type} (m : t V) (k : string) : bool :=
  match get m k with
  | Some _ => true
  | None => false
  end.

(** [m.set(k, v)]: an existing key keeps its place, a new one goes last. *)
Fixpoint set {V : Type} (m : t V) (k : string) (v : V) : t V :=
  match m with
  | [] => [(k, v)]
  | (k', v') :: m' =>
      if String.eqb k' k then (k, v) :: m' else (k', v') :: set m' k v
  end.

(** [new Map(pairs)] *)
Definition ofList {V : Type} (pairs : list (string * V)) : t V :=
  fold_left (fun m kv => set m (fst kv) (snd kv)) pairs empty.

(** [new Map(m)]: a fresh map with the entries of [m]. *)
Definition copy {V : Type} (m : t V) : t V := m.

(** [m.entries()] *)
Definition entries {V : Type} (m : t V) : list (string * V) := m.

End JSMap.

(* ------------------------------------------------------------------ *)
(** ** src/lexer.ts *)

Module Lexer.

Local Open Scope Z_scope.

Inductive TokenType : Type := num | ident | str | kw | sym.

(** The [Token] union: five kinds of token with a [value], and [eof]. *)
Inductive Token : Type :=
| Tok (type : TokenType) (value : string) (line column : Z)
| Eof (line column : Z).

Definition line (t : Token) : Z :=
  match t with Tok _ _ l _ | Eof l _ => l end.

Definition column (t : Token) : Z :=
  match t with Tok _ _ _ c | Eof _ c => c end.

Definition TokenType_eqb (a b : TokenType) : bool :=
  match a, b with
  | num, num | ident, ident | str, str | kw, kw | sym, sym => true
  | _, _ => false
  end.

Definition typeName (ty : TokenType) : string :=
  match ty with
  | num => "num" | ident => "ident" | str => "str" | kw => "kw" | sym => "sym"
  end.

Definition keywords : list string :=
  ["class"; "extends"; "constructor"; "let"; "new"; "return"; "super"; "this";
   "true"; "false"; "if"; "else"; "import"; "as"].

Definition includes (l : list string) (s : string) : bool :=
  existsb (String.eqb s) l.

Definition newline : ascii := ascii_of_nat 10.
Definition backslash : ascii := ascii_of_nat 92.
Definition dquote : ascii := ascii_of_nat 34.
Definition squote : ascii := ascii_of_nat 39.

(** [/\s/.test(ch)] on code units below 256: tab, line feed, vertical tab,
    form feed, carriage return, space and no-break space. *)
Definition isSpace (ch : ascii) : bool :=
  let n := nat_of_ascii ch in
  ((9 <=? n) && (n <=? 13) || (n =? 32) || (n =? 160))%nat.

(** [/[0-9]/.test(ch)] *)
Definition isDigit (ch : ascii) : bool :=
  let n := nat_of_ascii ch in ((48 <=? n) && (n <=? 57))%nat.

(** [/[A-Za-z_]/.test(ch)] *)
Definition isIdentStart (ch : ascii) : bool :=
  let n := nat_of_ascii ch in
  ((65 <=? n) && (n <=? 90) || (97 <=? n) && (n <=? 122) || (n =? 95))%nat.

(** [/[A-Za-z0-9_]/.test(ch)] *)
Definition isIdentPart (ch : ascii) : bool := isIdentStart ch || isDigit ch.

(** [while (j < input.length && p(input[j])) j++], started at [j]; [fuel]
    bounds the iterations, and [String.length input - j] of it is enough
    ([LexerFacts.scanWhile_stops]). *)
Fixpoint scanWhile (p : ascii -> bool) (input : string) (fuel j : nat) : nat :=
  match fuel with
  | O => j
  | S fuel' =>
      match String.get j input with
      | Some c => if p c then scanWhile p input fuel' (S j) else j
      | None => j
      end
  end.

(** The body of a string literal (lines 48-51): from index [j], up to the
    closing [quote] or the end of the input; a backslash takes the next
    character literally.  Returns the final [j] and the decoded text;
    [String.length input - j] fuel is enough ([LexerFacts.scanString_stops]). *)
Fixpoint scanString (quote : ascii) (input : string) (fuel j : nat) (s : string)
  : nat * string :=
  match fuel with
  | O => (j, s)
  | S fuel' =>
      match String.get j input with
      | None => (j, s)
      | Some c =>
          if Ascii.eqb c quote then (j, s)
          else if Ascii.eqb c backslash then
            match String.get (S j) input with
            | Some d => scanString quote input fuel' (S (S j)) (s ++ String d "")
            | None => (S j, s)
            end
          else scanString quote input fuel' (S j) (s ++ String c "")
      end
  end.

Definition slice (input : string) (i j : nat) : string := substring i (j - i) input.

Definition twoCharSymbols : list string := ["=="; "!="; "<="; ">="; "&&"; "||"; "->"].

(** The main loop of [lex] (lines 25-79) from the state [i], [line],
    [column], [tokens], followed by the push of the [eof] token.  Every
    iteration advances [i], so [S (String.length input)] fuel is enough. *)
Fixpoint lexLoop (fuel : nat) (input : string) (i : nat) (line column : Z)
         (tokens : list Token) : option (list Token) :=
  match fuel with
  | O => None
  | S fuel' =>
      let len := String.length input in
      match String.get i input with
      | None => Some (tokens ++ [Eof line column])
      | Some ch =>
          if isSpace ch then
            if Ascii.eqb ch newline
            then lexLoop fuel' input (S i) (line + 1) 1 tokens
            else lexLoop fuel' input (S i) line (column + 1) tokens
          else if Ascii.eqb ch "/" &&
                  match String.get (S i) input with
                  | Some c => Ascii.eqb c "/"
                  | None => false
                  end then
            let i' := scanWhile (fun c => negb (Ascii.eqb c newline)) input (len - i) i in
            lexLoop fuel' input i' line column tokens
          else if isDigit ch then
            let startCol := column in
            let j := scanWhile isDigit input (len - i) i in
            lexLoop fuel' input j line (column + (Z.of_nat j - Z.of_nat i))
                    (tokens ++ [Tok num (slice input i j) line startCol])
          else if Ascii.eqb ch dquote || Ascii.eqb ch squote then
            let startCol := column in
            let '(j, s) := scanString ch input (len - i) (S i) "" in
            let i' := S j in
            lexLoop fuel' input i' line
                    (column + (Z.of_nat i' - (Z.of_nat j - Z.of_nat (String.length s))))
                    (tokens ++ [Tok str s line startCol])
          else if isIdentStart ch then
            let startCol := column in
            let j := scanWhile isIdentPart input (len - i) i in
            let word := slice input i j in
            lexLoop fuel' input j line (column + (Z.of_nat j - Z.of_nat i))
                    (tokens ++ [Tok (if includes keywords word then kw else ident)
                                    word line startCol])
          else
            let startCol := column in
            let two := slice input i (i + 2) in
            if includes twoCharSymbols two then
              lexLoop fuel' input (i + 2) line (column + 2)
                      (tokens ++ [Tok sym two line startCol])
            else
              lexLoop fuel' input (S i) line (column + 1)
                      (tokens ++ [Tok sym (String ch "") line startCol])
      end
  end.

(** [lex(input)] *)
Definition lex (input : string) : option (list Token) :=
  lexLoop (S (String.length input)) input 0 1 1 [].

End Lexer.

(* ------------------------------------------------------------------ *)
(** ** src/ast.ts *)

Module AST.

Definition Identifier_t : Type := string.

Inductive Expr : Type :=
| IntLiteral (value : JSNumber.number)
| StringLiteral (value : string)
| BoolLiteral (value : bool)
| Identifier (name : Identifier_t)
| BinaryExpr (op : string) (left right : Expr)
| UnaryExpr (op : string) (expr : Expr)
| CallExpr (callee : Expr) (args : list Expr)
| NewExpr (className : Identifier_t) (args : list Expr)
| FieldAccessExpr (obj : Expr) (field : Identifier_t)
| ThisExpr
| SuperExpr (method : option Identifier_t)
| AssignmentExpr (target value : Expr).

Record Param : Type := mkParam {
  name : Identifier_t;
  typeName : Identifier_t
}.

Inductive Stmt : Type :=
| ImportStmt (module : string) (alias : option string)
| ClassDecl (name : Identifier_t) (superName : option Identifier_t)
            (members : list ClassMember)
| VarDecl (name typeName : Identifier_t) (init : option Expr)
| FuncDecl (name : Identifier_t) (params : list Param) (returnType : Identifier_t)
           (body : list Stmt)
| ExprStmt (expr : Expr)
| ReturnStmt (expr : option Expr)
| IfStmt (condition : Expr) (thenBody : list Stmt) (elseBody : option (list Stmt))
with ClassMember : Type :=
| FieldDecl (name typeName : Identifier_t)
| MethodDecl (name : Identifier_t) (params : list Param) (returnType : Identifier_t)
             (body : list Stmt)
| ConstructorDecl (params : list Param) (body : list Stmt).

Record Program : Type := mkProgram { body : list Stmt }.

End AST.

(* ------------------------------------------------------------------ *)
(** ** src/parser.ts *)

Module Parser.

Import Lexer AST.

(** [CompileError] as the parser builds it: message, start location, source. *)
Record CompileError : Type := mkCompileError {
  message : string;
  location : Z * Z;
  source : string
}.

(** The parser object. *)
Record t : Type := mkParser {
  tokens : list Token;
  pos : nat;
  src : string
}.

(** Outcome of a parsing method: a value and the parser after it, a thrown
    [CompileError], the [TypeError] JavaScript raises when a token is read
    past the end of [tokens], or no fuel left. *)
Inductive Result (A : Type) : Type :=
| Ok (a : A) (p : t)
| Throw (e : CompileError)
| TypeError
| OutOfFuel.

Arguments Ok {A} a p.
Arguments Throw {A} e.
Arguments TypeError {A}.
Arguments OutOfFuel {A}.

Definition P (A : Type) : Type := t -> Result A.

Definition ret {A : Type} (a : A) : P A := fun p => Ok a p.

Definition bind {A B : Type} (m : P A) (k : A -> P B) : P B :=
  fun p =>
    match m p with
    | Ok a p' => k a p'
    | Throw e => Throw e
    | TypeError => TypeError
    | OutOfFuel => OutOfFuel
    end.

Notation "x <- m ;; k" := (bind m (fun x => k))
  (at level 61, m at next level, right associativity).
Notation "m ;;; k" := (bind m (fun _ => k))
  (at level 61, right associativity).

Definition outOfFuel {A : Type} : P A := fun _ => OutOfFuel.

(** [this.peek()], read through at once: every caller goes on to [t.type]. *)
Definition peek : P Token :=
  fun p =>
    match nth_error (tokens p) (pos p) with
    | Some tk => Ok tk p
    | None => TypeError
    end.

(** The parser after [this.pos++]. *)
Definition advance (p : t) : t := mkParser (tokens p) (S (pos p)) (src p).

(** [this.next()] *)
Definition next : P (option Token) :=
  fun p => Ok (nth_error (tokens p) (pos p)) (advance p).

(** [throw this.makeError(message)] *)
Definition throwError {A : Type} (msg : string) : P A :=
  fun p =>
    match peek p with
    | Ok tk _ => Throw (mkCompileError msg (line tk, column tk) (src p))
    | _ => TypeError
    end.

Definition isSym (tk : Token) (v : string) : bool :=
  match tk with
  | Tok sym v' _ _ => String.eqb v' v
  | _ => false
  end.

Definition isKw (tk : Token) (v : string) : bool :=
  match tk with
  | Tok kw v' _ _ => String.eqb v' v
  | _ => false
  end.

(** [t.type === 'eof' ? 'EOF' : (t as any).value || t.type] *)
Definition tokenStr (tk : Token) : string :=
  match tk with
  | Eof _ _ => "EOF"
  | Tok ty v _ _ => if String.eqb v "" then Lexer.typeName ty else v
  end.

Definition eatSym (v : string) : P unit :=
  tk <- peek ;;
  if isSym tk v then next ;;; ret tt
  else throwError ("Expected '" ++ v ++ "', but got '" ++ tokenStr tk ++ "'").

Definition eatKw (v : string) : P unit :=
  tk <- peek ;;
  if isKw tk v then next ;;; ret tt
  else throwError ("Expected keyword '" ++ v ++ "', but got '" ++ tokenStr tk ++ "'").

Definition optionalSemi : P unit :=
  tk <- peek ;;
  if isSym tk ";" then next ;;; ret tt else ret tt.

Definition expectIdent : P string :=
  tk <- peek ;;
  match tk with
  | Tok ident v _ _ => next ;;; ret v
  | _ => throwError ("Expected identifier, but got '" ++ tokenStr tk ++ "'")
  end.

Definition parseImport : P Stmt :=
  eatKw "import" ;;;
  module <- expectIdent ;;
  tk <- peek ;;
  alias <- (if isKw tk "as" then next ;;; a <- expectIdent ;; ret (Some a)
            else ret None) ;;
  optionalSemi ;;;
  ret (ImportStmt module alias).

(** The [while (true)] loop of [parseParams] (lines 112-120). *)
Fixpoint parseParamsLoop (iters : nat) (params : list Param) : P (list Param) :=
  match iters with
  | O => outOfFuel
  | S iters' =>
      name <- expectIdent ;;
      eatSym ":" ;;;
      typeName <- expectIdent ;;
      let params' := params ++ [mkParam name typeName] in
      t3 <- peek ;;
      if isSym t3 "," then next ;;; parseParamsLoop iters' params'
      else ret params'
  end.

Definition parseParams (fuel : nat) : P (list Param) :=
  tk <- peek ;;
  if isSym tk ")" then ret [] else parseParamsLoop fuel [].

Definition binaryOperators : list string :=
  ["+"; "-"; "*"; "/"; "=="; "!="; "<"; ">"; "<="; ">="].

Definition isBinaryOperator (tk : Token) : bool :=
  match tk with
  | Tok sym v _ _ => includes binaryOperators v
  | _ => false
  end.

(** [(this.next() as any).value], which the source reads only after it has
    seen a symbol token at [pos]. *)
Definition nextValue : P string :=
  o <- next ;;
  match o with
  | Some (Tok _ v _ _) => ret v
  | _ => fun _ => TypeError
  end.

(** The [while] loop of [parseBinary] (lines 274-279); [operand] is
    [this.parseUnary]. *)
Fixpoint parseBinaryLoop (operand : P Expr) (iters : nat) (left : Expr) : P Expr :=
  match iters with
  | O => outOfFuel
  | S iters' =>
      tk <- peek ;;
      if isBinaryOperator tk then
        op <- nextValue ;;
        right <- operand ;;
        parseBinaryLoop operand iters' (BinaryExpr op left right)
      else ret left
  end.

(** The [while (true)] loop of [parseArgs] (lines 251-256); [expr] is
    [this.parseExpr]. *)
Fixpoint parseArgsLoop (expr : P Expr) (iters : nat) (args : list Expr)
  : P (list Expr) :=
  match iters with
  | O => outOfFuel
  | S iters' =>
      a <- expr ;;
      let args' := args ++ [a] in
      t2 <- peek ;;
      if isSym t2 "," then next ;;; parseArgsLoop expr iters' args'
      else ret args'
  end.

(** The suffix loop that follows [this], [super], [print] and an identifier
    in [parsePrimary] (lines 193, 194, 207-219, 226-239; the four copies are
    the same); [parseArgs] is [this.parseArgs]. *)
Fixpoint parseSuffixLoop (parseArgs : P (list Expr)) (iters : nat) (expr : Expr)
  : P Expr :=
  match iters with
  | O => outOfFuel
  | S iters' =>
      t2 <- peek ;;
      if isSym t2 "." then
        next ;;;
        field <- expectIdent ;;
        parseSuffixLoop parseArgs iters' (FieldAccessExpr expr field)
      else if isSym t2 "(" then
        next ;;;
        args <- parseArgs ;;
        eatSym ")" ;;;
        parseSuffixLoop parseArgs iters' (CallExpr expr args)
      else ret expr
  end.

(** The expression methods.  [fuel] bounds both the depth of the recursion
    and the iterations of each loop. *)
Fixpoint parseExpr (fuel : nat) : P Expr :=
  match fuel with
  | O => outOfFuel
  | S n => parseAssignment n
  end

with parseAssignment (fuel : nat) : P Expr :=
  match fuel with
  | O => outOfFuel
  | S n =>
      left <- parseBinary n ;;
      tk <- peek ;;
      if isSym tk "=" then
        next ;;;
        right <- parseAssignment n ;;
        ret (AssignmentExpr left right)
      else ret left
  end

with parseBinary (fuel : nat) : P Expr :=
  match fuel with
  | O => outOfFuel
  | S n =>
      left <- parseUnary n ;;
      parseBinaryLoop (parseUnary n) n left
  end

with parseUnary (fuel : nat) : P Expr :=
  match fuel with
  | O => outOfFuel
  | S n =>
      tk <- peek ;;
      if isSym tk "-" || isSym tk "+" then
        op <- nextValue ;;
        expr <- parseUnary n ;;
        ret (UnaryExpr op expr)
      else parsePrimary n
  end

with parsePrimary (fuel : nat) : P Expr :=
  match fuel with
  | O => outOfFuel
  | S n =>
      tk <- peek ;;
      match tk with
      | Tok num v _ _ => next ;;; ret (IntLiteral (JSNumber.ofString v))
      | Tok str v _ _ => next ;;; ret (StringLiteral v)
      | Tok kw v _ _ =>
          if String.eqb v "true" || String.eqb v "false" then
            next ;;; ret (BoolLiteral (String.eqb v "true"))
          else if String.eqb v "this" then
            next ;;; parseSuffixLoop (parseArgs n) n ThisExpr
          else if String.eqb v "super" then
            next ;;; parseSuffixLoop (parseArgs n) n (SuperExpr None)
          else if String.eqb v "new" then
            next ;;;
            className <- expectIdent ;;
            eatSym "(" ;;;
            args <- parseArgs n ;;
            eatSym ")" ;;;
            ret (NewExpr className args)
          else if String.eqb v "print" then
            next ;;; parseSuffixLoop (parseArgs n) n (Identifier "print")
          else
            throwError ("Unexpected token '" ++ tokenStr tk ++
                        "'. Expected expression, literal, or identifier")
      | Tok ident v _ _ =>
          next ;;; parseSuffixLoop (parseArgs n) n (Identifier v)
      | _ =>
          throwError ("Unexpected token '" ++ tokenStr tk ++
                      "'. Expected expression, literal, or identifier")
      end
  end

with parseArgs (fuel : nat) : P (list Expr) :=
  match fuel with
  | O => outOfFuel
  | S n =>
      tk <- peek ;;
      if isSym tk ")" then ret [] else parseArgsLoop (parseExpr n) n []
  end.

Definition parseVarDecl (fuel : nat) : P Stmt :=
  eatKw "let" ;;;
  name <- expectIdent ;;
  eatSym ":" ;;;
  typeName <- expectIdent ;;
  tk <- peek ;;
  init <- (if isSym tk "=" then next ;;; e <- parseExpr fuel ;; ret (Some e)
           else ret None) ;;
  optionalSemi ;;;
  ret (VarDecl name typeName init).

Definition parseExprStmt (fuel : nat) : P Stmt :=
  expr <- parseExpr fuel ;;
  optionalSemi ;;;
  ret (ExprStmt expr).

(** The [while (true)] loop of [parseBlock] (lines 126-133) and the
    [eatSym("}")] after it; [parseIfStmt] is [this.parseIfStmt]. *)
Fixpoint parseBlockLoop (parseIfStmt : P Stmt) (fuel iters : nat) (stmts : list Stmt)
  : P (list Stmt) :=
  match iters with
  | O => outOfFuel
  | S iters' =>
      tk <- peek ;;
      if isSym tk "}" then eatSym "}" ;;; ret stmts
      else if isKw tk "let" then
        s <- parseVarDecl fuel ;; parseBlockLoop parseIfStmt fuel iters' (stmts ++ [s])
      else if isKw tk "if" then
        s <- parseIfStmt ;; parseBlockLoop parseIfStmt fuel iters' (stmts ++ [s])
      else if isKw tk "return" then
        next ;;;
        t2 <- peek ;;
        expr <- (if isSym t2 ";" then ret None
                 else e <- parseExpr fuel ;; ret (Some e)) ;;
        optionalSemi ;;;
        parseBlockLoop parseIfStmt fuel iters' (stmts ++ [ReturnStmt expr])
      else
        s <- parseExprStmt fuel ;; parseBlockLoop parseIfStmt fuel iters' (stmts ++ [s])
  end.

Fixpoint parseIfStmt (fuel : nat) : P Stmt :=
  match fuel with
  | O => outOfFuel
  | S n =>
      eatKw "if" ;;;
      eatSym "(" ;;;
      condition <- parseExpr n ;;
      eatSym ")" ;;;
      eatSym "{" ;;;
      thenBody <- parseBlockLoop (parseIfStmt n) n n [] ;;
      tk <- peek ;;
      elseBody <- (if isKw tk "else" then
                     next ;;;
                     eatSym "{" ;;;
                     b <- parseBlockLoop (parseIfStmt n) n n [] ;;
                     ret (Some b)
                   else ret None) ;;
      ret (IfStmt condition thenBody elseBody)
  end.

Definition parseBlock (fuel : nat) : P (list Stmt) :=
  parseBlockLoop (parseIfStmt fuel) fuel fuel [].

(** The [while (true)] loop of [parseClass] (lines 68-103). *)
Fixpoint parseClassLoop (fuel iters : nat) (members : list ClassMember)
  : P (list ClassMember) :=
  match iters with
  | O => outOfFuel
  | S iters' =>
      tk <- peek ;;
      if isSym tk "}" then ret members
      else if isKw tk "constructor" then
        next ;;;
        eatSym "(" ;;;
        params <- parseParams fuel ;;
        eatSym ")" ;;;
        eatSym "{" ;;;
        body <- parseBlock fuel ;;
        parseClassLoop fuel iters' (members ++ [ConstructorDecl params body])
      else
        id <- expectIdent ;;
        t2 <- peek ;;
        if isSym t2 ":" then
          next ;;;
          typeName <- expectIdent ;;
          optionalSemi ;;;
          parseClassLoop fuel iters' (members ++ [FieldDecl id typeName])
        else if isSym t2 "(" then
          next ;;;
          params <- parseParams fuel ;;
          eatSym ")" ;;;
          eatSym ":" ;;;
          returnType <- expectIdent ;;
          eatSym "{" ;;;
          body <- parseBlock fuel ;;
          parseClassLoop fuel iters' (members ++ [MethodDecl id params returnType body])
        else throwError "Unexpected class member. Expected method or field declaration"
  end.

Definition parseClass (fuel : nat) : P Stmt :=
  eatKw "class" ;;;
  name <- expectIdent ;;
  t1 <- peek ;;
  superName <- (if isKw t1 "extends" then next ;;; s <- expectIdent ;; ret (Some s)
                else ret None) ;;
  eatSym "{" ;;;
  members <- parseClassLoop fuel fuel [] ;;
  eatSym "}" ;;;
  ret (ClassDecl name superName members).

Definition parseTopLevel (fuel : nat) : P Stmt :=
  tk <- peek ;;
  if isKw tk "import" then parseImport
  else if isKw tk "class" then parseClass fuel
  else if isKw tk "let" then parseVarDecl fuel
  else parseExprStmt fuel.

(** The [while] loop of [parseProgram] (line 36). *)
Fixpoint parseProgramLoop (fuel iters : nat) (body : list Stmt) : P Program :=
  match iters with
  | O => outOfFuel
  | S iters' =>
      tk <- peek ;;
      match tk with
      | Eof _ _ => ret (mkProgram body)
      | _ => s <- parseTopLevel fuel ;; parseProgramLoop fuel iters' (body ++ [s])
      end
  end.

Definition parseProgram (fuel : nat) : P Program := parseProgramLoop fuel fuel [].

(** [new Parser(src)]; [None] only when the lexer is given too little fuel,
    which [lex] never is. *)
Definition new (src : string) : option t :=
  match lex src with
  | Some toks => Some (mkParser toks 0 src)
  | None => None
  end.

(** [new Parser(src).parseProgram()], with six times the number of tokens as
    fuel: a loop turns at most once per token, and one more level of nesting
    in the text costs at most six nested calls. *)
Definition parse (src : string) : Result Program :=
  match new src with
  | Some p => parseProgram (6 * S (List.length (tokens p))) p
  | None => OutOfFuel
  end.

End Parser.

(* ------------------------------------------------------------------ *)
(** ** src/errors.ts *)

Module Errors.

Import Lexer.

Local Open Scope Z_scope.

(** [CompileError].  [location] is [location.start], the one part of a
    location that is read; its line and column are integers, as the lexer
    counts them. *)
Record CompileError : Type := mkCompileError {
  message : string;
  location : option (Z * Z);
  source : option string;
  hint : option string
}.

(** The error [makeError] of the parser builds: a location and the source
    text, no hint. *)
Definition ofParser (e : Parser.CompileError) : CompileError :=
  mkCompileError (Parser.message e) (Some (Parser.location e))
                 (Some (Parser.source e)) None.

(** [s.split(sep)] for the one-character separator [sep]. *)
Fixpoint splitOn (sep : ascii) (s : string) : list string :=
  match s with
  | EmptyString => [EmptyString]
  | String c rest =>
      if Ascii.eqb c sep then EmptyString :: splitOn sep rest
      else
        match splitOn sep rest with
        | first :: others => String c first :: others
        | [] => [String c EmptyString]
        end
  end.

(** [lines.join(sep)] *)
Definition join (sep : string) (lines : list string) : string :=
  String.concat sep lines.

(** [" ".repeat(n)]; a negative count is a RangeError, [None] here. *)
Definition spaces (n : Z) : option string :=
  if n <? 0 then None
  else Some (string_of_list_ascii (List.repeat " "%char (Z.to_nat n))).

(** [array[i]]; [None] is [undefined]. *)
Definition at_index (l : list string) (i : Z) : option string :=
  if i <? 0 then None else nth_error l (Z.to_nat i).

(** An integer in a template literal. *)
Definition num (n : Z) : string := JSNumber.toString (JSNumber.Fin n).

(** The lines [format] pushes for the location (lines 28-42); [None] is the
    RangeError of [repeat]. *)
Definition locationLines (e : CompileError) : option (list string) :=
  match location e with
  | Some (line, column) =>
      let lines :=
        [("error at line " ++ num line ++ ", column " ++ num column ++ ":")%string] in
      match source e with
      | Some src =>
          if String.eqb src "" then Some lines
          else
            let sourceLines := splitOn newline src in
            match at_index sourceLines (line - 1) with
            | Some problemLine =>
                if String.eqb problemLine "" then Some lines
                else
                  match spaces (column - 1) with
                  | Some pad =>
                      Some (lines ++ [("  " ++ num line ++ " | " ++ problemLine)%string;
                                      ("    | " ++ pad ++ "^")%string])
                  | None => None
                  end
            | None => Some lines
            end
      | None => Some lines
      end
  | None => Some ["error:"]
  end.

(** [CompileError.format()] *)
Definition format (e : CompileError) : option string :=
  match locationLines e with
  | Some lines =>
      let lines := lines ++ [("  " ++ message e)%string] in
      let lines :=
        match hint e with
        | Some h => if String.eqb h "" then lines else lines ++ [("  hint: " ++ h)%string]
        | None => lines
        end in
      Some (join (String newline "") lines)
  | None => None
  end.

End Errors.

(* ------------------------------------------------------------------ *)
(** ** src/typecheck.ts *)

Module TypeCheck.

Import AST.

Definition TypeName : Type := string.

Record MethodSig : Type := mkMethodSig {
  params : list TypeName;
  ret : TypeName
}.

Record ClassInfo : Type := mkClassInfo {
  name : string;
  superName : option string;
  fields : JSMap.t TypeName;
  methods : JSMap.t MethodSig;
  constructor : option (list TypeName)
}.

(** The [TypeChecker] object. *)
Record t : Type := mkTypeChecker {
  classes : JSMap.t ClassInfo;
  errors : list string
}.

(** [new TypeChecker()] *)
Definition new : t := mkTypeChecker JSMap.empty [].

Definition push (tc : t) (e : string) : t :=
  mkTypeChecker (classes tc) (errors tc ++ [e]).

(** A string in a condition: [undefined] and the empty string are falsy. *)
Definition truthy (s : option string) : bool :=
  match s with
  | Some v => negb (String.eqb v "")
  | None => false
  end.

(** Pass 1 (lines 20-26): class headers. *)
Definition collectHeader (tc : t) (s : Stmt) : t :=
  match s with
  | ClassDecl n sup _ =>
      let tc' := if JSMap.has (classes tc) n then push tc ("Duplicate class " ++ n)
                 else tc in
      mkTypeChecker
        (JSMap.set (classes tc') n (mkClassInfo n sup JSMap.empty JSMap.empty None))
        (errors tc')
  | _ => tc
  end.

Definition fillMember (info : ClassInfo) (m : ClassMember) : ClassInfo :=
  match m with
  | FieldDecl n ty =>
      mkClassInfo (name info) (superName info) (JSMap.set (fields info) n ty)
                  (methods info) (constructor info)
  | MethodDecl n ps r _ =>
      mkClassInfo (name info) (superName info) (fields info)
                  (JSMap.set (methods info) n
                             (mkMethodSig (map AST.typeName ps) r))
                  (constructor info)
  | ConstructorDecl ps _ =>
      mkClassInfo (name info) (superName info) (fields info) (methods info)
                  (Some (map AST.typeName ps))
  end.

(** Pass 2 (lines 28-37): members.  The entry read here was stored by pass 1;
    the map holds the one [info] object the loop updates. *)
Definition fillMembers (tc : t) (s : Stmt) : t :=
  match s with
  | ClassDecl n _ members =>
      match JSMap.get (classes tc) n with
      | Some info =>
          mkTypeChecker (JSMap.set (classes tc) n (fold_left fillMember members info))
                        (errors tc)
      | None => tc
      end
  | _ => tc
  end.

(** Pass 3 (lines 39-41): super classes exist. *)
Definition checkSuper (all : JSMap.t ClassInfo) (errs : list string)
           (entry : string * ClassInfo) : list string :=
  let '(n, info) := entry in
  match superName info with
  | Some sup =>
      if truthy (Some sup) && negb (JSMap.has all sup)
      then errs ++ [("Class " ++ n ++ " extends unknown " ++ sup)%string]
      else errs
  | None => errs
  end.

(** [typeExists(t)] *)
Definition typeExists (tc : t) (ty : TypeName) : bool :=
  if Lexer.includes ["int"; "Int"; "string"; "String"; "bool"; "Bool"; "void"; "Void"] ty
  then true
  else JSMap.has (classes tc) ty.

(** Lines 46-50: top-level variable declarations. *)
Definition checkVar (tc : t) (s : Stmt) : t :=
  match s with
  | VarDecl n ty _ =>
      if negb (typeExists tc ty)
      then push tc ("Unknown type " ++ ty ++ " in var " ++ n)
      else tc
  | _ => tc
  end.

(** [check(program)]: the checker after the call; its [errors] is what the
    call returns. *)
Definition check (tc : t) (program : Program) : t :=
  let tc1 := fold_left collectHeader (body program) tc in
  let tc2 := fold_left fillMembers (body program) tc1 in
  let tc3 := mkTypeChecker
               (classes tc2)
               (fold_left (checkSuper (classes tc2)) (JSMap.entries (classes tc2))
                          (errors tc2)) in
  fold_left checkVar (body program) tc3.

(** [this.classes.get(cur)?.superName] *)
Definition superOf (tc : t) (cur : string) : option string :=
  match JSMap.get (classes tc) cur with
  | Some info => superName info
  | None => None
  end.

(** The [while (cur)] loop of [isSubtype] (lines 65-68) and the [return false]
    after it; [None] when [fuel] iterations did not end it. *)
Fixpoint superWalk (tc : t) (fuel : nat) (cur : option string) (b : TypeName)
  : option bool :=
  match fuel with
  | O => None
  | S fuel' =>
      match cur with
      | Some c =>
          if truthy cur then
            if String.eqb c b then Some true
            else superWalk tc fuel' (superOf tc c) b
          else Some false
      | None => Some false
      end
  end.

(** [isSubtype(a, b)] *)
Definition isSubtype (tc : t) (fuel : nat) (a b : TypeName) : option bool :=
  if String.eqb a b then Some true
  else if String.eqb a "Void" || String.eqb b "Void" then Some false
  else if negb (JSMap.has (classes tc) a) || negb (JSMap.has (classes tc) b)
  then Some false
  else superWalk tc fuel (superOf tc a) b.

End TypeCheck.

(* ------------------------------------------------------------------ *)
(** ** src/runtime.ts *)

Module Runtime.

Import AST.

(** A [Value].  An object value is a reference: [ref] is the address of its
    [fields] map in the heap, shared by every copy of the value. *)
Inductive Value : Type :=
| VInt (value : JSNumber.number)
| VString (value : string)
| VBool (value : bool)
| VObject (className : string) (ref : nat)
| VClass (className : string)
| VNull.

Definition Env : Type := JSMap.t Value.

(** A class declaration as [this.classes] holds it. *)
Record Class : Type := mkClass {
  name : string;
  superName : option string;
  members : list ClassMember
}.

Record Method : Type := mkMethod {
  mname : string;
  params : list Param;
  returnType : string;
  body : list Stmt
}.

(** The [Runtime] object (its [returnValue], which no method reads or
    writes, left out), the heap of field maps, and what [console.log] was
    called with, one list of arguments per call. *)
Record t : Type := mkRuntime {
  classes : JSMap.t Class;
  globals : Env;
  hasReturned : bool;
  heap : list Env;
  stdout : list (list string)
}.

(** The map an [execStmt] or [evalExpr] call receives as [target]: the
    [globals] map itself, or a map of its own made by a method call. *)
Inductive Target : Type :=
| Globals
| Local (env : Env).

Record Frame : Type := mkFrame {
  target : Target;
  rt : t
}.

Inductive Result (A : Type) : Type :=
| Ok (a : A) (fr : Frame)
| Error (msg : string)
| OutOfFuel.

Arguments Ok {A} a fr.
Arguments Error {A} msg.
Arguments OutOfFuel {A}.

Definition M (A : Type) : Type := Frame -> Result A.

Definition ret {A : Type} (a : A) : M A := fun fr => Ok a fr.

Definition bind {A B : Type} (m : M A) (k : A -> M B) : M B :=
  fun fr =>
    match m fr with
    | Ok a fr' => k a fr'
    | Error msg => Error msg
    | OutOfFuel => OutOfFuel
    end.

Notation "x <- m ;; k" := (bind m (fun x => k))
  (at level 61, m at next level, right associativity).
Notation "m ;;; k" := (bind m (fun _ => k))
  (at level 61, right associativity).

Definition throw {A : Type} (msg : string) : M A := fun _ => Error msg.
Definition outOfFuel {A : Type} : M A := fun _ => OutOfFuel.

Definition setGlobals (r : t) (g : Env) : t :=
  mkRuntime (classes r) g (hasReturned r) (heap r) (stdout r).

Definition setHeap (r : t) (h : list Env) : t :=
  mkRuntime (classes r) (globals r) (hasReturned r) h (stdout r).

(** The entries of [target]. *)
Definition targetEnv (fr : Frame) : Env :=
  match target fr with
  | Globals => globals (rt fr)
  | Local env => env
  end.

(** [target.set(name, v)] *)
Definition targetSet (n : string) (v : Value) : M unit :=
  fun fr =>
    match target fr with
    | Globals => Ok tt (mkFrame Globals (setGlobals (rt fr) (JSMap.set (globals (rt fr)) n v)))
    | Local env => Ok tt (mkFrame (Local (JSMap.set env n v)) (rt fr))
    end.

(** Run [m] with [localEnv] as its [target]; the caller's [target] is the
    caller's again afterwards. *)
Definition withTarget {A : Type} (localEnv : Env) (m : M A) : M A :=
  fun fr =>
    match m (mkFrame (Local localEnv) (rt fr)) with
    | Ok a fr' => Ok a (mkFrame (target fr) (rt fr'))
    | Error msg => Error msg
    | OutOfFuel => OutOfFuel
    end.

(** [console.log(...args)] *)
Definition consoleLog (args : list string) : M unit :=
  fun fr =>
    let r := rt fr in
    Ok tt (mkFrame (target fr)
                   (mkRuntime (classes r) (globals r) (hasReturned r) (heap r)
                              (stdout r ++ [args]))).

(** Allocate a field map; the result is its address. *)
Definition alloc (fields : Env) : M nat :=
  fun fr =>
    Ok (List.length (heap (rt fr)))
       (mkFrame (target fr) (setHeap (rt fr) (heap (rt fr) ++ [fields]))).

Fixpoint updateNth {A : Type} (l : list A) (i : nat) (f : A -> A) : list A :=
  match l, i with
  | [], _ => []
  | x :: l', O => f x :: l'
  | x :: l', S i' => x :: updateNth l' i' f
  end.

(** [obj.fields.get(field) ?? { kind: "null" }] *)
Definition fieldGet (ref : nat) (field : string) : M Value :=
  fun fr =>
    match nth_error (heap (rt fr)) ref with
    | Some fields =>
        match JSMap.get fields field with
        | Some v => Ok v fr
        | None => Ok VNull fr
        end
    | None => Ok VNull fr
    end.

(** [obj.fields.set(field, v)] *)
Definition fieldSet (ref : nat) (field : string) (v : Value) : M unit :=
  fun fr =>
    Ok tt (mkFrame (target fr)
                   (setHeap (rt fr)
                            (updateNth (heap (rt fr)) ref (fun fs => JSMap.set fs field v)))).

(** [valToString(v)] *)
Definition valToString (v : Value) : string :=
  match v with
  | VInt n => JSNumber.toString n
  | VString s => s
  | VBool b => if b then "true" else "false"
  | VObject cn _ => "<" ++ cn ++ " object>"
  | _ => "null"
  end.

Definition isMethodNamed (methodName : string) (m : ClassMember) : bool :=
  match m with
  | MethodDecl n _ _ _ => String.eqb n methodName
  | _ => false
  end.

(** [cls.members.find(mem => mem.kind === "MethodDecl" && mem.name === methodName)] *)
Definition findMember (ms : list ClassMember) (methodName : string) : option Method :=
  match find (isMethodNamed methodName) ms with
  | Some (MethodDecl n ps r b) => Some (mkMethod n ps r b)
  | _ => None
  end.

(** The [while (cls)] loop of [findMethod] (lines 291-296) and the
    [return undefined] after it; the outer [None] is fuel run out. *)
Fixpoint findMethodLoop (cs : JSMap.t Class) (fuel : nat) (cls : option Class)
         (methodName : string) : option (option Method) :=
  match fuel with
  | O => None
  | S fuel' =>
      match cls with
      | None => Some None
      | Some c =>
          match findMember (members c) methodName with
          | Some m => Some (Some m)
          | None =>
              match superName c with
              | Some sup =>
                  if String.eqb sup "" then Some None
                  else findMethodLoop cs fuel' (JSMap.get cs sup) methodName
              | None => Some None
              end
          end
      end
  end.

(** [this.findMethod(className, methodName)] *)
Definition findMethod (fuel : nat) (className methodName : string) : M (option Method) :=
  fun fr =>
    match findMethodLoop (classes (rt fr)) fuel
                         (JSMap.get (classes (rt fr)) className) methodName with
    | Some r => Ok r fr
    | None => OutOfFuel
    end.

(** The parameter loop (lines 191-193 and 216-218):
    [for (i = 0; i < params.length && i < args.length; i++)
       localEnv.set(params[i].name, args[i])]. *)
Fixpoint bindParams (ps : list Param) (args : list Value) (localEnv : Env) : Env :=
  match ps, args with
  | p :: ps', a :: args' => bindParams ps' args' (JSMap.set localEnv (AST.name p) a)
  | _, _ => localEnv
  end.

(** [e.args.map(a => this.evalExpr(a, target))] *)
Fixpoint evalArgs (evalE : Expr -> M Value) (args : list Expr) : M (list Value) :=
  match args with
  | [] => ret []
  | a :: rest =>
      v <- evalE a ;;
      vs <- evalArgs evalE rest ;;
      ret (v :: vs)
  end.

(** [for (const stmt of stmts) if (this.execStmt(stmt, target)) return true;]
    and, once the loop is over, [false]. *)
Fixpoint execBlock (execS : Stmt -> M bool) (stmts : list Stmt) : M bool :=
  match stmts with
  | [] => ret false
  | s :: rest =>
      returned <- execS s ;;
      if returned then ret true else execBlock execS rest
  end.

(** The method body loop (lines 196-205 and 221-230). *)
Fixpoint execBody (evalE : Expr -> M Value) (execS : Stmt -> M bool)
         (stmts : list Stmt) : M Value :=
  match stmts with
  | [] => ret VNull
  | ReturnStmt expr :: _ =>
      match expr with
      | Some e => evalE e
      | None => ret VNull
      end
  | s :: rest => execS s ;;; execBody evalE execS rest
  end.

(** The condition of an [if] (line 120). *)
Definition isTruthy (cond : Value) : bool :=
  match cond with
  | VInt v => negb (JSNumber.eqb v (JSNumber.Fin 0))
  | VBool b => b
  | _ => false
  end.

Definition isString (v : Value) : bool :=
  match v with
  | VString _ => true
  | _ => false
  end.

Definition boolInt (b : bool) : Value :=
  VInt (JSNumber.Fin (if b then 1 else 0)).

(** The operator chain of [BinaryExpr] (lines 239-260); [None] is the fall
    through to the [throw] of line 261. *)
Definition binaryOp (op : string) (l r : Value) : option Value :=
  if String.eqb op "+" then
    if isString l || isString r then Some (VString (valToString l ++ valToString r))
    else
      match l, r with
      | VInt a, VInt b => Some (VInt (JSNumber.add a b))
      | _, _ => None
      end
  else
    match l, r with
    | VInt a, VInt b =>
        if String.eqb op "-" then Some (VInt (JSNumber.sub a b))
        else if String.eqb op "*" then Some (VInt (JSNumber.mul a b))
        else if String.eqb op "/" then Some (VInt (JSNumber.floorDiv a b))
        else if String.eqb op "==" then Some (boolInt (JSNumber.eqb a b))
        else if String.eqb op "!=" then Some (boolInt (negb (JSNumber.eqb a b)))
        else if String.eqb op "<" then Some (boolInt (JSNumber.ltb a b))
        else if String.eqb op ">" then Some (boolInt (JSNumber.ltb b a))
        else if String.eqb op "<=" then Some (boolInt (JSNumber.leb a b))
        else if String.eqb op ">=" then Some (boolInt (JSNumber.leb b a))
        else None
    | _, _ => None
    end.

(** The operator chain of [UnaryExpr] (lines 265-269). *)
Definition unaryOp (op : string) (operand : Value) : option Value :=
  match operand with
  | VInt v =>
      if String.eqb op "-" then Some (VInt (JSNumber.neg v))
      else if String.eqb op "+" then Some (VInt v)
      else None
  | _ => None
  end.

Definition nullFields (ms : list ClassMember) : Env :=
  fold_left (fun fields m =>
               match m with
               | FieldDecl n _ => JSMap.set fields n VNull
               | _ => fields
               end) ms JSMap.empty.

Definition isConstructor (m : ClassMember) : bool :=
  match m with
  | ConstructorDecl _ _ => true
  | _ => false
  end.

(** [evalExpr(e, target)] and [execStmt(s, target)]; [target] is the [target]
    of the frame.  [fuel] bounds the nesting of calls to the two. *)
Fixpoint evalExpr (fuel : nat) (e : Expr) : M Value :=
  match fuel with
  | O => outOfFuel
  | S n =>
      match e with
      | IntLiteral v => ret (VInt v)
      | StringLiteral v => ret (VString v)
      | BoolLiteral v => ret (VBool v)
      | Identifier x =>
          fun fr =>
            match JSMap.get (globals (rt fr)) x with
            | Some v => Ok v fr
            | None => Error ("Unknown identifier " ++ x)
            end
      | NewExpr className _ =>
          fun fr =>
            match JSMap.get (classes (rt fr)) className with
            | None => Error ("Unknown class " ++ className)
            | Some cls =>
                (ref <- alloc (nullFields (members cls)) ;;
                 let obj := VObject className ref in
                 match find isConstructor (members cls) with
                 | Some ctor => ret obj   (* the [if (ctor)] block is empty *)
                 | None => ret obj
                 end) fr
            end
      | FieldAccessExpr o field =>
          ov <- evalExpr n o ;;
          match ov with
          | VObject _ ref => fieldGet ref field
          | VClass cn => ret (VClass cn)
          | _ => throw "Invalid field access on non-object"
          end
      | CallExpr callee args =>
          match callee with
          | Identifier x =>
              if String.eqb x "print" then
                vs <- evalArgs (evalExpr n) args ;;
                consoleLog (map valToString vs) ;;;
                ret VNull
              else throw "Unsupported call form"
          | FieldAccessExpr co methodName =>
              obj <- evalExpr n co ;;
              match obj with
              | VClass cn =>
                  found <- findMethod n cn methodName ;;
                  match found with
                  | None => throw ("Method " ++ methodName ++ " not found on class " ++ cn)
                  | Some method =>
                      vs <- evalArgs (evalExpr n) args ;;
                      fun fr =>
                        let localEnv := JSMap.copy (targetEnv fr) in
                        withTarget (bindParams (params method) vs localEnv)
                                   (execBody (evalExpr n) (execStmt n) (body method)) fr
                  end
              | VObject cn _ =>
                  found <- findMethod n cn methodName ;;
                  match found with
                  | None => throw ("Method " ++ methodName ++ " not found on " ++ cn)
                  | Some method =>
                      vs <- evalArgs (evalExpr n) args ;;
                      fun fr =>
                        let localEnv := JSMap.set (JSMap.copy (targetEnv fr)) "this" obj in
                        withTarget (bindParams (params method) vs localEnv)
                                   (execBody (evalExpr n) (execStmt n) (body method)) fr
                  end
              | _ => throw "Call on non-object/non-class"
              end
          | _ => throw "Unsupported call form"
          end
      | BinaryExpr op l r =>
          lv <- evalExpr n l ;;
          rv <- evalExpr n r ;;
          match binaryOp op lv rv with
          | Some v => ret v
          | None => throw "Unsupported binary op or operand types"
          end
      | UnaryExpr op x =>
          operand <- evalExpr n x ;;
          match unaryOp op operand with
          | Some v => ret v
          | None => throw "Unsupported unary op or operand type"
          end
      | AssignmentExpr tgt v =>
          val <- evalExpr n v ;;
          match tgt with
          | Identifier x => targetSet x val ;;; ret val
          | FieldAccessExpr o field =>
              obj <- evalExpr n o ;;
              match obj with
              | VObject _ ref => fieldSet ref field val ;;; ret val
              | _ => throw "Cannot assign to field of non-object"
              end
          | _ => throw "Invalid assignment target"
          end
      | ThisExpr => throw "Eval not implemented for ThisExpr"
      | SuperExpr _ => throw "Eval not implemented for SuperExpr"
      end
  end

with execStmt (fuel : nat) (s : Stmt) : M bool :=
  match fuel with
  | O => outOfFuel
  | S n =>
      match s with
      | ImportStmt _ _ => ret false
      | VarDecl x _ init =>
          val <- match init with
                 | Some e => evalExpr n e
                 | None => ret VNull
                 end ;;
          targetSet x val ;;;
          ret false
      | ExprStmt e => evalExpr n e ;;; ret false
      | ReturnStmt _ => ret true
      | IfStmt condition thenBody elseBody =>
          cond <- evalExpr n condition ;;
          if isTruthy cond then execBlock (execStmt n) thenBody
          else
            match elseBody with
            | Some stmts => execBlock (execStmt n) stmts
            | None => ret false
            end
      | _ => ret false
      end
  end.

Definition classPairs (program : Program) : list (string * Class) :=
  flat_map (fun s =>
              match s with
              | ClassDecl n sup ms => [(n, mkClass n sup ms)]
              | _ => []
              end) (AST.body program).

(** [new Runtime(program)] *)
Definition new (program : Program) : t :=
  let cs := JSMap.ofList (classPairs program) in
  mkRuntime cs
            (fold_left (fun g entry => JSMap.set g (fst entry) (VClass (fst entry)))
                       (JSMap.entries cs) JSMap.empty)
            false [] [].

(** The loop of [run] (lines 99-102). *)
Fixpoint runLoop (fuel : nat) (stmts : list Stmt) : M unit :=
  match stmts with
  | [] => ret tt
  | s :: rest =>
      execStmt fuel s ;;;
      fun fr => if hasReturned (rt fr) then Ok tt fr else runLoop fuel rest fr
  end.

(** [run(program)] *)
Definition run (fuel : nat) (program : Program) : M unit :=
  runLoop fuel (AST.body program).

(** [console.log] reads its first argument as a format when more arguments
    follow it and it holds a [%]; a call is plain when that is not so. *)
Definition plainLog (args : list string) : bool :=
  match args with
  | first :: _ :: _ => negb (existsb (Ascii.eqb "%") (list_ascii_of_string first))
  | _ => true
  end.

(** What a plain [console.log] call writes: the arguments, separated by
    single spaces, and a newline. *)
Definition logLine (args : list string) : string :=
  String.concat " " args ++ String Lexer.newline "".

End Runtime.

(* ------------------------------------------------------------------ *)
(** ** src/std/stdlib.ts *)

Module Stdlib0x.

Import Lexer.

(** The template literal [standardLibraryC], line by line. *)
Definition standardLibraryC : string :=
  String.concat (String newline "")
    ["";
     "// Standard Library Implementation";
     "";
     "// Math utilities";
     "int std_abs(int n) {";
     "  return n < 0 ? -n : n;";
     "}";
     "";
     "int std_max(int a, int b) {";
     "  return a > b ? a : b;";
     "}";
     "";
     "int std_min(int a, int b) {";
     "  return a < b ? a : b;";
     "}";
     "";
     "// String utilities  ";
     "char* std_concat(char* a, char* b) {";
     "  char* result = malloc(strlen(a) + strlen(b) + 1);";
     "  strcpy(result, a);";
     "  strcat(result, b);";
     "  return result;";
     "}";
     "";
     "char* std_length_str(char* s) {";
     "  // Returns string representation of length";
     "  char* result = malloc(20);";
     ("  sprintf(result, " ++ String dquote ("%lu" ++ String dquote (", strlen(s));")))%string;
     "  return result;";
     "}";
     "";
     "// Array utilities";
     "int std_array_sum(int* arr, int len) {";
     "  int sum = 0;";
     "  for (int i = 0; i < len; i++) {";
     "    sum += arr[i];";
     "  }";
     "  return sum;";
     "}";
     "";
     "int std_array_max(int* arr, int len) {";
     "  if (len == 0) return 0;";
     "  int max = arr[0];";
     "  for (int i = 1; i < len; i++) {";
     "    if (arr[i] > max) max = arr[i];";
     "  }";
     "  return max;";
     "}";
     "";
     "int std_array_min(int* arr, int len) {";
     "  if (len == 0) return 0;";
     "  int min = arr[0];";
     "  for (int i = 1; i < len; i++) {";
     "    if (arr[i] < min) min = arr[i];";
     "  }";
     "  return min;";
     "}";
     ""].

End Stdlib0x.

(* ------------------------------------------------------------------ *)
(** ** src/codegen.ts *)

Module Codegen.

Import Lexer AST.

Local Open Scope string_scope.

(** The [CodeGenerator] object. *)
Record t : Type := mkCodeGenerator {
  code : list string;
  indent : Z
}.

(** [new CodeGenerator()] *)
Definition new : t := mkCodeGenerator [] 0.

(** Outcome of a method: a value and the generator after it, a thrown
    [Error] with its message, or the RangeError of [repeat] with a negative
    count. *)
Inductive Result (A : Type) : Type :=
| Ok (a : A) (g : t)
| Error (msg : string)
| RangeError.

Arguments Ok {A} a g.
Arguments Error {A} msg.
Arguments RangeError {A}.

Definition M (A : Type) : Type := t -> Result A.

Definition ret {A : Type} (a : A) : M A := fun g => Ok a g.

Definition bind {A B : Type} (m : M A) (k : A -> M B) : M B :=
  fun g =>
    match m g with
    | Ok a g' => k a g'
    | Error msg => Error msg
    | RangeError => RangeError
    end.

Notation "x <- m ;; k" := (bind m (fun x => k))
  (at level 61, m at next level, right associativity).
Notation "m ;;; k" := (bind m (fun _ => k))
  (at level 61, right associativity).

(** [s.repeat(n)]; [None] is the RangeError of a negative count. *)
Definition repeat (s : string) (n : Z) : option string :=
  if (n <? 0)%Z then None
  else Some (String.concat "" (List.repeat s (Z.to_nat n))).

(** [emit(line)] *)
Definition emit (line : string) : M unit :=
  fun g =>
    match repeat "  " (indent g) with
    | Some indentStr => Ok tt (mkCodeGenerator (code g ++ [indentStr ++ line]) (indent g))
    | None => RangeError
    end.

(** [this.code.push(line)] *)
Definition push (line : string) : M unit :=
  fun g => Ok tt (mkCodeGenerator (code g ++ [line]) (indent g)).

(** [this.indent++] *)
Definition indentMore : M unit :=
  fun g => Ok tt (mkCodeGenerator (code g) (indent g + 1)).

(** [this.indent--] *)
Definition indentLess : M unit :=
  fun g => Ok tt (mkCodeGenerator (code g) (indent g - 1)).

Section ForEach.

Variable A : Type.
Variable body : A -> M unit.

(** [for (const x of xs) body(x)] *)
Fixpoint forEach (xs : list A) : M unit :=
  match xs with
  | [] => ret tt
  | x :: rest => body x ;;; forEach rest
  end.

End ForEach.

Arguments forEach {A} body xs.

(** [c.toLowerCase()] for a code unit below 256: the capital letters are A
    to Z and 192 to 222 without the multiplication sign 215. *)
Definition lowerChar (c : ascii) : ascii :=
  let n := nat_of_ascii c in
  if ((65 <=? n) && (n <=? 90) || (192 <=? n) && (n <=? 222) && negb (n =? 215))%nat
  then ascii_of_nat (n + 32)
  else c.

(** [s.toLowerCase()] *)
Fixpoint toLowerCase (s : string) : string :=
  match s with
  | EmptyString => EmptyString
  | String c rest => String (lowerChar c) (toLowerCase rest)
  end.

(** [typeNameToCType(typeName)] *)
Definition typeNameToCType (typeName : string) : string :=
  let lower := toLowerCase typeName in
  if String.eqb lower "int" then "int"
  else if String.eqb lower "string" then "char*"
  else if String.eqb lower "bool" then "int"
  else if String.eqb lower "void" then "void"
  else "struct " ++ typeName ++ "*".

(** The replacement of every double quote by a backslash and a double quote
    (line 151). *)
Fixpoint escapeQuotes (s : string) : string :=
  match s with
  | EmptyString => EmptyString
  | String c rest =>
      if Ascii.eqb c dquote then String backslash (String dquote (escapeQuotes rest))
      else String c (escapeQuotes rest)
  end.

(** What [emitExpr] comes to: a text, or a thrown [Error]. *)
Inductive Emitted (A : Type) : Type :=
| Text (a : A)
| Thrown (msg : string).

Arguments Text {A} a.
Arguments Thrown {A} msg.

Section MapEmitted.

Variables A B : Type.
Variable f : A -> Emitted B.

(** [xs.map(f)], where [f] may throw. *)
Fixpoint mapEmitted (xs : list A) : Emitted (list B) :=
  match xs with
  | [] => Text []
  | x :: rest =>
      match f x with
      | Text y =>
          match mapEmitted rest with
          | Text ys => Text (y :: ys)
          | Thrown msg => Thrown msg
          end
      | Thrown msg => Thrown msg
      end
  end.

End MapEmitted.

Arguments mapEmitted {A B} f xs.

(** The format of one argument of [print] (lines 174-179). *)
Definition printFormat (a : Expr) : string :=
  match a with
  | IntLiteral _ | BinaryExpr _ _ _ | UnaryExpr _ _ | CallExpr _ _ => "%d"
  | StringLiteral _ => "%s"
  | Identifier _ => "%d"
  | _ => "%s"
  end.

(** [expr.callee.kind === "Identifier" && expr.callee.name === "print"] *)
Definition isPrint (callee : Expr) : bool :=
  match callee with
  | Identifier name => String.eqb name "print"
  | _ => false
  end.

Definition quote : string := String dquote "".

(** A backslash and the letter n, as the template literals of lines 171 and
    180 hold them. *)
Definition backslashN : string := String backslash "n".

(** [emitExpr(expr)] *)
Fixpoint emitExpr (expr : Expr) : Emitted string :=
  match expr with
  | IntLiteral value => Text (JSNumber.toString value)
  | StringLiteral value => Text (quote ++ escapeQuotes value ++ quote)
  | BoolLiteral value => Text (if value then "1" else "0")
  | Identifier name => Text name
  | BinaryExpr op lhs rhs =>
      match emitExpr lhs with
      | Text l =>
          match emitExpr rhs with
          | Text r =>
              let op' := if String.eqb op "==" then "=="
                         else if String.eqb op "!=" then "!=" else op in
              Text ("(" ++ l ++ " " ++ op' ++ " " ++ r ++ ")")
          | Thrown msg => Thrown msg
          end
      | Thrown msg => Thrown msg
      end
  | UnaryExpr op e =>
      match emitExpr e with
      | Text operand => Text ("(" ++ op ++ operand ++ ")")
      | Thrown msg => Thrown msg
      end
  | CallExpr callee args =>
      if isPrint callee then
        match mapEmitted emitExpr args with
        | Text args' =>
            if (List.length args' =? 0)%nat
            then Text ("printf(" ++ quote ++ backslashN ++ quote ++ ")")
            else
              let formats := map printFormat args in
              Text ("printf(" ++ quote ++ String.concat " " formats ++ backslashN ++ quote
                              ++ ", " ++ String.concat ", " args' ++ ")")
        | Thrown msg => Thrown msg
        end
      else
        match callee with
        | FieldAccessExpr obj method =>
            let objName := match obj with
                           | Identifier name => name
                           | _ => "obj"
                           end in
            match mapEmitted emitExpr args with
            | Text args' =>
                Text (objName ++ "_" ++ method ++ "(" ++ String.concat ", " args' ++ ")")
            | Thrown msg => Thrown msg
            end
        | _ => Thrown "Unsupported call: CallExpr"
        end
  | FieldAccessExpr obj field =>
      match emitExpr obj with
      | Text o => Text (o ++ "." ++ field)
      | Thrown msg => Thrown msg
      end
  | NewExpr className args =>
      match mapEmitted emitExpr args with
      | Text args' => Text (className ++ "_new(" ++ String.concat ", " args' ++ ")")
      | Thrown msg => Thrown msg
      end
  | ThisExpr => Text "this"
  | SuperExpr _ => Text "super"
  | AssignmentExpr target value =>
      match emitExpr target with
      | Text tgt =>
          match emitExpr value with
          | Text v => Text ("(" ++ tgt ++ " = " ++ v ++ ")")
          | Thrown msg => Thrown msg
          end
      | Thrown msg => Thrown msg
      end
  end.

(** [this.emitExpr(expr)] inside a method that goes on with the text. *)
Definition expression (expr : Expr) : M string :=
  fun g =>
    match emitExpr expr with
    | Text s => Ok s g
    | Thrown msg => Error msg
    end.

(** [emitStmt(stmt)]; the loop of [emitBlock(stmts)] is [forEach emitStmt stmts]. *)
Fixpoint emitStmt (stmt : Stmt) : M unit :=
  match stmt with
  | ImportStmt _ _ => ret tt
  | VarDecl name typeName init =>
      let ctype := typeNameToCType typeName in
      match init with
      | Some e =>
          v <- expression e ;;
          emit (ctype ++ " " ++ name ++ " = " ++ v ++ ";")
      | None => emit (ctype ++ " " ++ name ++ ";")
      end
  | ExprStmt e =>
      v <- expression e ;;
      emit (v ++ ";")
  | ReturnStmt expr =>
      match expr with
      | Some e =>
          v <- expression e ;;
          emit ("return " ++ v ++ ";")
      | None => emit "return;"
      end
  | IfStmt condition thenBody elseBody =>
      c <- expression condition ;;
      emit ("if (" ++ c ++ ") {") ;;;
      indentMore ;;;
      forEach emitStmt thenBody ;;;
      indentLess ;;;
      match elseBody with
      | Some stmts =>
          emit "} else {" ;;;
          indentMore ;;;
          forEach emitStmt stmts ;;;
          indentLess
      | None => ret tt
      end ;;;
      emit "}"
  | ClassDecl _ _ _ => ret tt
  | FuncDecl _ _ _ _ => ret tt
  end.

(** [emitBlock(stmts)] *)
Definition emitBlock (stmts : list Stmt) : M unit := forEach emitStmt stmts.

(** [s.kind === "ClassDecl"] *)
Definition isClassDecl (s : Stmt) : bool :=
  match s with
  | ClassDecl _ _ _ => true
  | _ => false
  end.

(** The parameter list of a C function (lines 48-49, 61-62 and 76). *)
Definition cParams (params : list Param) : string :=
  String.concat ", "
    (map (fun p => typeNameToCType (AST.typeName p) ++ " " ++ AST.name p) params).

(** [cls.members.find(m => m.kind === "ConstructorDecl")] *)
Definition findConstructor (members : list ClassMember)
  : option (list Param * list Stmt) :=
  match find (fun m => match m with ConstructorDecl _ _ => true | _ => false end)
             members with
  | Some (ConstructorDecl params body) => Some (params, body)
  | _ => None
  end.

(** Lines 23-25: forward declarations. *)
Definition emitForward (cls : Stmt) : M unit :=
  match cls with
  | ClassDecl name _ _ => emit ("struct " ++ name ++ ";")
  | _ => ret tt
  end.

(** Lines 29-41: struct definitions. *)
Definition emitStruct (cls : Stmt) : M unit :=
  match cls with
  | ClassDecl name _ members =>
      emit ("struct " ++ name ++ " {") ;;;
      indentMore ;;;
      forEach (fun member =>
        match member with
        | FieldDecl fname typeName =>
            let ctype := typeNameToCType typeName in
            emit (ctype ++ " " ++ fname ++ ";")
        | _ => ret tt
        end) members ;;;
      indentLess ;;;
      emit "};" ;;;
      emit ""
  | _ => ret tt
  end.

(** Lines 44-53: method forward declarations. *)
Definition emitPrototypes (cls : Stmt) : M unit :=
  match cls with
  | ClassDecl name _ members =>
      forEach (fun member =>
        match member with
        | MethodDecl mname params returnType _ =>
            let retType := typeNameToCType returnType in
            emit (retType ++ " " ++ name ++ "_" ++ mname ++ "(" ++ cParams params ++ ");")
        | _ => ret tt
        end) members
  | _ => ret tt
  end.

(** Lines 57-71: method implementations. *)
Definition emitMethods (cls : Stmt) : M unit :=
  match cls with
  | ClassDecl name _ members =>
      forEach (fun member =>
        match member with
        | MethodDecl mname params returnType body =>
            let retType := typeNameToCType returnType in
            emit (retType ++ " " ++ name ++ "_" ++ mname ++ "(" ++ cParams params ++ ") {") ;;;
            indentMore ;;;
            emitBlock body ;;;
            indentLess ;;;
            emit "}" ;;;
            emit ""
        | _ => ret tt
        end) members
  | _ => ret tt
  end.

(** Lines 74-87: constructors. *)
Definition emitConstructor (cls : Stmt) : M unit :=
  match cls with
  | ClassDecl name _ members =>
      let ctor := findConstructor members in
      let params := cParams (match ctor with
                             | Some (ps, _) => ps
                             | None => []
                             end) in
      emit ("struct " ++ name ++ "* " ++ name ++ "_new(" ++ params ++ ") {") ;;;
      indentMore ;;;
      emit ("struct " ++ name ++ "* obj = malloc(sizeof(struct " ++ name ++ "));") ;;;
      match ctor with
      | Some (_, body) => emitBlock body
      | None => ret tt
      end ;;;
      emit "return obj;" ;;;
      indentLess ;;;
      emit "}" ;;;
      emit ""
  | _ => ret tt
  end.

(** Lines 92-98: the statements of [main]. *)
Definition emitMainStmt (stmt : Stmt) : M unit :=
  match stmt with
  | VarDecl _ _ _ => emitStmt stmt
  | ExprStmt _ => emitStmt stmt
  | _ => ret tt
  end.

(** [generate(program)] *)
Definition generate (program : Program) : M string :=
  emit "#include <stdio.h>" ;;;
  emit "#include <stdlib.h>" ;;;
  emit "#include <string.h>" ;;;
  emit "" ;;;
  push Stdlib0x.standardLibraryC ;;;
  emit "" ;;;
  let classes := filter isClassDecl (body program) in
  forEach emitForward classes ;;;
  emit "" ;;;
  forEach emitStruct classes ;;;
  forEach emitPrototypes classes ;;;
  emit "" ;;;
  forEach emitMethods classes ;;;
  forEach emitConstructor classes ;;;
  emit "int main() {" ;;;
  indentMore ;;;
  forEach emitMainStmt (body program) ;;;
  emit "return 0;" ;;;
  indentLess ;;;
  emit "}" ;;;
  fun g => Ok (String.concat (String newline "") (code g)) g.

End Codegen.

(* ------------------------------------------------------------------ *)
(** ** src/main.ts, interpret mode *)

Module Main.

Inductive Outcome : Type :=
| ParseFailed (e : Parser.CompileError)
| TypeErrors (errors : list string)
| RuntimeError (msg : string) 
| Ran (r : Runtime.t)
| Stuck.

(** The [try] block of [main.ts] in [run] mode on the text [src];
    [stdlibBodies] is what the standard-library files found on disk parse to
    (nothing when there are none). *)
Definition interpret (fuel : nat) (stdlibBodies : list AST.Stmt) (src : string)
  : Outcome :=
  match Parser.parse src with
  | Parser.Ok prog _ =>
      let prog := AST.mkProgram (stdlibBodies ++ AST.body prog) in
      let tc := TypeCheck.check TypeCheck.new prog in
      match TypeCheck.errors tc with
      | [] =>
          match Runtime.run fuel prog (Runtime.mkFrame Runtime.Globals (Runtime.new prog)) with
          | Runtime.Ok _ fr => Ran (Runtime.rt fr)
          | Runtime.Error msg => RuntimeError msg
          | Runtime.OutOfFuel => Stuck
          end
      | errs => TypeErrors errs
      end
  | Parser.Throw e => ParseFailed e
  | _ => Stuck
  end.

(** The text written to standard output by a run that ended without error
    and made plain [console.log] calls only. *)
Definition output (o : Outcome) : option string :=
  match o with
  | Ran r =>
      if forallb Runtime.plainLog (Runtime.stdout r)
      then Some (String.concat "" (map Runtime.logLine (Runtime.stdout r)))
      else None
  | _ => None
  end.

End Main.

(* ------------------------------------------------------------------ *)
(** ** Notions the properties are stated with *)

Module Notions.

Import Lexer.

(** Line and column, both 1-based, of the character at index [i] of [input]:
    a line feed ends a line, every other character is one column wide. *)
Fixpoint positionFrom (input : string) (i : nat) (line column : Z) : Z * Z :=
  match i, input with
  | O, _ => (line, column)
  | S i', String c rest =>
      if Ascii.eqb c newline then positionFrom rest i' (line + 1) 1
      else positionFrom rest i' line (column + 1)
  | S _, EmptyString => (line, column)
  end.

Definition positionOf (input : string) (i : nat) : Z * Z := positionFrom input i 1 1.

Definition isEof (tk : Token) : bool :=
  match tk with
  | Eof _ _ => true
  | Tok _ _ _ _ => false
  end.

Definition chars (s : string) : list ascii := list_ascii_of_string s.

Definition startsWith (p : ascii -> bool) (s : string) : bool :=
  match s with
  | String c _ => p c
  | EmptyString => false
  end.

(** What the lexer's branches make of each kind of token: a number is a
    non-empty run of digits; a keyword is in the keyword set; an identifier
    starts with a letter or underscore, goes on with letters, digits and
    underscores, and is no keyword; a symbol is one of the two-character
    symbols or one character that is no white space, digit, quote, letter or
    underscore. *)
Definition wellFormed (tk : Token) : bool :=
  match tk with
  | Tok num v _ _ => startsWith isDigit v && forallb isDigit (chars v)
  | Tok kw v _ _ => includes keywords v
  | Tok ident v _ _ =>
      startsWith isIdentStart v && forallb isIdentPart (chars v)
      && negb (includes keywords v)
  | Tok sym v _ _ =>
      includes twoCharSymbols v
      || match v with
         | String c EmptyString =>
             negb (isSpace c) && negb (isDigit c) && negb (isIdentStart c)
             && negb (Ascii.eqb c dquote || Ascii.eqb c squote)
         | _ => false
         end
  | Tok str _ _ _ => true
  | Eof _ _ => true
  end.

Definition isQuote (c : ascii) : bool := Ascii.eqb c dquote || Ascii.eqb c squote.

(** The text holds no quote character, so no string literal. *)
Definition quoteFree (input : string) : bool :=
  forallb (fun c => negb (isQuote c)) (chars input).

(** The token's value is the text of [input] at some index [i], and the line
    and column the token records are those of the character at [i]. *)
Definition placed (input : string) (tk : Token) : Prop :=
  match tk with
  | Tok _ v l c =>
      exists i, i < String.length input /\
                positionOf input i = (l, c) /\
                substring i (String.length v) input = v
  | Eof _ _ => True
  end.

(** The lexer's [line] is that of index [i], and so is its [column] unless
    [i] is on a line feed or past the end, where a comment has just ended. *)
Definition tracked (input : string) (i : nat) (line column : Z) : Prop :=
  fst (positionOf input i) = line /\
  (snd (positionOf input i) = column \/
   String.get i input = Some newline \/ String.get i input = None).

(** The source text of scenario S7: [let s: String = ], a double quote, [hi]. *)
Definition unterminated : string := "let s: String = " ++ String dquote "hi".

(** A string literal, a space, an identifier: a double quote, [ab], a double
    quote, a space, [x]. *)
Definition afterString : string := String dquote ("ab" ++ String dquote " x").

(** A string literal with a line feed in it, a space, an identifier: a double
    quote, [a], a line feed, [b], a double quote, a space, [x]. *)
Definition afterTwoLineString : string :=
  String dquote ("a" ++ String newline ("b" ++ String dquote " x")).

(** The parser on the tokens of [1 + 2 * 3], before the first of them. *)
Definition onePlusTwoTimesThree : Parser.t :=
  Parser.mkParser [Tok num "1" 1 1; Tok sym "+" 1 3; Tok num "2" 1 5; Tok sym "*" 1 7;
                   Tok num "3" 1 9; Eof 1 10] 0 "1 + 2 * 3".

(** *** What an error report shows *)

(** The text [v] holds no line feed. *)
Definition noNewline (v : string) : bool :=
  forallb (fun c => negb (Ascii.eqb c newline)) (chars v).

Definition isStr (tk : Token) : bool :=
  match tk with
  | Tok str _ _ _ => true
  | _ => false
  end.

(** Line and column of the token are 1 or more. *)
Definition positive (tk : Token) : Prop := (1 <= line tk /\ 1 <= column tk)%Z.

(** [n] spaces. *)
Definition blanks (n : nat) : string := string_of_list_ascii (List.repeat " "%char n).

(** The first line of a report for line [l], column [c]. *)
Definition reportHead (l c : Z) : string :=
  ("error at line " ++ Errors.num l ++ ", column " ++ Errors.num c ++ ":")%string.

(** Two declarations on two lines, the second without the type of [x]:
    [let a: int = 1;], a line feed, [let x = 2]. *)
Definition missingType : string :=
  ("let a: int = 1;" ++ String newline "let x = 2")%string.

(** The error the parser throws on [missingType]. *)
Definition missingTypeError : Parser.CompileError :=
  Parser.mkCompileError "Expected ':', but got '='" (2, 7)%Z missingType.

(** The line of a report that shows the source line [problemLine] after its
    number [l]. *)
Definition excerptLine (l : Z) (problemLine : string) : string :=
  ("  " ++ Errors.num l ++ " | " ++ problemLine)%string.

(** The line of a report that holds the caret for column [c]. *)
Definition caretLine (c : Z) : string :=
  ("    | " ++ blanks (Z.to_nat (c - 1)) ++ "^")%string.

(** A report with the excerpt: the head, the source line, the caret, and the
    message. *)
Definition reportWithExcerpt (l c : Z) (problemLine msg : string) : string :=
  Errors.join (String newline "")
              [reportHead l c; excerptLine l problemLine; caretLine c;
               ("  " ++ msg)%string].

(** A report without the excerpt. *)
Definition reportWithoutExcerpt (l c : Z) (msg : string) : string :=
  Errors.join (String newline "") [reportHead l c; ("  " ++ msg)%string].

(** [b] is met on the chain of [superName] links that starts at [cur]: the
    chain goes on from a class name that is not the empty string to the
    [superName] of the class table's entry for it. *)
Inductive Reaches (tc : TypeCheck.t) (b : string) : option string -> Prop :=
| Reaches_here (c : string) :
    c <> "" -> c = b -> Reaches tc b (Some c)
| Reaches_next (c : string) :
    c <> "" -> c <> b -> Reaches tc b (TypeCheck.superOf tc c) -> Reaches tc b (Some c).

(** The chain of [superName] links that starts at [cur] ends, on a missing or
    empty name, without meeting [b]. *)
Inductive Ends (tc : TypeCheck.t) (b : string) : option string -> Prop :=
| Ends_undefined : Ends tc b None
| Ends_empty : Ends tc b (Some "")
| Ends_next (c : string) :
    c <> "" -> c <> b -> Ends tc b (TypeCheck.superOf tc c) -> Ends tc b (Some c).

(** The statement [s] declares a class named [c]. *)
Definition declares (c : string) (s : AST.Stmt) : bool :=
  match s with
  | AST.ClassDecl n _ _ => String.eqb n c
  | _ => false
  end.

(** The names of the classes [stmts] declare, in order, with repeats. *)
Definition classNames (stmts : list AST.Stmt) : list string :=
  flat_map (fun s => match s with
                     | AST.ClassDecl n _ _ => [n]
                     | _ => []
                     end) stmts.

(** Name and super class of each class declaration of [stmts]. *)
Definition declHeaders (stmts : list AST.Stmt) : list (string * option string) :=
  flat_map (fun s => match s with
                     | AST.ClassDecl n sup _ => [(n, sup)]
                     | _ => []
                     end) stmts.

(** Name and super class of each entry of a class table. *)
Definition headers (m : JSMap.t TypeCheck.ClassInfo) : list (string * option string) :=
  map (fun e => (fst e, TypeCheck.superName (snd e))) m.

(** A super class that is named, and not by the empty string, is declared. *)
Definition superDeclared (names : list string) (h : string * option string) : Prop :=
  match snd h with
  | Some sup => sup <> "" -> In sup names
  | None => True
  end.

(** The types of the top-level variables are built-in names, in one of the
    eight spellings, or declared classes. *)
Definition variableTyped (names : list string) (s : AST.Stmt) : Prop :=
  match s with
  | AST.VarDecl _ ty _ =>
      In ty ["int"; "Int"; "string"; "String"; "bool"; "Bool"; "void"; "Void"]
      \/ In ty names
  | _ => True
  end.

(** What [check] asks of a program: no class name declared twice, every
    named super class declared, every top-level variable of a known type. *)
Definition WellDeclared (program : AST.Program) : Prop :=
  let names := classNames (AST.body program) in
  NoDup names /\
  Forall (superDeclared names) (declHeaders (AST.body program)) /\
  Forall (variableTyped names) (AST.body program).

(** The eight spellings [typeExists] lists. *)
Definition builtinTypeNames : list string :=
  ["int"; "Int"; "string"; "String"; "bool"; "Bool"; "void"; "Void"].

(** The program [class A {} class B extends A {} let v: INT]. *)
Definition twoClasses : AST.Program :=
  AST.mkProgram [AST.ClassDecl "A" None []; AST.ClassDecl "B" (Some "A") [];
                 AST.VarDecl "v" "INT" None].

(** The program [class A {} class B extends A {} class C extends B {}]. *)
Definition threeClasses : AST.Program :=
  AST.mkProgram [AST.ClassDecl "A" None []; AST.ClassDecl "B" (Some "A") [];
                 AST.ClassDecl "C" (Some "B") []].

(** The program [class A { f(x: int, y: int): int { return 0; } } let y: int = 7]. *)
Definition globalNamedLikeParam : AST.Program :=
  AST.mkProgram
    [AST.ClassDecl "A" None
       [AST.MethodDecl "f" [AST.mkParam "x" "int"; AST.mkParam "y" "int"] "int"
          [AST.ReturnStmt (Some (AST.IntLiteral (JSNumber.Fin 0)))]];
     AST.VarDecl "y" "int" (Some (AST.IntLiteral (JSNumber.Fin 7)))].

(** The runtime once [globalNamedLikeParam] has run. *)
Definition globalNamedLikeParamRun : Runtime.t :=
  match Runtime.run 3 globalNamedLikeParam
                    (Runtime.mkFrame Runtime.Globals (Runtime.new globalNamedLikeParam)) with
  | Runtime.Ok _ fr => Runtime.rt fr
  | _ => Runtime.new globalNamedLikeParam
  end.

(** The call [A.f(1)]. *)
Definition callWithOneArgument : AST.Expr :=
  AST.CallExpr (AST.FieldAccessExpr (AST.Identifier "A") "f")
               [AST.IntLiteral (JSNumber.Fin 1)].

(** What the parameter loop does to [localEnv]: one [set] for each pair of
    a parameter and an argument at the same index. *)
Definition setParams (pairs : list (AST.Param * Runtime.Value)) (env : Runtime.Env)
  : Runtime.Env :=
  fold_left (fun e pv => JSMap.set e (AST.name (fst pv)) (snd pv)) pairs env.

(** Starting at the parser [p], which stands after an operand, the tokens are
    the operators and the operands [ops], one after the other, each operand
    as [operand] reads it, and the parser after them is [p']. *)
Inductive Operands (operand : Parser.P AST.Expr)
  : Parser.t -> list (string * AST.Expr) -> Parser.t -> Prop :=
| Operands_none (p : Parser.t) : Operands operand p [] p
| Operands_more (p p1 p2 : Parser.t) (op : string) (l c : Z) (right : AST.Expr)
                (rest : list (string * AST.Expr)) :
    Parser.peek p = Parser.Ok (Tok sym op l c) p ->
    In op Parser.binaryOperators ->
    operand (Parser.advance p) = Parser.Ok right p1 ->
    Operands operand p1 rest p2 ->
    Operands operand p ((op, right) :: rest) p2.

(** The tree of a chain of operators, grouped from the left. *)
Definition leftAssoc (first : AST.Expr) (ops : list (string * AST.Expr)) : AST.Expr :=
  fold_left (fun l opr => AST.BinaryExpr (fst opr) l (snd opr)) ops first.

(** *** What parsing keeps *)

(** The tokens end with an [eof] token and [pos] is the index of a token. *)
Definition Ready (p : Parser.t) : Prop :=
  (exists front l c, Parser.tokens p = front ++ [Eof l c]) /\
  Parser.pos p < List.length (Parser.tokens p).

(** What a parsing method may come to from a ready parser [p]: a value, with
    the same tokens and text and [pos] not before where it was and still the
    index of a token; or a [CompileError] that carries the text and the line
    and column of a token at or after [pos]; or no fuel; never a read past
    the end of the tokens. *)
Definition Allowed {A : Type} (p : Parser.t) (r : Parser.Result A) : Prop :=
  match r with
  | Parser.Ok _ p' =>
      Parser.tokens p' = Parser.tokens p /\ Parser.src p' = Parser.src p /\
      Parser.pos p <= Parser.pos p' /\
      Parser.pos p' < List.length (Parser.tokens p)
  | Parser.Throw e =>
      Parser.source e = Parser.src p /\
      exists i tk, Parser.pos p <= i /\
                   nth_error (Parser.tokens p) i = Some tk /\
                   Parser.location e = (Lexer.line tk, Lexer.column tk)
  | Parser.TypeError => False
  | Parser.OutOfFuel => True
  end.

Definition Safe {A : Type} (m : Parser.P A) : Prop :=
  forall p, Ready p -> Allowed p (m p).

(** [Safe], for the parsers that stand on the token [tk]. *)
Definition SafeAt {A : Type} (tk : Token) (m : Parser.P A) : Prop :=
  forall p, Ready p -> nth_error (Parser.tokens p) (Parser.pos p) = Some tk ->
            Allowed p (m p).

(** The classes [skipped] and then [d] are met, in this order, on the chain
    of [superName] links that starts at the class [start]. *)
Inductive Path (cs : JSMap.t Runtime.Class)
  : option Runtime.Class -> list Runtime.Class -> Runtime.Class -> Prop :=
| Path_here (c : Runtime.Class) : Path cs (Some c) [] c
| Path_next (c : Runtime.Class) (sup : string) (skipped : list Runtime.Class)
            (d : Runtime.Class) :
    Runtime.superName c = Some sup -> sup <> "" ->
    Path cs (JSMap.get cs sup) skipped d ->
    Path cs (Some c) (c :: skipped) d.

(** The class [c] declares a method named [m]. *)
Definition declaresMethod (m : string) (c : Runtime.Class) : Prop :=
  exists ps r b, In (AST.MethodDecl m ps r b) (Runtime.members c).

(** What [o.fields.get(f) ?? null] reads from the object at [ref]. *)
Definition readField (r : Runtime.t) (ref : nat) (f : string) : Runtime.Value :=
  match nth_error (Runtime.heap r) ref with
  | Some fields =>
      match JSMap.get fields f with
      | Some v => v
      | None => Runtime.VNull
      end
  | None => Runtime.VNull
  end.

(** The last declaration of a class named [n] among [stmts]. *)
Fixpoint lastClass (n : string) (stmts : list AST.Stmt) : option Runtime.Class :=
  match stmts with
  | [] => None
  | s :: rest =>
      match lastClass n rest with
      | Some c => Some c
      | None =>
          match s with
          | AST.ClassDecl n' sup ms =>
              if String.eqb n' n then Some (Runtime.mkClass n' sup ms) else None
          | _ => None
          end
      end
  end.

(** The program [class P { x: int } let a: P = new P()]. *)
Definition oneObject : AST.Program :=
  AST.mkProgram
    [AST.ClassDecl "P" None [AST.FieldDecl "x" "int"];
     AST.VarDecl "a" "P" (Some (AST.NewExpr "P" []))].

(** The runtime once [oneObject] has run. *)
Definition oneObjectRun : Runtime.t :=
  match Runtime.run 3 oneObject
                    (Runtime.mkFrame Runtime.Globals (Runtime.new oneObject)) with
  | Runtime.Ok _ fr => Runtime.rt fr
  | _ => Runtime.new oneObject
  end.

(** The six comparison operators. *)
Definition comparisonOperators : list string := ["=="; "!="; "<"; ">"; "<="; ">="].

(** [run]'s loop without its [if (this.hasReturned) break]. *)
Fixpoint execAll (fuel : nat) (stmts : list AST.Stmt) : Runtime.M unit :=
  match stmts with
  | [] => Runtime.ret tt
  | s :: rest => Runtime.bind (Runtime.execStmt fuel s) (fun _ => execAll fuel rest)
  end.

(** *** What the code generator emits *)

Definition isFieldAccess (e : AST.Expr) : bool :=
  match e with
  | AST.FieldAccessExpr _ _ => true
  | _ => false
  end.

(** Every call that is emitted with the expression is a call of [print] or
    of a field.  The object of a called field is not emitted, so it is not
    looked at. *)
Fixpoint emittable (e : AST.Expr) : bool :=
  match e with
  | AST.BinaryExpr _ l r => emittable l && emittable r
  | AST.UnaryExpr _ x => emittable x
  | AST.CallExpr callee args =>
      (Codegen.isPrint callee || isFieldAccess callee) && forallb emittable args
  | AST.NewExpr _ args => forallb emittable args
  | AST.FieldAccessExpr o _ => emittable o
  | AST.AssignmentExpr t v => emittable t && emittable v
  | _ => true
  end.

(** The expressions of a statement that [emitStmt] emits: initial values,
    expression statements, returned values, conditions, and those of the
    statements of both branches of an [if]. *)
Fixpoint stmtExprs (s : AST.Stmt) : list AST.Expr :=
  match s with
  | AST.VarDecl _ _ (Some e) => [e]
  | AST.ExprStmt e => [e]
  | AST.ReturnStmt (Some e) => [e]
  | AST.IfStmt c thenBody elseBody =>
      c :: flat_map stmtExprs thenBody
        ++ match elseBody with
           | Some stmts => flat_map stmtExprs stmts
           | None => []
           end
  | _ => []
  end.

(** The expressions in the bodies of the methods of a class. *)
Definition methodExprs (cls : AST.Stmt) : list AST.Expr :=
  match cls with
  | AST.ClassDecl _ _ members =>
      flat_map (fun m => match m with
                         | AST.MethodDecl _ _ _ body => flat_map stmtExprs body
                         | _ => []
                         end) members
  | _ => []
  end.

(** The expressions in the body of the first constructor of a class. *)
Definition constructorExprs (cls : AST.Stmt) : list AST.Expr :=
  match cls with
  | AST.ClassDecl _ _ members =>
      match Codegen.findConstructor members with
      | Some (_, body) => flat_map stmtExprs body
      | None => []
      end
  | _ => []
  end.

(** The expressions of a top-level variable declaration or expression
    statement. *)
Definition mainExprs (s : AST.Stmt) : list AST.Expr :=
  match s with
  | AST.VarDecl _ _ _ => stmtExprs s
  | AST.ExprStmt _ => stmtExprs s
  | _ => []
  end.

(** All the expressions [generate] emits for a program. *)
Definition generatedExprs (program : AST.Program) : list AST.Expr :=
  let classes := filter Codegen.isClassDecl (AST.body program) in
  flat_map methodExprs classes ++ flat_map constructorExprs classes
    ++ flat_map mainExprs (AST.body program).

(** The line begins with two spaces for each of [n] levels. *)
Definition indentedBy (n : Z) (line : string) : Prop :=
  exists rest, line = (blanks (2 * Z.to_nat n) ++ rest)%string.

(** What a method of the generator does when it emits the expressions [es],
    from a generator whose [indent] is not negative: when all of them are
    emittable it returns, with [indent] as it was and [code] longer by lines
    that are indented by [indent] or more; otherwise it throws
    [Unsupported call: CallExpr]. *)
Definition Emits {A : Type} (m : Codegen.M A) (es : list AST.Expr) : Prop :=
  forall g,
    (0 <= Codegen.indent g)%Z ->
    if forallb emittable es
    then exists a g' lines,
        m g = Codegen.Ok a g' /\
        Codegen.indent g' = Codegen.indent g /\
        Codegen.code g' = Codegen.code g ++ lines /\
        Forall (indentedBy (Codegen.indent g)) lines
    else m g = Codegen.Error "Unsupported call: CallExpr".

(** What [emitExpr] comes to, by [emittable]. *)
Definition emitted (e : AST.Expr) : Prop :=
  match Codegen.emitExpr e with
  | Codegen.Text _ => emittable e = true
  | Codegen.Thrown msg => emittable e = false /\ msg = "Unsupported call: CallExpr"
  end.

(** [Emits], one level inside: from a generator whose [indent] is 1 or more,
    a method that ends one level out. *)
Definition EmitsInside {A : Type} (m : Codegen.M A) (es : list AST.Expr) : Prop :=
  forall g,
    (1 <= Codegen.indent g)%Z ->
    if forallb emittable es
    then exists a g' lines,
        m g = Codegen.Ok a g' /\
        Codegen.indent g' = (Codegen.indent g - 1)%Z /\
        Codegen.code g' = Codegen.code g ++ lines /\
        Forall (indentedBy (Codegen.indent g - 1)) lines
    else m g = Codegen.Error "Unsupported call: CallExpr".

(** The statement [if (a) { return a + 1; } else { print(a); }]. *)
Definition sampleIf : AST.Stmt :=
  AST.IfStmt (AST.Identifier "a")
             [AST.ReturnStmt (Some (AST.BinaryExpr "+" (AST.Identifier "a")
                                                   (AST.IntLiteral (JSNumber.Fin 1))))]
             (Some [AST.ExprStmt (AST.CallExpr (AST.Identifier "print")
                                               [AST.Identifier "a"])]).

(** *** What evaluation keeps *)

Definition sameKind (a b : Runtime.Target) : Prop :=
  match a, b with
  | Runtime.Globals, Runtime.Globals => True
  | Runtime.Local _, Runtime.Local _ => True
  | _, _ => False
  end.

Definition isLocal (a : Runtime.Target) : Prop :=
  match a with
  | Runtime.Local _ => True
  | Runtime.Globals => False
  end.

(** The frame [fr'] comes after [fr]: the class table and [hasReturned] are
    the same, [console.log]'s record and the heap have only grown, no global
    has gone, each frame's [target] is of the same kind, and when that is a
    method's own map the globals are the same. *)
Record Extends (fr fr' : Runtime.Frame) : Prop := mkExtends {
  ext_classes : Runtime.classes (Runtime.rt fr') = Runtime.classes (Runtime.rt fr);
  ext_hasReturned :
    Runtime.hasReturned (Runtime.rt fr') = Runtime.hasReturned (Runtime.rt fr);
  ext_stdout :
    exists more,
      Runtime.stdout (Runtime.rt fr') = Runtime.stdout (Runtime.rt fr) ++ more;
  ext_heap :
    List.length (Runtime.heap (Runtime.rt fr))
    <= List.length (Runtime.heap (Runtime.rt fr'));
  ext_has :
    forall k, JSMap.has (Runtime.globals (Runtime.rt fr)) k = true ->
              JSMap.has (Runtime.globals (Runtime.rt fr')) k = true;
  ext_target : sameKind (Runtime.target fr) (Runtime.target fr');
  ext_globals :
    isLocal (Runtime.target fr) ->
    Runtime.globals (Runtime.rt fr') = Runtime.globals (Runtime.rt fr)
}.

(** Every successful run of [m] ends in a frame that comes after its first. *)
Definition Monotone {A : Type} (m : Runtime.M A) : Prop :=
  forall fr a fr', m fr = Runtime.Ok a fr' -> Extends fr fr'.

End Notions.

(* ================================================================== *)
(** * Properties *)

(* ------------------------------------------------------------------ *)
(** ** Maps *)

Module JSMapFacts.

Import JSMap.

Lemma get_set_same {V : Type} (m : t V) (k : string) (v : V) :
  get (set m k v) k = Some v.
Proof.
  induction m as [|[k' v'] m IH]; simpl.
  - now rewrite String.eqb_refl.
  - destruct (String.eqb k' k) eqn:E; simpl.
    + now rewrite String.eqb_refl.
    + now rewrite E.
Qed.

Lemma get_set_other {V : Type} (m : t V) (k k0 : string) (v : V) :
  k <> k0 -> get (set m k v) k0 = get m k0.
Proof.
  intros Hne.
  induction m as [|[k' v'] m IH]; simpl.
  - destruct (String.eqb k k0) eqn:E; [apply String.eqb_eq in E; contradiction | reflexivity].
  - destruct (String.eqb k' k) eqn:E; simpl.
    + apply String.eqb_eq in E; subst k'.
      destruct (String.eqb k k0) eqn:E0; [apply String.eqb_eq in E0; contradiction | reflexivity].
    + destruct (String.eqb k' k0); [reflexivity | exact IH].
Qed.

Lemma has_set_same {V : Type} (m : t V) (k : string) (v : V) :
  has (set m k v) k = true.
Proof. unfold has. now rewrite get_set_same. Qed.

Lemma has_set {V : Type} (m : t V) (k k0 : string) (v : V) :
  has (set m k v) k0 = String.eqb k k0 || has m k0.
Proof.
  destruct (String.eqb k k0) eqn:E.
  - apply String.eqb_eq in E; subst. now rewrite has_set_same.
  - apply String.eqb_neq in E. unfold has. now rewrite get_set_other.
Qed.

End JSMapFacts.

(* ------------------------------------------------------------------ *)
(** ** The lexer *)

Module LexerFacts.

Import Lexer.

Lemma get_lt (s : string) : forall i c, String.get i s = Some c -> i < String.length s.
Proof.
  induction s as [|a s IH]; intros [|i] c H; simpl in *; try discriminate; try lia.
  apply IH in H. lia.
Qed.

Lemma get_none_succ (s : string) : forall i, String.get i s = None -> String.get (S i) s = None.
Proof.
  induction s as [|a s IH]; intros [|i] H; simpl in *; try discriminate; auto.
Qed.

Lemma scanWhile_ge (p : ascii -> bool) (input : string) :
  forall fuel j, j <= scanWhile p input fuel j.
Proof.
  induction fuel as [|fuel IH]; intros j; simpl; [lia|].
  destruct (String.get j input) as [c|]; [|lia].
  destruct (p c); [|lia].
  specialize (IH (S j)). lia.
Qed.

(** A scan that starts on a character it accepts moves on. *)
Lemma scanWhile_gt (p : ascii -> bool) (input : string) (i : nat) (c : ascii) :
  String.get i input = Some c -> p c = true ->
  i < scanWhile p input (String.length input - i) i.
Proof.
  intros Hget Hp.
  pose proof (get_lt _ _ _ Hget) as Hlt.
  destruct (String.length input - i) as [|f] eqn:E; [lia|].
  simpl. rewrite Hget, Hp.
  pose proof (scanWhile_ge p input f (S i)). lia.
Qed.

Lemma scanString_ge (q : ascii) (input : string) :
  forall fuel j s, j <= fst (scanString q input fuel j s).
Proof.
  induction fuel as [|fuel IH]; intros j s; simpl; [lia|].
  destruct (String.get j input) as [c|]; simpl; [|lia].
  destruct (Ascii.eqb c q); simpl; [lia|].
  destruct (Ascii.eqb c backslash).
  - destruct (String.get (S j) input); simpl; [|lia].
    specialize (IH (S (S j)) (s ++ String a "")%string). lia.
  - specialize (IH (S j) (s ++ String c "")%string). lia.
Qed.

(** With [String.length input - j] fuel the scan ends as the source's loop
    does: at the end of the input or on a character [p] rejects. *)
Lemma scanWhile_stops (p : ascii -> bool) (input : string) :
  forall fuel j,
    String.length input - j <= fuel ->
    match String.get (scanWhile p input fuel j) input with
    | Some c => p c = false
    | None => True
    end.
Proof.
  induction fuel as [|fuel IH]; intros j Hfuel; simpl.
  - destruct (String.get j input) as [c|] eqn:E; [|exact I].
    apply get_lt in E. lia.
  - destruct (String.get j input) as [c|] eqn:E; [|now rewrite E].
    destruct (p c) eqn:Hp; [|now rewrite E].
    apply IH. lia.
Qed.

(** With [String.length input - j] fuel the scan of a literal's body ends
    as the source's loop does: at the end of the input or on the quote. *)
Lemma scanString_stops (q : ascii) (input : string) :
  forall fuel j s,
    String.length input - j <= fuel ->
    match String.get (fst (scanString q input fuel j s)) input with
    | Some c => c = q
    | None => True
    end.
Proof.
  induction fuel as [|fuel IH]; intros j s Hfuel; simpl.
  - destruct (String.get j input) as [c|] eqn:E; [|exact I].
    apply get_lt in E. lia.
  - destruct (String.get j input) as [c|] eqn:E; simpl; [|now rewrite E].
    destruct (Ascii.eqb c q) eqn:Hq; simpl.
    + rewrite E. now apply Ascii.eqb_eq.
    + destruct (Ascii.eqb c backslash).
      * destruct (String.get (S j) input) as [d|] eqn:E'; simpl; [|now rewrite E'].
        apply IH. lia.
      * apply IH. lia.
Qed.

Lemma lexLoop_unfold (fuel : nat) (input : string) (i : nat) (line column : Z)
      (tokens : list Token) :
  lexLoop (S fuel) input i line column tokens =
  let len := String.length input in
  match String.get i input with
  | None => Some (tokens ++ [Eof line column])
  | Some ch =>
      if isSpace ch then
        if Ascii.eqb ch newline
        then lexLoop fuel input (S i) (line + 1) 1 tokens
        else lexLoop fuel input (S i) line (column + 1) tokens
      else if Ascii.eqb ch "/" &&
              match String.get (S i) input with
              | Some c => Ascii.eqb c "/"
              | None => false
              end then
        let i' := scanWhile (fun c => negb (Ascii.eqb c newline)) input (len - i) i in
        lexLoop fuel input i' line column tokens
      else if isDigit ch then
        let j := scanWhile isDigit input (len - i) i in
        lexLoop fuel input j line (column + (Z.of_nat j - Z.of_nat i))
                (tokens ++ [Tok num (slice input i j) line column])
      else if Ascii.eqb ch dquote || Ascii.eqb ch squote then
        let '(j, s) := scanString ch input (len - i) (S i) "" in
        lexLoop fuel input (S j) line
                (column + (Z.of_nat (S j) - (Z.of_nat j - Z.of_nat (String.length s))))
                (tokens ++ [Tok str s line column])
      else if isIdentStart ch then
        let j := scanWhile isIdentPart input (len - i) i in
        let word := slice input i j in
        lexLoop fuel input j line (column + (Z.of_nat j - Z.of_nat i))
                (tokens ++ [Tok (if includes keywords word then kw else ident)
                                word line column])
      else
        let two := slice input i (i + 2) in
        if includes twoCharSymbols two then
          lexLoop fuel input (i + 2) line (column + 2)
                  (tokens ++ [Tok sym two line column])
        else
          lexLoop fuel input (S i) line (column + 1)
                  (tokens ++ [Tok sym (String ch "") line column])
  end.
Proof. reflexivity. Qed.

(** Every iteration of the main loop moves [i] forward, so the loop ends
    within [String.length input - i] iterations. *)
Lemma lexLoop_total (input : string) :
  forall fuel i line column tokens,
    String.length input - i < fuel ->
    exists toks, lexLoop fuel input i line column tokens = Some toks.
Proof.
  induction fuel as [|fuel IH]; intros i line column tokens Hfuel; [lia|].
  rewrite lexLoop_unfold. cbv zeta.
  destruct (String.get i input) as [ch|] eqn:Hget; [|eauto].
  pose proof (get_lt _ _ _ Hget) as Hlt.
  destruct (isSpace ch).
  { destruct (Ascii.eqb ch newline); apply IH; lia. }
  destruct (Ascii.eqb ch "/" && _) eqn:Hc.
  { apply andb_true_iff in Hc. destruct Hc as [Hslash _].
    apply Ascii.eqb_eq in Hslash. subst ch.
    apply IH.
    pose proof (scanWhile_gt (fun c => negb (Ascii.eqb c newline)) input i "/"%char
                             Hget eq_refl).
    lia. }
  destruct (isDigit ch) eqn:Hd.
  { apply IH. pose proof (scanWhile_gt isDigit input i ch Hget Hd). lia. }
  destruct (Ascii.eqb ch dquote || Ascii.eqb ch squote).
  { pose proof (scanString_ge ch input (String.length input - i) (S i) "") as Hge.
    destruct (scanString ch input (String.length input - i) (S i) "") as [j s].
    simpl in Hge. apply IH. lia. }
  destruct (isIdentStart ch) eqn:Hs.
  { apply IH.
    assert (Hp : isIdentPart ch = true) by (unfold isIdentPart; now rewrite Hs).
    pose proof (scanWhile_gt isIdentPart input i ch Hget Hp). lia. }
  destruct (includes twoCharSymbols (slice input i (i + 2))); apply IH; lia.
Qed.

(** [lex] returns a token list on every input: it has no error to raise. *)
Lemma lex_total (input : string) : exists toks, lex input = Some toks.
Proof. unfold lex. apply lexLoop_total. lia. Qed.

Import Notions.

Lemma lexLoop_ends_with_eof (input : string) :
  forall fuel i line column tokens toks,
    existsb isEof tokens = false ->
    lexLoop fuel input i line column tokens = Some toks ->
    exists front l c, toks = front ++ [Eof l c] /\ existsb isEof front = false.
Proof.
  induction fuel as [|fuel IH]; intros i line column tokens toks Hno H; [discriminate|].
  assert (Hpush : forall ty v l c,
             existsb isEof (tokens ++ [Tok ty v l c]) = false)
    by (intros; rewrite existsb_app, Hno; reflexivity).
  rewrite lexLoop_unfold in H. cbv zeta in H.
  destruct (String.get i input) as [ch|].
  2:{ injection H as <-. eauto. }
  destruct (isSpace ch).
  { destruct (Ascii.eqb ch newline); eapply IH; eauto. }
  destruct (Ascii.eqb ch "/" && _).
  { eapply IH; eauto. }
  destruct (isDigit ch).
  { eapply IH; [apply Hpush | exact H]. }
  destruct (Ascii.eqb ch dquote || Ascii.eqb ch squote).
  { destruct (scanString ch input (String.length input - i) (S i) "") as [j s0].
    eapply IH; [apply Hpush | exact H]. }
  destruct (isIdentStart ch).
  { eapply IH; [apply Hpush | exact H]. }
  destruct (includes twoCharSymbols (slice input i (i + 2)));
    (eapply IH; [apply Hpush | exact H]).
Qed.

(** The token stream of every input ends with an [eof] token and holds no
    other (section 3 of the specification, Invariants, and property 1 of
    section 8). *)
Theorem lex_ends_with_exactly_one_eof (input : string) :
  exists front l c,
    lex input = Some (front ++ [Eof l c]) /\ existsb isEof front = false.
Proof.
  destruct (lex_total input) as [toks H].
  destruct (lexLoop_ends_with_eof input _ _ _ _ [] _ eq_refl H)
    as (front & l & c & -> & Hfront).
  eauto.
Qed.

Lemma lex_shape (input : string) :
  exists front l c,
    lex input = Some (front ++ [Eof l c]) /\ existsb isEof front = false.
Proof.
  destruct (lex_total input) as [toks H].
  destruct (lexLoop_ends_with_eof input _ _ _ _ [] _ eq_refl H)
    as (front & l & c & -> & Hfront).
  eauto.
Qed.

(** *** The tokens' values *)

Lemma substring_zero (s : string) : forall i, substring i 0 s = EmptyString.
Proof. induction s as [|a s IH]; intros [|i]; simpl; auto. Qed.

Lemma substring_head (s : string) :
  forall i n c,
    String.get i s = Some c ->
    substring i (S n) s = String c (substring (S i) n s).
Proof.
  induction s as [|a s IH]; intros [|i] n c H; simpl in *; try discriminate.
  - injection H as ->. reflexivity.
  - now apply IH.
Qed.

Lemma substring_snoc (s : string) :
  forall i j c,
    String.get j s = Some c -> i <= j ->
    substring i (S j - i) s = (substring i (j - i) s ++ String c "")%string.
Proof.
  induction s as [|a s IH]; intros i j c H Hle; [destruct j; discriminate|].
  destruct i as [|i], j as [|j]; try lia.
  - simpl in *. injection H as ->. now rewrite substring_zero.
  - simpl in H. change (S (S j) - 0) with (S (S j)). change (S j - 0) with (S j).
    simpl. f_equal. specialize (IH 0 j c H (Nat.le_0_l j)).
    rewrite !Nat.sub_0_r in IH. exact IH.
  - simpl in H. change (S (S j) - S i) with (S j - i).
    change (S j - S i) with (j - i). simpl. apply IH; [exact H | lia].
Qed.

Lemma chars_app (a b : string) : chars (a ++ b) = chars a ++ chars b.
Proof. induction a as [|c a IH]; simpl; [reflexivity | now rewrite IH]. Qed.

(** The characters a scan has passed all satisfy its test. *)
Lemma scanWhile_slice (p : ascii -> bool) (input : string) (i : nat) :
  forall fuel j,
    i <= j ->
    forallb p (chars (substring i (j - i) input)) = true ->
    forallb p (chars (substring i (scanWhile p input fuel j - i) input)) = true.
Proof.
  induction fuel as [|fuel IH]; intros j Hle H; simpl; [exact H|].
  destruct (String.get j input) as [c|] eqn:E; [|exact H].
  destruct (p c) eqn:Hp; [|exact H].
  apply IH; [lia|].
  rewrite (substring_snoc _ _ _ _ E Hle), chars_app, forallb_app, H.
  simpl. now rewrite Hp.
Qed.

Lemma slice_scanned (p : ascii -> bool) (input : string) (i : nat) (c : ascii) :
  String.get i input = Some c -> p c = true ->
  let v := slice input i (scanWhile p input (String.length input - i) i) in
  startsWith (fun x => Ascii.eqb x c) v = true /\ forallb p (chars v) = true.
Proof.
  intros Hget Hp v. subst v. unfold slice. split.
  - pose proof (scanWhile_gt p input i c Hget Hp) as Hgt.
    destruct (scanWhile p input (String.length input - i) i - i) as [|k] eqn:E; [lia|].
    rewrite (substring_head _ _ _ _ Hget). simpl. apply Ascii.eqb_refl.
  - apply scanWhile_slice; [lia|]. now rewrite Nat.sub_diag, substring_zero.
Qed.

Lemma startsWith_eq (p : ascii -> bool) (c : ascii) (v : string) :
  startsWith (fun x => Ascii.eqb x c) v = true -> p c = true -> startsWith p v = true.
Proof.
  destruct v as [|x v]; simpl; [discriminate|].
  intros H Hp. apply Ascii.eqb_eq in H. now subst.
Qed.

Lemma lexLoop_wellFormed (input : string) :
  forall fuel i line column tokens toks,
    forallb wellFormed tokens = true ->
    lexLoop fuel input i line column tokens = Some toks ->
    forallb wellFormed toks = true.
Proof.
  induction fuel as [|fuel IH]; intros i line column tokens toks Hwf H; [discriminate|].
  assert (Hpush : forall tk, wellFormed tk = true ->
                             forallb wellFormed (tokens ++ [tk]) = true)
    by (intros tk Htk; rewrite forallb_app, Hwf; simpl; now rewrite Htk).
  rewrite lexLoop_unfold in H. cbv zeta in H.
  destruct (String.get i input) as [ch|] eqn:Hget.
  2:{ injection H as <-. rewrite forallb_app, Hwf. reflexivity. }
  destruct (isSpace ch) eqn:Hsp.
  { destruct (Ascii.eqb ch newline); eapply IH; eauto. }
  destruct (Ascii.eqb ch "/" && _).
  { eapply IH; eauto. }
  destruct (isDigit ch) eqn:Hd.
  { eapply IH; [|exact H]. apply Hpush. simpl.
    destruct (slice_scanned isDigit input i ch Hget Hd) as [Hs Hall].
    now rewrite (startsWith_eq isDigit _ _ Hs Hd), Hall. }
  destruct (Ascii.eqb ch dquote || Ascii.eqb ch squote) eqn:Hq.
  { destruct (scanString ch input (String.length input - i) (S i) "") as [j s0].
    eapply IH; [|exact H]. now apply Hpush. }
  destruct (isIdentStart ch) eqn:Hi.
  { eapply IH; [|exact H]. apply Hpush.
    assert (Hp : isIdentPart ch = true) by (unfold isIdentPart; now rewrite Hi).
    destruct (slice_scanned isIdentPart input i ch Hget Hp) as [Hs Hall].
    destruct (includes keywords _) eqn:Hk; cbn [wellFormed].
    - exact Hk.
    - now rewrite (startsWith_eq isIdentStart _ _ Hs Hi), Hall, Hk. }
  destruct (includes twoCharSymbols (slice input i (i + 2))) eqn:Htwo.
  - eapply IH; [|exact H]. apply Hpush. cbn [wellFormed]. now rewrite Htwo.
  - eapply IH; [|exact H]. apply Hpush. cbn [wellFormed].
    rewrite Hsp, Hd, Hi, Hq. apply orb_true_r.
Qed.

(** Every token of every input is well formed for its kind; so the text of a
    number token is a non-empty run of digits, which [Number] in the parser
    turns into the nearest double and never into NaN. *)
Theorem lex_tokens_are_well_formed (input : string) :
  (forall toks, lex input = Some toks -> forallb wellFormed toks = true) /\
  (forall toks v l c,
      lex input = Some toks -> In (Tok num v l c) toks ->
      v <> EmptyString /\
      JSNumber.ofString v = JSNumber.round (JSNumber.digitsValue v)).
Proof.
  assert (Hall : forall toks, lex input = Some toks -> forallb wellFormed toks = true)
    by (intros toks H; eapply lexLoop_wellFormed; [|exact H]; reflexivity).
  split; [exact Hall|].
  intros toks v l c H Hin.
  pose proof (proj1 (forallb_forall _ _) (Hall _ H) _ Hin) as Hwf. simpl in Hwf.
  apply andb_true_iff in Hwf. destruct Hwf as [Hs Hd]. split.
  - destruct v; [discriminate | discriminate].
  - unfold JSNumber.ofString. unfold chars in Hd.
    change JSNumber.isDigit with Lexer.isDigit. now rewrite Hd.
Qed.

(** The property at [print(1 + 2 * 3)]. *)
Lemma lex_tokens_witness :
  "1" <> EmptyString /\
  JSNumber.ofString "1" = JSNumber.round (JSNumber.digitsValue "1").
Proof.
  refine (proj2 (lex_tokens_are_well_formed "print(1 + 2 * 3)") _ "1" 1%Z 7%Z eq_refl _).
  simpl. tauto.
Defined.

(** *** The tokens' positions *)

Lemma positionFrom_succ (input : string) :
  forall i line column ch,
    String.get i input = Some ch ->
    positionFrom input (S i) line column =
    (if Ascii.eqb ch newline
     then (fst (positionFrom input i line column) + 1, 1)
     else (fst (positionFrom input i line column),
           snd (positionFrom input i line column) + 1))%Z.
Proof.
  induction input as [|a s IH]; intros i line column ch H; [destruct i; discriminate|].
  destruct i as [|i].
  - simpl in H. injection H as ->. simpl.
    destruct (Ascii.eqb ch newline); destruct s; reflexivity.
  - simpl in H. cbn [positionFrom].
    destruct (Ascii.eqb a newline); apply IH; exact H.
Qed.

Lemma positionOf_next (input : string) (i : nat) (ch : ascii) :
  String.get i input = Some ch -> ch <> newline ->
  positionOf input (S i) = (fst (positionOf input i), snd (positionOf input i) + 1)%Z.
Proof.
  intros H Hne. unfold positionOf. rewrite (positionFrom_succ _ _ _ _ _ H).
  apply Ascii.eqb_neq in Hne. now rewrite Hne.
Qed.

Lemma positionOf_newline (input : string) (i : nat) :
  String.get i input = Some newline ->
  positionOf input (S i) = (fst (positionOf input i) + 1, 1)%Z.
Proof.
  intros H. unfold positionOf. rewrite (positionFrom_succ _ _ _ _ _ H).
  now rewrite Ascii.eqb_refl.
Qed.

(** Over characters that are no line feed the line stays and the column
    counts them. *)
Lemma positionOf_run (input : string) (i : nat) :
  forall j,
    i <= j ->
    (forall k, i <= k < j -> exists c, String.get k input = Some c /\ c <> newline) ->
    positionOf input j =
    (fst (positionOf input i), snd (positionOf input i) + Z.of_nat (j - i))%Z.
Proof.
  induction j as [|j IH]; intros Hle Hrun.
  - assert (i = 0) by lia. subst. simpl. rewrite Z.add_0_r.
    now destruct (positionOf input 0).
  - destruct (Nat.eq_dec i (S j)) as [-> | Hne].
    + rewrite Nat.sub_diag. simpl. rewrite Z.add_0_r.
      now destruct (positionOf input (S j)).
    + destruct (Hrun j) as (c & Hc & Hnl); [lia|].
      rewrite (positionOf_next _ _ _ Hc Hnl).
      rewrite IH by (try lia; intros k Hk; apply Hrun; lia).
      cbn [fst snd]. f_equal.
      replace (S j - i) with (S (j - i)) by lia. rewrite Nat2Z.inj_succ. lia.
Qed.

Lemma scanWhile_range (p : ascii -> bool) (input : string) :
  forall fuel j k,
    j <= k < scanWhile p input fuel j ->
    exists c, String.get k input = Some c /\ p c = true.
Proof.
  induction fuel as [|fuel IH]; intros j k Hk; simpl in Hk; [lia|].
  destruct (String.get j input) as [c|] eqn:E; [|lia].
  destruct (p c) eqn:Hp; [|lia].
  destruct (Nat.eq_dec j k) as [<- | Hne]; [eauto|].
  apply (IH (S j)). lia.
Qed.

Lemma substring_of_its_length (s : string) :
  forall i n, substring i (String.length (substring i n s)) s = substring i n s.
Proof.
  induction s as [|a s IH]; intros i n.
  - destruct i, n; reflexivity.
  - destruct i as [|i].
    + destruct n as [|n]; [reflexivity|]. simpl. f_equal. apply IH.
    + simpl. apply IH.
Qed.

Lemma substring_past_the_end (s : string) :
  forall i n, String.get i s = None -> substring i n s = EmptyString.
Proof.
  induction s as [|a s IH]; intros i n H.
  - destruct i, n; reflexivity.
  - destruct i as [|i]; [discriminate|]. simpl in *. now apply IH.
Qed.

Lemma quoteFree_get (input : string) :
  quoteFree input = true ->
  forall i c, String.get i input = Some c -> isQuote c = false.
Proof.
  unfold quoteFree, chars.
  induction input as [|a s IH]; intros H i c Hget; [destruct i; discriminate|].
  simpl in H. apply andb_true_iff in H. destruct H as [Ha Hs].
  destruct i as [|i]; simpl in Hget.
  - injection Hget as <-. now apply negb_true_iff in Ha.
  - eapply IH; eauto.
Qed.

Lemma includes_twoCharSymbols (v : string) :
  includes twoCharSymbols v = true ->
  v = "==" \/ v = "!=" \/ v = "<=" \/ v = ">=" \/ v = "&&" \/ v = "||" \/ v = "->".
Proof.
  unfold includes. rewrite existsb_exists. intros (y & Hy & E).
  apply String.eqb_eq in E. subst y. simpl in Hy. intuition.
Qed.

(** A two-character symbol is two characters of the text, neither a line
    feed. *)
Lemma two_characters (input : string) (i : nat) (ch : ascii) :
  String.get i input = Some ch ->
  includes twoCharSymbols (slice input i (i + 2)) = true ->
  ch <> newline /\
  exists c2, String.get (S i) input = Some c2 /\ c2 <> newline.
Proof.
  intros Hget H. unfold slice in H.
  replace (i + 2 - i) with 2 in H by lia.
  rewrite (substring_head _ _ _ _ Hget) in H.
  destruct (String.get (S i) input) as [c2|] eqn:E2.
  - rewrite (substring_head _ _ _ _ E2), substring_zero in H.
    apply includes_twoCharSymbols in H.
    split; [|exists c2; split; [reflexivity|]];
      intros ->; repeat (destruct H as [H | H]; try discriminate).
  - rewrite (substring_past_the_end _ _ _ E2) in H.
    apply includes_twoCharSymbols in H.
    repeat (destruct H as [H | H]; try discriminate).
Qed.

Lemma tracked_exact (input : string) (i : nat) (line column : Z) (ch : ascii) :
  tracked input i line column ->
  String.get i input = Some ch -> ch <> newline ->
  positionOf input i = (line, column).
Proof.
  intros [Hl [Hc | [Hn | Hn]]] Hget Hne.
  - destruct (positionOf input i). simpl in *. congruence.
  - congruence.
  - congruence.
Qed.

Lemma lexLoop_placed (input : string) :
  quoteFree input = true ->
  forall fuel i line column tokens toks,
    Forall (placed input) tokens ->
    tracked input i line column ->
    lexLoop fuel input i line column tokens = Some toks ->
    Forall (placed input) toks.
Proof.
  intros Hfree.
  induction fuel as [|fuel IH]; intros i line column tokens toks Hpl Htr H;
    [discriminate|].
  rewrite lexLoop_unfold in H. cbv zeta in H.
  destruct (String.get i input) as [ch|] eqn:Hget.
  2:{ injection H as <-. apply Forall_app. split; [exact Hpl|].
      constructor; [exact I | constructor]. }
  pose proof (get_lt _ _ _ Hget) as Hlt.
  assert (Hpush : forall ty v,
             positionOf input i = (line, column) ->
             substring i (String.length v) input = v ->
             Forall (placed input) (tokens ++ [Tok ty v line column])).
  { intros ty v Hpos Hsub. apply Forall_app. split; [exact Hpl|].
    constructor; [|constructor]. exists i. auto. }
  assert (Hscan : forall p,
             (forall c, p c = true -> c <> newline) ->
             let j := scanWhile p input (String.length input - i) i in
             i <= j /\
             positionOf input j =
             (fst (positionOf input i), snd (positionOf input i) + Z.of_nat (j - i))%Z).
  { intros p Hp j. subst j.
    pose proof (scanWhile_ge p input (String.length input - i) i) as Hge.
    split; [exact Hge|]. apply positionOf_run; [exact Hge|].
    intros k Hk. destruct (scanWhile_range _ _ _ _ _ Hk) as (c & Hc & Hpc). eauto. }
  destruct (isSpace ch) eqn:Hsp.
  { destruct (Ascii.eqb ch newline) eqn:Hnl.
    - apply Ascii.eqb_eq in Hnl. subst ch.
      eapply IH; [exact Hpl | | exact H].
      unfold tracked. rewrite (positionOf_newline _ _ Hget). simpl.
      split; [|auto]. destruct Htr as [-> _]. reflexivity.
    - apply Ascii.eqb_neq in Hnl.
      eapply IH; [exact Hpl | | exact H].
      unfold tracked. rewrite (positionOf_next _ _ _ Hget Hnl).
      rewrite (tracked_exact _ _ _ _ _ Htr Hget Hnl). split; simpl; auto. }
  assert (Hnotnl : ch <> newline) by (intros ->; discriminate).
  pose proof (tracked_exact _ _ _ _ _ Htr Hget Hnotnl) as Hpos.
  destruct (Ascii.eqb ch "/" && _).
  { eapply IH; [exact Hpl | | exact H].
    destruct (Hscan (fun c => negb (Ascii.eqb c newline))) as [Hge Hj].
    { intros c Hc ->. discriminate. }
    unfold tracked. split.
    - rewrite Hj, Hpos. reflexivity.
    - pose proof (scanWhile_stops (fun c => negb (Ascii.eqb c newline)) input
                                  (String.length input - i) i (Nat.le_refl _)) as Hstop.
      destruct (String.get (scanWhile _ input (String.length input - i) i) input)
        as [c|]; [|auto].
      apply negb_false_iff, Ascii.eqb_eq in Hstop. subst. auto. }
  destruct (isDigit ch) eqn:Hd.
  { destruct (Hscan isDigit) as [Hge Hj].
    { intros c Hc ->. discriminate. }
    eapply IH; [| | exact H].
    - apply Hpush; [exact Hpos | apply substring_of_its_length].
    - unfold tracked. rewrite Hj, Hpos. split; simpl; [reflexivity | left; lia]. }
  destruct (Ascii.eqb ch dquote || Ascii.eqb ch squote) eqn:Hq.
  { pose proof (quoteFree_get _ Hfree _ _ Hget) as Hno. unfold isQuote in Hno.
    congruence. }
  destruct (isIdentStart ch) eqn:Hi.
  { destruct (Hscan isIdentPart) as [Hge Hj].
    { intros c Hc ->. discriminate. }
    eapply IH; [| | exact H].
    - apply Hpush; [exact Hpos | apply substring_of_its_length].
    - unfold tracked. rewrite Hj, Hpos. split; simpl; [reflexivity | left; lia]. }
  destruct (includes twoCharSymbols (slice input i (i + 2))) eqn:Htwo.
  - destruct (two_characters _ _ _ Hget Htwo) as (_ & c2 & Hc2 & Hne2).
    eapply IH; [| | exact H].
    + apply Hpush; [exact Hpos | apply substring_of_its_length].
    + unfold tracked. replace (i + 2) with (S (S i)) by lia.
      rewrite (positionOf_next _ _ _ Hc2 Hne2), (positionOf_next _ _ _ Hget Hnotnl), Hpos.
      split; simpl; [reflexivity | left; lia].
  - eapply IH; [| | exact H].
    + apply Hpush; [exact Hpos|]. simpl.
      now rewrite (substring_head _ _ _ _ Hget), substring_zero.
    + unfold tracked. rewrite (positionOf_next _ _ _ Hget Hnotnl), Hpos.
      split; simpl; auto.
Qed.

(** In a text without quote characters every token records the line and
    column, both 1-based, of its first character: its value is the text at
    the index that has this line and column. *)
Theorem lex_positions_without_strings (input : string) (toks : list Token) :
  quoteFree input = true ->
  lex input = Some toks ->
  Forall (placed input) toks.
Proof.
  intros Hfree H. eapply lexLoop_placed; [exact Hfree | constructor | | exact H].
  unfold tracked, positionOf. destruct input; simpl; auto.
Qed.

(** The property at [print(1 + 2 * 3)]. *)
Lemma lex_positions_witness :
  Forall (placed "print(1 + 2 * 3)")
         [Tok ident "print" 1 1; Tok sym "(" 1 6; Tok num "1" 1 7; Tok sym "+" 1 9;
          Tok num "2" 1 11; Tok sym "*" 1 13; Tok num "3" 1 15; Tok sym ")" 1 16;
          Eof 1 17].
Proof.
  exact (lex_positions_without_strings "print(1 + 2 * 3)" _ eq_refl eq_refl).
Defined.

(** C5, as stated, fails: on the unterminated literal of scenario S7 the
    lexer raises nothing and returns a token stream, the rest of the input
    being the value of a [str] token. *)
Lemma C5_unterminated_string_lexes :
  lex unterminated =
  Some [Tok kw "let" 1 1; Tok ident "s" 1 5; Tok sym ":" 1 6; Tok ident "String" 1 8;
        Tok sym "=" 1 15; Tok str "hi" 1 17; Eof 1 20].
Proof. vm_compute. reflexivity. Qed.

(** C5, amended: the lexer fails on no input; and whenever its loop stands on
    a quote [q] at index [i] and the literal's body runs to the end of the
    input without meeting [q] again, it pushes a [str] token holding the
    decoded rest of the input, at the line and column the loop is at, then the
    [eof] token, and returns the tokens. *)
Theorem C5_unterminated_string_is_a_str_token :
  (forall input, exists toks, lex input = Some toks) /\
  (forall fuel input i line column tokens q j s,
      String.get i input = Some q ->
      q = dquote \/ q = squote ->
      scanString q input (String.length input - i) (S i) "" = (j, s) ->
      String.get j input = None ->
      lexLoop (S (S fuel)) input i line column tokens =
      Some (tokens ++ [Tok str s line column;
                       Eof line (column + 1 + Z.of_nat (String.length s))])).
Proof.
  split; [exact lex_total|].
  intros fuel input i line column tokens q j s Hget Hq Hscan Hend.
  rewrite lexLoop_unfold. cbv zeta. rewrite Hget.
  assert (Hbranch : isSpace q = false /\ Ascii.eqb q "/" = false /\ isDigit q = false /\
                    Ascii.eqb q dquote || Ascii.eqb q squote = true)
    by (destruct Hq; subst q; repeat split; reflexivity).
  destruct Hbranch as (Hs & Hc & Hd & Hquote).
  rewrite Hs, Hc, Hd, Hquote. cbn [andb]. rewrite Hscan.
  rewrite lexLoop_unfold. cbv zeta.
  rewrite (get_none_succ _ _ Hend).
  rewrite <- app_assoc. cbn [app].
  replace (column + (Z.of_nat (S j) - (Z.of_nat j - Z.of_nat (String.length s))))%Z
    with (column + 1 + Z.of_nat (String.length s))%Z by lia.
  reflexivity.
Qed.

(** The amended C5 at the literal of scenario S7, whose quote is at index 16,
    line 1, column 17. *)
Lemma C5_unterminated_string_witness :
  lexLoop 2 unterminated 16 1 17 [] = Some ([] ++ [Tok str "hi" 1 17; Eof 1 20]).
Proof.
  exact (proj2 C5_unterminated_string_is_a_str_token 0 unterminated 16 1%Z 17%Z []
               dquote 19 "hi" eq_refl (or_introl eq_refl) eq_refl eq_refl).
Defined.

(** C8 fails on the code: in [afterString] the identifier [x] is the character at
    index 5, which is line 1, column 6, and its token records column 5.  The
    column update after a string literal (line 54) adds one less than the
    width of a literal without escapes.  In [afterTwoLineString] the
    identifier [x] is the character at index 6, which is line 2, column 4, and
    its token records line 1, column 6: a line feed inside a literal does not
    advance [line]. *)
Theorem C8_column_after_string_is_off :
  lex afterString = Some [Tok str "ab" 1 1; Tok ident "x" 1 5; Eof 1 6] /\
  String.get 5 afterString = Some "x"%char /\
  positionOf afterString 5 = (1, 6)%Z /\
  (exists s, lex afterTwoLineString = Some [Tok str s 1 1; Tok ident "x" 1 6; Eof 1 7]) /\
  String.get 6 afterTwoLineString = Some "x"%char /\
  positionOf afterTwoLineString 6 = (2, 4)%Z.
Proof. repeat split. eexists. reflexivity. Qed.

End LexerFacts.

(* ------------------------------------------------------------------ *)
(** ** The parser and scenario S1 *)

Module ParserFacts.

Import Lexer AST Parser Notions.

Lemma peek_nextValue (p : Parser.t) (ty : TokenType) (v : string) (l c : Z) :
  peek p = Ok (Tok ty v l c) p -> nextValue p = Ok v (advance p).
Proof.
  unfold peek, nextValue, bind, next. intros H.
  destruct (nth_error (tokens p) (pos p)) as [tk|]; [|discriminate].
  injection H as ->. reflexivity.
Qed.

Lemma isBinaryOperator_sym (op : string) (l c : Z) :
  In op binaryOperators -> isBinaryOperator (Tok sym op l c) = true.
Proof.
  intros H. unfold isBinaryOperator, includes.
  apply existsb_exists. exists op. split; [exact H | apply String.eqb_refl].
Qed.

(** One turn of the loop of [parseBinary] on an operator. *)
Lemma parseBinaryLoop_step (operand : P Expr) (iters : nat) (left right : Expr)
      (p p' : Parser.t) (op : string) (l c : Z) :
  peek p = Ok (Tok sym op l c) p ->
  In op binaryOperators ->
  operand (advance p) = Ok right p' ->
  parseBinaryLoop operand (S iters) left p =
  parseBinaryLoop operand iters (BinaryExpr op left right) p'.
Proof.
  intros Hpeek Hop Hright.
  cbn [parseBinaryLoop]. unfold bind at 1. rewrite Hpeek.
  rewrite (isBinaryOperator_sym _ _ _ Hop).
  unfold bind at 1. rewrite (peek_nextValue _ _ _ _ _ Hpeek).
  unfold bind at 1. rewrite Hright. reflexivity.
Qed.

(** The loop of [parseBinary] ends on a token that is no binary operator. *)
Lemma parseBinaryLoop_stop (operand : P Expr) (iters : nat) (left : Expr)
      (p : Parser.t) (tk : Token) :
  peek p = Ok tk p ->
  isBinaryOperator tk = false ->
  parseBinaryLoop operand (S iters) left p = Ok left p.
Proof.
  intros Hpeek Hop. cbn [parseBinaryLoop]. unfold bind. now rewrite Hpeek, Hop.
Qed.

(** C4, as stated, fails: interpreting [print(1 + 2 * 3)] writes the line [9],
    not the line [7]. *)
Lemma C4_print_writes_9 :
  Main.output (Main.interpret 20 [] "print(1 + 2 * 3)") = Some (Runtime.logLine ["9"]) /\
  Main.output (Main.interpret 20 [] "print(1 + 2 * 3)") <> Some (Runtime.logLine ["7"]).
Proof. split; [vm_compute; reflexivity | vm_compute; discriminate]. Qed.

(** C4, amended: the ten binary operators are one precedence tier,
    left-associative.  If [parseUnary] reads [a], [b] and [c] around two
    operator tokens [op1] and [op2], and the token after [c] is no binary
    operator, then [parseBinary] returns
    [BinaryExpr op2 (BinaryExpr op1 a b) c].  So [1 + 2 * 3] parses as
    [(1 + 2) * 3], and interpreting [print(1 + 2 * 3)] writes the line [9]. *)
Theorem C4_binary_operators_one_tier_left_assoc :
  (forall n p0 a p1 op1 l1 c1 b p2 op2 l2 c2 c p3 t3,
      3 <= n ->
      parseUnary n p0 = Ok a p1 ->
      peek p1 = Ok (Tok sym op1 l1 c1) p1 -> In op1 binaryOperators ->
      parseUnary n (advance p1) = Ok b p2 ->
      peek p2 = Ok (Tok sym op2 l2 c2) p2 -> In op2 binaryOperators ->
      parseUnary n (advance p2) = Ok c p3 ->
      peek p3 = Ok t3 p3 -> isBinaryOperator t3 = false ->
      parseBinary (S n) p0 = Ok (BinaryExpr op2 (BinaryExpr op1 a b) c) p3) /\
  Parser.new "1 + 2 * 3" = Some onePlusTwoTimesThree /\
  (exists p', parseExpr 6 onePlusTwoTimesThree =
              Ok (BinaryExpr "*" (BinaryExpr "+" (IntLiteral (JSNumber.Fin 1))
                                             (IntLiteral (JSNumber.Fin 2)))
                             (IntLiteral (JSNumber.Fin 3))) p') /\
  Main.output (Main.interpret 20 [] "print(1 + 2 * 3)") = Some (Runtime.logLine ["9"]).
Proof.
  split; [|split; [|split]].
  - intros n p0 a p1 op1 l1 c1 b p2 op2 l2 c2 c p3 t3
           Hn Ha Hop1 Hin1 Hb Hop2 Hin2 Hc Ht3 Hstop.
    destruct n as [|[|[|m]]]; try lia.
    cbn [parseBinary]. unfold bind at 1. rewrite Ha.
    rewrite (parseBinaryLoop_step _ _ _ _ _ _ _ _ _ Hop1 Hin1 Hb).
    rewrite (parseBinaryLoop_step _ _ _ _ _ _ _ _ _ Hop2 Hin2 Hc).
    exact (parseBinaryLoop_stop _ _ _ _ _ Ht3 Hstop).
  - vm_compute. reflexivity.
  - eexists. vm_compute. reflexivity.
  - vm_compute. reflexivity.
Qed.

(** The amended C4 at the tokens of [1 + 2 * 3]. *)
Lemma C4_binary_operators_witness :
  parseBinary 4 onePlusTwoTimesThree =
  Ok (BinaryExpr "*" (BinaryExpr "+" (IntLiteral (JSNumber.Fin 1))
                                 (IntLiteral (JSNumber.Fin 2)))
                 (IntLiteral (JSNumber.Fin 3)))
     (advance (advance (advance (advance (advance onePlusTwoTimesThree))))).
Proof.
  refine (proj1 C4_binary_operators_one_tier_left_assoc 3 onePlusTwoTimesThree
                _ (advance onePlusTwoTimesThree) "+" 1%Z 3%Z
                _ (advance (advance (advance onePlusTwoTimesThree))) "*" 1%Z 7%Z
                _ _ (Eof 1 10)
                (le_n 3) eq_refl eq_refl _ eq_refl eq_refl _ eq_refl eq_refl eq_refl).
  - simpl. tauto.
  - simpl. tauto.
Defined.

End ParserFacts.

(* ------------------------------------------------------------------ *)
(** ** The type checker *)

Module TypeCheckFacts.

Import AST TypeCheck Notions JSMapFacts.

Lemma includes_In (l : list string) (x : string) :
  Lexer.includes l x = true <-> In x l.
Proof.
  unfold Lexer.includes. rewrite existsb_exists. split.
  - intros (y & Hy & E). apply String.eqb_eq in E. now subst.
  - intros H. exists x. split; [exact H | apply String.eqb_refl].
Qed.

Lemma typeExists_iff (tc : TypeCheck.t) (ty : TypeName) :
  typeExists tc ty = true <-> In ty builtinTypeNames \/ JSMap.has (classes tc) ty = true.
Proof.
  unfold typeExists.
  destruct (Lexer.includes _ ty) eqn:E.
  - apply includes_In in E. tauto.
  - split; [tauto|]. intros [H|H]; [|exact H].
    apply includes_In in H. unfold builtinTypeNames in H. congruence.
Qed.

Lemma checkVar_classes (l : list Stmt) :
  forall tc, classes (fold_left checkVar l tc) = classes tc.
Proof.
  induction l as [|s l IH]; intros tc; simpl; [reflexivity|].
  rewrite IH. destruct s; simpl; try reflexivity.
  match goal with |- context [if ?c then _ else _] => destruct c end; reflexivity.
Qed.

Lemma checkVar_keeps (l : list Stmt) (e : string) :
  forall tc, In e (errors tc) -> In e (errors (fold_left checkVar l tc)).
Proof.
  induction l as [|s l IH]; intros tc H; simpl; [exact H|].
  apply IH. destruct s; simpl; try exact H.
  match goal with |- context [if ?c then _ else _] => destruct c end; [|exact H].
  simpl. apply in_or_app. now left.
Qed.

Lemma typeExists_classes (a b : TypeCheck.t) (ty : TypeName) :
  classes a = classes b -> typeExists a ty = typeExists b ty.
Proof. unfold typeExists. now intros ->. Qed.

(** The loop of lines 46-50 reports every variable whose type does not exist. *)
Lemma checkVar_reports (l : list Stmt) (n ty : string) (init : option Expr) :
  forall tc,
    In (VarDecl n ty init) l ->
    typeExists tc ty = false ->
    In ("Unknown type " ++ ty ++ " in var " ++ n)%string (errors (fold_left checkVar l tc)).
Proof.
  induction l as [|s l IH]; intros tc Hin Hty; simpl in *; [contradiction|].
  destruct Hin as [-> | Hin].
  - apply checkVar_keeps. simpl. rewrite Hty. simpl.
    apply in_or_app. right. now left.
  - apply IH; [exact Hin|].
    rewrite <- Hty. apply typeExists_classes.
    destruct s; simpl; try reflexivity.
    match goal with |- context [if ?c then _ else _] => destruct c end; reflexivity.
Qed.

Lemma collectHeader_has (l : list Stmt) (c : string) :
  forall tc, JSMap.has (classes (fold_left collectHeader l tc)) c =
             JSMap.has (classes tc) c || existsb (declares c) l.
Proof.
  induction l as [|s l IH]; intros tc; simpl; [now rewrite orb_false_r|].
  rewrite IH. destruct s as [| n sup ms | | | | |]; simpl; try reflexivity.
  rewrite has_set.
  destruct (JSMap.has (classes tc) n); simpl;
    destruct (JSMap.has (classes tc) c), (String.eqb n c); reflexivity.
Qed.

Lemma has_set_present {V : Type} (m : JSMap.t V) (k k0 : string) (v : V) :
  JSMap.has m k = true -> JSMap.has (JSMap.set m k v) k0 = JSMap.has m k0.
Proof.
  intros H. rewrite has_set.
  destruct (String.eqb k k0) eqn:E; [|reflexivity].
  apply String.eqb_eq in E. subst. now rewrite H.
Qed.

Lemma fillMembers_has (l : list Stmt) (c : string) :
  forall tc, JSMap.has (classes (fold_left fillMembers l tc)) c = JSMap.has (classes tc) c.
Proof.
  induction l as [|s l IH]; intros tc; simpl; [reflexivity|].
  rewrite IH. destruct s as [| n sup ms | | | | |]; simpl; try reflexivity.
  destruct (JSMap.get (classes tc) n) eqn:E; [|reflexivity].
  simpl. apply has_set_present. unfold JSMap.has. now rewrite E.
Qed.

(** The classes of the table after [check]: those it had and those declared. *)
Lemma check_has (tc : TypeCheck.t) (program : Program) (c : string) :
  JSMap.has (classes (check tc program)) c =
  JSMap.has (classes tc) c || existsb (declares c) (body program).
Proof.
  unfold check. rewrite checkVar_classes. simpl.
  rewrite fillMembers_has. apply collectHeader_has.
Qed.

(** C6, as stated, fails: [INT] is [int] up to letter case and no class, yet
    [typeExists] rejects it; so does the check of a variable of that type. *)
Lemma C6_typeExists_is_case_sensitive :
  typeExists TypeCheck.new "INT" = false /\
  errors (check TypeCheck.new twoClasses) = ["Unknown type INT in var v"].
Proof. split; reflexivity. Qed.

(** C6, amended: [typeExists] accepts the built-in names in the eight
    spellings of its list, two for each of [int], [string], [bool] and [void];
    any other name it accepts iff the class table has it, which after [check]
    on a fresh checker are the classes the program declares; and [check]
    reports [Unknown type T in var x] for every top-level declaration of a
    variable [x] whose type [T] fails the test. *)
Theorem C6_typeExists_lists_two_spellings :
  (forall tc ty,
      typeExists tc ty = true <->
      In ty builtinTypeNames \/ JSMap.has (classes tc) ty = true) /\
  (forall program c,
      JSMap.has (classes (check TypeCheck.new program)) c = true <->
      exists sup ms, In (ClassDecl c sup ms) (body program)) /\
  (forall tc program x ty init,
      In (VarDecl x ty init) (body program) ->
      typeExists (check tc program) ty = false ->
      In ("Unknown type " ++ ty ++ " in var " ++ x)%string (errors (check tc program))).
Proof.
  split; [exact typeExists_iff | split].
  - intros program c. rewrite check_has. simpl. rewrite existsb_exists. split.
    + intros (s & Hin & Hd). destruct s; try discriminate.
      apply String.eqb_eq in Hd. subst. eauto.
    + intros (sup & ms & Hin). exists (ClassDecl c sup ms).
      split; [exact Hin | apply String.eqb_refl].
  - intros tc program x ty init Hin Hty. unfold check in *.
    apply (checkVar_reports _ _ _ init); [exact Hin|].
    rewrite <- Hty. apply typeExists_classes. now rewrite checkVar_classes.
Qed.

(** The amended C6 at the declaration [let v: INT] of [twoClasses]. *)
Lemma C6_typeExists_witness :
  In "Unknown type INT in var v" (errors (check TypeCheck.new twoClasses)).
Proof.
  exact (proj2 (proj2 C6_typeExists_lists_two_spellings) TypeCheck.new twoClasses
               "v" "INT" None (or_intror (or_intror (or_introl eq_refl))) eq_refl).
Defined.

Lemma truthy_Some (c : string) : truthy (Some c) = true <-> c <> "".
Proof.
  simpl. destruct (String.eqb c "") eqn:E; simpl.
  - apply String.eqb_eq in E. split; [discriminate | contradiction].
  - apply String.eqb_neq in E. tauto.
Qed.

Lemma superWalk_true (tc : TypeCheck.t) (b : string) :
  forall fuel cur, superWalk tc fuel cur b = Some true -> Reaches tc b cur.
Proof.
  induction fuel as [|fuel IH]; intros cur H; cbn [superWalk] in H; [discriminate|].
  destruct cur as [c|]; [|discriminate].
  destruct (truthy (Some c)) eqn:Ht; [|discriminate].
  apply truthy_Some in Ht.
  destruct (String.eqb c b) eqn:E.
  - apply String.eqb_eq in E. now apply Reaches_here.
  - apply String.eqb_neq in E. apply Reaches_next; auto.
Qed.

Lemma Reaches_superWalk (tc : TypeCheck.t) (b : string) (cur : option string) :
  Reaches tc b cur -> exists fuel, superWalk tc fuel cur b = Some true.
Proof.
  induction 1 as [c Hc Hb | c Hc Hb _ [fuel IH]].
  - exists 1. simpl. apply truthy_Some in Hc. simpl in Hc. rewrite Hc.
    subst. now rewrite String.eqb_refl.
  - exists (S fuel). cbn [superWalk]. apply truthy_Some in Hc. rewrite Hc.
    apply String.eqb_neq in Hb. now rewrite Hb.
Qed.

Lemma superWalk_false (tc : TypeCheck.t) (b : string) :
  forall fuel cur, superWalk tc fuel cur b = Some false -> Ends tc b cur.
Proof.
  induction fuel as [|fuel IH]; intros cur H; cbn [superWalk] in H; [discriminate|].
  destruct cur as [c|]; [|constructor].
  destruct (truthy (Some c)) eqn:Ht.
  - apply truthy_Some in Ht.
    destruct (String.eqb c b) eqn:E; [discriminate|].
    apply String.eqb_neq in E. apply Ends_next; auto.
  - assert (Hc : c = "").
    { destruct (String.eqb c "") eqn:Ec; [now apply String.eqb_eq in Ec|].
      simpl in Ht. rewrite Ec in Ht. discriminate. }
    subst. constructor.
Qed.

Lemma Ends_superWalk (tc : TypeCheck.t) (b : string) (cur : option string) :
  Ends tc b cur -> exists fuel, superWalk tc fuel cur b = Some false.
Proof.
  induction 1 as [ | | c Hc Hb _ [fuel IH]].
  - now exists 1.
  - now exists 1.
  - exists (S fuel). cbn [superWalk]. apply truthy_Some in Hc. rewrite Hc.
    apply String.eqb_neq in Hb. now rewrite Hb.
Qed.

(** More fuel does not change an answer. *)
Lemma superWalk_more_fuel (tc : TypeCheck.t) (b : string) :
  forall fuel fuel' cur r,
    superWalk tc fuel cur b = Some r -> fuel <= fuel' ->
    superWalk tc fuel' cur b = Some r.
Proof.
  induction fuel as [|fuel IH]; intros fuel' cur r H Hle; [discriminate|].
  destruct fuel' as [|fuel']; [lia|].
  cbn [superWalk] in *.
  destruct cur as [c|]; [|exact H].
  destruct (truthy (Some c)); [|exact H].
  destruct (String.eqb c b); [exact H|].
  apply IH; [exact H | lia].
Qed.

(** C7, as stated, fails: [isSubtype] of [Void] with itself is true, in the
    spelling the code tests for and in the lower-case one alike. *)
Lemma C7_void_is_subtype_of_itself :
  isSubtype TypeCheck.new 0 "Void" "Void" = Some true /\
  isSubtype TypeCheck.new 0 "void" "void" = Some true.
Proof. split; reflexivity. Qed.

(** C7, amended: [isSubtype(a, a)] is true for every [a], [Void] included;
    for [a] other than [b] it is false when either is [Void]; and otherwise it
    returns true iff both are classes of the table and the chain of
    [superName] links from class [a] meets [b], and returns false iff one of
    them is no class of the table or that chain ends without meeting [b];
    an answer given with some fuel is the answer with any more. *)
Theorem C7_isSubtype_reflexive_then_void_then_chain :
  (forall tc fuel a, isSubtype tc fuel a a = Some true) /\
  (forall tc fuel a b,
      a <> b -> a = "Void" \/ b = "Void" -> isSubtype tc fuel a b = Some false) /\
  (forall tc a b,
      a <> b -> a <> "Void" -> b <> "Void" ->
      ((exists fuel, isSubtype tc fuel a b = Some true) <->
       JSMap.has (classes tc) a = true /\ JSMap.has (classes tc) b = true /\
       Reaches tc b (superOf tc a)) /\
      ((exists fuel, isSubtype tc fuel a b = Some false) <->
       JSMap.has (classes tc) a = false \/ JSMap.has (classes tc) b = false \/
       Ends tc b (superOf tc a))) /\
  (forall tc fuel fuel' a b r,
      isSubtype tc fuel a b = Some r -> fuel <= fuel' -> isSubtype tc fuel' a b = Some r).
Proof.
  split; [|split; [|split]].
  - intros tc fuel a. unfold isSubtype. now rewrite String.eqb_refl.
  - intros tc fuel a b Hne Hvoid. unfold isSubtype.
    apply String.eqb_neq in Hne. rewrite Hne.
    destruct Hvoid as [-> | ->]; simpl; [reflexivity|].
    now rewrite orb_true_r.
  - intros tc a b Hne Ha Hb. unfold isSubtype.
    apply String.eqb_neq in Hne, Ha, Hb. rewrite Hne, Ha, Hb. simpl.
    destruct (JSMap.has (classes tc) a) eqn:Hca;
      destruct (JSMap.has (classes tc) b) eqn:Hcb; simpl.
    + split; split.
      * intros [fuel H]. repeat split. eapply superWalk_true; eauto.
      * intros (_ & _ & H). now apply Reaches_superWalk.
      * intros [fuel H]. right. right. eapply superWalk_false; eauto.
      * intros [H | [H | H]]; try discriminate. now apply Ends_superWalk.
    + split; split.
      * intros [_ H]. discriminate.
      * intros (_ & H & _). discriminate.
      * auto.
      * intros _. now exists 0.
    + split; split.
      * intros [_ H]. discriminate.
      * intros (H & _). discriminate.
      * auto.
      * intros _. now exists 0.
    + split; split.
      * intros [_ H]. discriminate.
      * intros (H & _). discriminate.
      * auto.
      * intros _. now exists 0.
  - intros tc fuel fuel' a b r H Hle. unfold isSubtype in *.
    destruct (String.eqb a b); [exact H|].
    destruct (String.eqb a "Void" || String.eqb b "Void"); [exact H|].
    destruct (negb (JSMap.has (classes tc) a) || negb (JSMap.has (classes tc) b));
      [exact H|].
    eapply superWalk_more_fuel; eauto.
Qed.

(** The amended C7 on the table of [twoClasses]: [B] is a subtype of [A]. *)
Lemma C7_isSubtype_witness :
  exists fuel, isSubtype (check TypeCheck.new twoClasses) fuel "B" "A" = Some true.
Proof.
  refine (proj2 (proj1 (proj1 (proj2 (proj2 C7_isSubtype_reflexive_then_void_then_chain))
                              (check TypeCheck.new twoClasses) "B" "A" _ _ _)) _).
  - discriminate.
  - discriminate.
  - discriminate.
  - repeat split. apply Reaches_here; [discriminate | reflexivity].
Defined.

(** *** The programs [check] accepts *)

Lemma set_fresh {V : Type} (m : JSMap.t V) (k : string) (v : V) :
  JSMap.has m k = false -> JSMap.set m k v = m ++ [(k, v)].
Proof.
  unfold JSMap.has.
  induction m as [|[k' v'] m IH]; simpl; intros H; [reflexivity|].
  destruct (String.eqb k' k); [discriminate|]. f_equal. now apply IH.
Qed.

Lemma set_keeps_headers (m : JSMap.t ClassInfo) (n : string) (info info' : ClassInfo) :
  JSMap.get m n = Some info ->
  superName info' = superName info ->
  headers (JSMap.set m n info') = headers m.
Proof.
  intros Hget Hsup.
  induction m as [|[k x] m IH]; simpl in *; [discriminate|].
  destruct (String.eqb k n) eqn:E.
  - apply String.eqb_eq in E. subst. injection Hget as ->.
    simpl. now rewrite Hsup.
  - simpl. f_equal. now apply IH.
Qed.

Lemma fillMember_superName (ms : list ClassMember) :
  forall info, superName (fold_left fillMember ms info) = superName info.
Proof.
  induction ms as [|m ms IH]; intros info; simpl; [reflexivity|].
  rewrite IH. destruct m; reflexivity.
Qed.

Lemma fillMembers_keeps (l : list Stmt) :
  forall tc,
    errors (fold_left fillMembers l tc) = errors tc /\
    headers (classes (fold_left fillMembers l tc)) = headers (classes tc).
Proof.
  induction l as [|s l IH]; intros tc; simpl; [auto|].
  destruct (IH (fillMembers tc s)) as [He Hh]. rewrite He, Hh.
  destruct s as [| n sup ms | | | | |]; simpl; auto.
  destruct (JSMap.get (classes tc) n) as [info|] eqn:E; simpl; auto.
  split; [reflexivity|].
  eapply set_keeps_headers; [exact E | apply fillMember_superName].
Qed.

Lemma declares_classNames (c : string) (l : list Stmt) :
  existsb (declares c) l = true <-> In c (classNames l).
Proof.
  induction l as [|s l IH]; simpl; [split; [discriminate | contradiction]|].
  rewrite orb_true_iff, IH, in_app_iff.
  destruct s as [| n sup ms | | | | |]; simpl; try solve [intuition congruence].
  rewrite String.eqb_eq. tauto.
Qed.

Lemma collectHeader_errors_grow (l : list Stmt) :
  forall tc, errors (fold_left collectHeader l tc) = [] -> errors tc = [].
Proof.
  induction l as [|s l IH]; intros tc H; simpl in H; [exact H|].
  apply IH in H. destruct s as [| n sup ms | | | | |]; simpl in H; auto.
  destruct (JSMap.has (classes tc) n); [|exact H].
  simpl in H. now destruct (errors tc).
Qed.

Lemma collectHeader_clean (l : list Stmt) :
  forall tc,
    errors (fold_left collectHeader l tc) = [] ->
    NoDup (classNames l) /\
    forall n, In n (classNames l) -> JSMap.has (classes tc) n = false.
Proof.
  induction l as [|s l IH]; intros tc H; simpl in *.
  - split; [constructor | contradiction].
  - pose proof (collectHeader_errors_grow _ _ H) as H1.
    destruct (IH _ H) as [Hnd Hfresh].
    destruct s as [| n sup ms | | | | |]; simpl in *; auto.
    destruct (JSMap.has (classes tc) n) eqn:Hn.
    { simpl in H1. now destruct (errors tc). }
    simpl in Hfresh.
    assert (Hrest : forall m, In m (classNames l) ->
                              n <> m /\ JSMap.has (classes tc) m = false).
    { intros m Hm. specialize (Hfresh m Hm).
      rewrite JSMapFacts.has_set in Hfresh. apply orb_false_iff in Hfresh.
      destruct Hfresh as [Hne Hf]. apply String.eqb_neq in Hne. auto. }
    split.
    + constructor; [|exact Hnd]. intros Hin. now destruct (Hrest n Hin).
    + intros m [<- | Hm]; [exact Hn | now apply Hrest].
Qed.

Lemma collectHeader_result (l : list Stmt) :
  forall tc,
    errors tc = [] ->
    NoDup (classNames l) ->
    (forall n, In n (classNames l) -> JSMap.has (classes tc) n = false) ->
    errors (fold_left collectHeader l tc) = [] /\
    headers (classes (fold_left collectHeader l tc))
    = headers (classes tc) ++ declHeaders l.
Proof.
  induction l as [|s l IH]; intros tc He Hnd Hfresh; simpl in *.
  - now rewrite app_nil_r.
  - destruct s as [| n sup ms | | | | |]; simpl in *; try (now apply IH).
    inversion Hnd as [|? ? Hnotin Hnd']; subst.
    assert (Hn : JSMap.has (classes tc) n = false) by (apply Hfresh; now left).
    rewrite Hn. simpl.
    destruct (IH (mkTypeChecker
                    (JSMap.set (classes tc) n
                               (mkClassInfo n sup JSMap.empty JSMap.empty None))
                    (errors tc))) as [He' Hh'].
    + exact He.
    + exact Hnd'.
    + intros m Hm. simpl. rewrite JSMapFacts.has_set.
      apply orb_false_iff. split; [|apply Hfresh; now right].
      apply String.eqb_neq. intros ->. contradiction.
    + split; [exact He'|]. rewrite Hh'. simpl.
      rewrite (set_fresh _ _ _ Hn). unfold headers. rewrite map_app. simpl.
      now rewrite <- app_assoc.
Qed.

Lemma checkSuper_clean (all : JSMap.t ClassInfo) (names : list string) :
  (forall c, JSMap.has all c = true <-> In c names) ->
  forall entries errs,
    fold_left (checkSuper all) entries errs = [] <->
    errs = [] /\ Forall (superDeclared names) (headers entries).
Proof.
  intros Hall.
  induction entries as [|[n info] entries IH]; intros errs; simpl.
  - split; [intros ->; split; [reflexivity | constructor] | tauto].
  - rewrite IH. unfold checkSuper. simpl.
    destruct (superName info) as [sup|] eqn:Es.
    + destruct (String.eqb sup "") eqn:Ee; simpl.
      * apply String.eqb_eq in Ee. subst sup.
        split; intros [H1 H2]; (split; [exact H1|]).
        -- constructor; [|exact H2]. unfold superDeclared. simpl.
           intros H. now contradiction H.
        -- now inversion H2.
      * apply String.eqb_neq in Ee.
        destruct (JSMap.has all sup) eqn:Hs; simpl.
        -- split; intros [H1 H2]; (split; [exact H1|]).
           ++ constructor; [|exact H2]. unfold superDeclared. simpl.
              intros _. now apply Hall.
           ++ now inversion H2.
        -- split.
           ++ intros [H1 _]. now destruct errs.
           ++ intros [_ H2]. inversion H2 as [|? ? Hh _]; subst.
              unfold superDeclared in Hh. simpl in Hh.
              apply Hall in Hh; [congruence | exact Ee].
    + split; intros [H1 H2]; (split; [exact H1|]).
      * constructor; [|exact H2]. exact I.
      * now inversion H2.
Qed.

Lemma checkVar_clean (names : list string) (l : list Stmt) :
  forall tc,
    (forall c, JSMap.has (classes tc) c = true <-> In c names) ->
    (errors (fold_left checkVar l tc) = [] <->
     errors tc = [] /\ Forall (variableTyped names) l).
Proof.
  induction l as [|s l IH]; intros tc Hall; simpl.
  - split; [intros H; split; [exact H | constructor] | tauto].
  - assert (Hstep : forall c, JSMap.has (classes (checkVar tc s)) c = true <-> In c names).
    { intros c. rewrite <- Hall.
      destruct s; simpl; try tauto.
      match goal with |- context [if ?b then _ else _] => destruct b end; simpl; tauto. }
    rewrite (IH _ Hstep).
    destruct s as [| | x ty init | | | |]; simpl;
      try (split; intros [H1 H2];
           (split; [exact H1 | first [constructor; [exact I | exact H2]
                                     | now inversion H2]])).
    destruct (typeExists tc ty) eqn:Ht; simpl.
    + apply typeExists_iff in Ht.
      split; intros [H1 H2]; (split; [exact H1|]).
      * constructor; [|exact H2]. simpl.
        destruct Ht as [Ht | Ht]; [left; exact Ht | right; now apply Hall].
      * now inversion H2.
    + split.
      * intros [H1 _]. now destruct (errors tc).
      * intros [_ H2]. inversion H2 as [|? ? Hv _]; subst. simpl in Hv.
        assert (typeExists tc ty = true); [|congruence].
        apply typeExists_iff. destruct Hv as [Hv | Hv]; [left; exact Hv|].
        right. now apply Hall.
Qed.

(** [check], on a fresh checker, returns no error for exactly the programs
    that declare no class name twice, name no super class that is not
    declared, and give every top-level variable a built-in type, in one of
    the eight spellings, or a declared class. *)
Theorem check_accepts_exactly_the_well_declared (program : Program) :
  errors (check TypeCheck.new program) = [] <-> WellDeclared program.
Proof.
  unfold check, WellDeclared. cbv zeta.
  set (stmts := body program).
  set (tc1 := fold_left collectHeader stmts TypeCheck.new).
  set (tc2 := fold_left fillMembers stmts tc1).
  destruct (fillMembers_keeps stmts tc1) as [He2 Hh2]. fold tc2 in He2, Hh2.
  assert (Hall : forall c, JSMap.has (classes tc2) c = true <-> In c (classNames stmts)).
  { intros c. unfold tc2, tc1. rewrite fillMembers_has, collectHeader_has. simpl.
    apply declares_classNames. }
  rewrite (checkVar_clean (classNames stmts)) by exact Hall. simpl.
  unfold JSMap.entries.
  rewrite (checkSuper_clean (classes tc2) (classNames stmts) Hall). rewrite He2, Hh2.
  split.
  - intros [[He1 Hsup] Hvar].
    destruct (collectHeader_clean stmts TypeCheck.new He1) as [Hnd Hfresh].
    destruct (collectHeader_result stmts TypeCheck.new eq_refl Hnd Hfresh) as [_ Hh1].
    fold tc1 in Hh1. rewrite Hh1 in Hsup. auto.
  - intros (Hnd & Hsup & Hvar).
    destruct (collectHeader_result stmts TypeCheck.new eq_refl Hnd) as [He1 Hh1];
      [reflexivity|].
    fold tc1 in He1, Hh1. rewrite Hh1. auto.
Qed.

(** *** The subtype test is transitive *)

Lemma Reaches_through (tc : TypeCheck.t) (b c : string) (cur : option string) :
  Reaches tc b cur -> b <> c -> Reaches tc c (superOf tc b) -> Reaches tc c cur.
Proof.
  intros Hb Hne Hc.
  induction Hb as [x Hx -> | x Hx Hxb _ IH].
  - now apply Reaches_next.
  - destruct (String.eqb x c) eqn:E.
    + apply String.eqb_eq in E. now apply Reaches_here.
    + apply String.eqb_neq in E. now apply Reaches_next.
Qed.

Lemma isSubtype_true (tc : TypeCheck.t) (a b : string) :
  (exists fuel, isSubtype tc fuel a b = Some true) <->
  a = b \/
  (a <> "Void" /\ b <> "Void" /\ JSMap.has (classes tc) a = true /\
   JSMap.has (classes tc) b = true /\ Reaches tc b (superOf tc a)).
Proof.
  unfold isSubtype.
  destruct (String.eqb a b) eqn:Eab.
  { apply String.eqb_eq in Eab. split; [auto | intros _; now exists 0]. }
  apply String.eqb_neq in Eab.
  destruct (String.eqb a "Void") eqn:Ea; simpl.
  { apply String.eqb_eq in Ea. split; [intros [_ H]; discriminate|].
    intros [H | (H & _)]; contradiction. }
  destruct (String.eqb b "Void") eqn:Eb; simpl.
  { apply String.eqb_eq in Eb. split; [intros [_ H]; discriminate|].
    intros [H | (_ & H & _)]; contradiction. }
  apply String.eqb_neq in Ea, Eb.
  destruct (JSMap.has (classes tc) a) eqn:Ha; simpl.
  2:{ split; [intros [_ H]; discriminate|].
      intros [H | (_ & _ & H & _)]; [contradiction | discriminate]. }
  destruct (JSMap.has (classes tc) b) eqn:Hb; simpl.
  2:{ split; [intros [_ H]; discriminate|].
      intros [H | (_ & _ & _ & H & _)]; [contradiction | discriminate]. }
  split.
  - intros [fuel H]. right. repeat split; auto. eapply superWalk_true; eauto.
  - intros [H | (_ & _ & _ & _ & H)]; [contradiction | now apply Reaches_superWalk].
Qed.

(** [isSubtype] is transitive: when it answers true for [a], [b] and for
    [b], [c], it answers true for [a], [c]. *)
Theorem isSubtype_is_transitive (tc : TypeCheck.t) (a b c : string) :
  (exists fuel, isSubtype tc fuel a b = Some true) ->
  (exists fuel, isSubtype tc fuel b c = Some true) ->
  exists fuel, isSubtype tc fuel a c = Some true.
Proof.
  rewrite !isSubtype_true.
  intros [-> | (Ha & Hb & Hca & Hcb & Hab)] [<- | (Hb' & Hc & Hcb' & Hcc & Hbc)].
  - now left.
  - right. auto.
  - right. auto.
  - destruct (String.eqb a c) eqn:E; [apply String.eqb_eq in E; auto|].
    apply String.eqb_neq in E. right. repeat split; auto.
    destruct (String.eqb b c) eqn:Ebc.
    + apply String.eqb_eq in Ebc. now subst.
    + apply String.eqb_neq in Ebc. eapply Reaches_through; eauto.
Qed.

(** On the table of [threeClasses], [C] is a subtype of [B] and [B] of [A],
    so [C] is a subtype of [A]. *)
Lemma isSubtype_is_transitive_witness :
  exists fuel, isSubtype (check TypeCheck.new threeClasses) fuel "C" "A" = Some true.
Proof.
  apply (isSubtype_is_transitive (check TypeCheck.new threeClasses) "C" "B" "A").
  - exists 1. reflexivity.
  - exists 1. reflexivity.
Defined.

(** [threeClasses] declares each class once and each super class it names:
    [check] returns no error for it. *)
Lemma check_accepts_witness :
  errors (check TypeCheck.new threeClasses) = [].
Proof.
  apply (proj2 (check_accepts_exactly_the_well_declared threeClasses)).
  repeat split.
  - repeat constructor; simpl; intuition discriminate.
  - repeat constructor; unfold superDeclared; simpl; intros _; tauto.
  - repeat constructor.
Defined.

(** Scenarios S5 and S6, from the source text on: two declarations of [Foo]
    are one error, and an unknown super class is one error. *)
Theorem duplicate_class_and_unknown_super_are_reported :
  Main.interpret 20 [] "class Foo {} class Foo {}"
  = Main.TypeErrors ["Duplicate class Foo"] /\
  Main.interpret 20 [] "class A extends B {}"
  = Main.TypeErrors ["Class A extends unknown B"].
Proof. split; vm_compute; reflexivity. Qed.

End TypeCheckFacts.

(* ------------------------------------------------------------------ *)
(** ** The interpreter *)

Module RuntimeFacts.

Import AST Runtime Notions JSMapFacts.

(** An identifier is read from [globals] whatever [target] is. *)
Lemma evalExpr_Identifier (n : nat) (x : string) (fr : Frame) :
  evalExpr (S n) (Identifier x) fr =
  match JSMap.get (globals (rt fr)) x with
  | Some v => Ok v fr
  | None => Error ("Unknown identifier " ++ x)
  end.
Proof. reflexivity. Qed.

(** [new C(args)] allocates the fields and returns: the arguments are not
    evaluated and no constructor body runs. *)
Lemma evalExpr_NewExpr (n : nat) (c : string) (args : list Expr) (fr : Frame) :
  evalExpr (S n) (NewExpr c args) fr =
  match JSMap.get (classes (rt fr)) c with
  | None => Error ("Unknown class " ++ c)
  | Some cls =>
      Ok (VObject c (List.length (heap (rt fr))))
         (mkFrame (target fr)
                  (setHeap (rt fr) (heap (rt fr) ++ [nullFields (members cls)])))
  end.
Proof.
  cbn [evalExpr]. destruct (JSMap.get (classes (rt fr)) c) as [cls|]; [|reflexivity].
  destruct (find isConstructor (members cls)); reflexivity.
Qed.

(** C1 fails on the code: an identifier is looked up in [globals] only,
    whatever [target] holds.  A parameter is unknown inside its method, so is
    a local [let], and where a global has the parameter's name the global is
    what is read. *)
Theorem C1_identifier_reads_globals_only :
  (forall n x fr,
      evalExpr (S n) (Identifier x) fr =
      match JSMap.get (globals (rt fr)) x with
      | Some v => Ok v fr
      | None => Error ("Unknown identifier " ++ x)
      end) /\
  Main.interpret 20 [] "class A { id(x: int): int { return x } } print(A.id(5))"
  = Main.RuntimeError "Unknown identifier x" /\
  Main.interpret 20 [] "class A { f(): int { let y: int = 1 return y } } print(A.f())"
  = Main.RuntimeError "Unknown identifier y" /\
  Main.output
    (Main.interpret 20 [] "let x: int = 1 class A { id(x: int): int { return x } } print(A.id(5))")
  = Some (logLine ["1"]).
Proof.
  split; [exact evalExpr_Identifier|].
  repeat split; vm_compute; reflexivity.
Qed.

(** C2 fails on the code: a [return] inside an [if] of a method body does
    not end the method.  The statements after the [if] run and the call's
    result is that of a later [return]. *)
Theorem C2_return_inside_if_does_not_end_the_method :
  Main.output
    (Main.interpret 20 []
       "class A { f(): int { if (1) { return 1 } print(5) return 2 } } print(A.f())")
  = Some (logLine ["5"] ++ logLine ["2"])%string.
Proof. vm_compute. reflexivity. Qed.

(** C3 fails on the code: [new] runs no constructor and does not even
    evaluate the arguments, so a field the constructor assigns stays null. *)
Theorem C3_new_runs_no_constructor :
  (forall n c args fr,
      evalExpr (S n) (NewExpr c args) fr =
      match JSMap.get (classes (rt fr)) c with
      | None => Error ("Unknown class " ++ c)
      | Some cls =>
          Ok (VObject c (List.length (heap (rt fr))))
             (mkFrame (target fr)
                      (setHeap (rt fr) (heap (rt fr) ++ [nullFields (members cls)])))
      end) /\
  Main.output
    (Main.interpret 20 []
       "class P { x: int constructor(v: int) { this.x = v } } let p: P = new P(5) print(p.x)")
  = Some (logLine ["null"]).
Proof. split; [exact evalExpr_NewExpr | vm_compute; reflexivity]. Qed.

(** *** Method calls *)

Lemma evalExpr_static_call (n : nat) (co : Expr) (m : string) (args : list Expr)
      (fr fr1 fr2 : Frame) (cn : string) (method : Method) (vs : list Value) :
  evalExpr n co fr = Ok (VClass cn) fr1 ->
  findMethod n cn m fr1 = Ok (Some method) fr1 ->
  evalArgs (evalExpr n) args fr1 = Ok vs fr2 ->
  evalExpr (S n) (CallExpr (FieldAccessExpr co m) args) fr =
  withTarget (bindParams (params method) vs (JSMap.copy (targetEnv fr2)))
             (execBody (evalExpr n) (execStmt n) (body method)) fr2.
Proof.
  intros Hco Hfind Hargs. cbn [evalExpr].
  unfold bind at 1. rewrite Hco.
  unfold bind at 1. rewrite Hfind.
  unfold bind at 1. rewrite Hargs. reflexivity.
Qed.

Lemma evalExpr_instance_call (n : nat) (co : Expr) (m : string) (args : list Expr)
      (fr fr1 fr2 : Frame) (cn : string) (ref : nat) (method : Method)
      (vs : list Value) :
  evalExpr n co fr = Ok (VObject cn ref) fr1 ->
  findMethod n cn m fr1 = Ok (Some method) fr1 ->
  evalArgs (evalExpr n) args fr1 = Ok vs fr2 ->
  evalExpr (S n) (CallExpr (FieldAccessExpr co m) args) fr =
  withTarget (bindParams (params method) vs
                         (JSMap.set (JSMap.copy (targetEnv fr2)) "this" (VObject cn ref)))
             (execBody (evalExpr n) (execStmt n) (body method)) fr2.
Proof.
  intros Hco Hfind Hargs. cbn [evalExpr].
  unfold bind at 1. rewrite Hco.
  unfold bind at 1. rewrite Hfind.
  unfold bind at 1. rewrite Hargs. reflexivity.
Qed.

(** Every argument yields a value. *)
Lemma evalArgs_length (evalE : Expr -> M Value) (args : list Expr) :
  forall vs fr fr', evalArgs evalE args fr = Ok vs fr' -> List.length vs = List.length args.
Proof.
  induction args as [|a args IH]; intros vs fr fr' H; simpl in H.
  - injection H as <- _. reflexivity.
  - unfold bind in H.
    destruct (evalE a fr) as [v fr1| |]; try discriminate.
    destruct (evalArgs evalE args fr1) as [vs' fr2| |] eqn:E; try discriminate.
    injection H as <- _. simpl. f_equal. eapply IH; eauto.
Qed.

(** The arguments are evaluated from left to right, each in the frame the
    one before it left. *)
Lemma evalArgs_app (evalE : Expr -> M Value) (xs ys : list Expr) :
  forall fr,
    evalArgs evalE (xs ++ ys) fr =
    (vs1 <- evalArgs evalE xs ;; vs2 <- evalArgs evalE ys ;; ret (vs1 ++ vs2)) fr.
Proof.
  induction xs as [|a xs IH]; intros fr; simpl.
  - unfold bind, ret. destruct (evalArgs evalE ys fr); reflexivity.
  - unfold bind, ret in *.
    destruct (evalE a fr) as [v fr1| |]; try reflexivity.
    rewrite IH.
    destruct (evalArgs evalE xs fr1) as [vs1 fr2| |]; try reflexivity.
    destruct (evalArgs evalE ys fr2); reflexivity.
Qed.

(** The parameter loop sets one entry for each index below both lengths. *)
Lemma bindParams_setParams (ps : list Param) :
  forall vs env, bindParams ps vs env = setParams (combine ps vs) env.
Proof.
  induction ps as [|p ps IH]; intros [|v vs] env; simpl; try reflexivity.
  apply IH.
Qed.

(** The loop leaves every name alone that is no name of a parameter it binds. *)
Lemma bindParams_get_other (ps : list Param) (x : string) :
  forall vs env,
    (forall p, In p (firstn (List.length vs) ps) -> AST.name p <> x) ->
    JSMap.get (bindParams ps vs env) x = JSMap.get env x.
Proof.
  induction ps as [|p ps IH]; intros [|v vs] env H; simpl in *; try reflexivity.
  rewrite IH by (intros q Hq; apply H; now right).
  apply get_set_other. apply H. now left.
Qed.

(** C9, as stated, fails in its last clause: an unbound parameter is not
    always absent from the method's environment.  [A.f(1)], with [f] declared
    on [x] and [y] and a global [y] equal to 7, runs the body of [f] in an
    environment where [y] is 7, the entry cloned from the caller. *)
Lemma C9_unbound_parameter_can_be_present :
  evalExpr 3 callWithOneArgument (mkFrame Globals globalNamedLikeParamRun) =
  withTarget (bindParams [mkParam "x" "int"; mkParam "y" "int"]
                         [VInt (JSNumber.Fin 1)]
                         (JSMap.copy (globals globalNamedLikeParamRun)))
             (execBody (evalExpr 2) (execStmt 2)
                       [ReturnStmt (Some (IntLiteral (JSNumber.Fin 0)))])
             (mkFrame Globals globalNamedLikeParamRun) /\
  JSMap.get (bindParams [mkParam "x" "int"; mkParam "y" "int"]
                        [VInt (JSNumber.Fin 1)]
                        (JSMap.copy (globals globalNamedLikeParamRun))) "y"
  = Some (VInt (JSNumber.Fin 7)).
Proof. split; reflexivity. Qed.

(** C9, amended.  A method call, on a class or on an object, checks no arity:
    once the receiver, the method and the values [vs] of all the arguments are
    there, the call is the run of the body in the clone of the caller's
    environment ([this] added for an object) after the parameter loop.  The
    arguments are all evaluated, left to right.  The loop sets one entry per
    index below both lengths, min(parameters, arguments) entries in all, so
    surplus arguments bind nothing; and a name that is no bound parameter's
    keeps what the clone held for it: an unbound parameter is absent only
    when the caller's environment has no entry of that name. *)
Theorem C9_call_binds_min_of_params_and_args :
  (forall n co m args fr fr1 fr2 cn method vs,
      evalExpr n co fr = Ok (VClass cn) fr1 ->
      findMethod n cn m fr1 = Ok (Some method) fr1 ->
      evalArgs (evalExpr n) args fr1 = Ok vs fr2 ->
      List.length vs = List.length args /\
      evalExpr (S n) (CallExpr (FieldAccessExpr co m) args) fr =
      withTarget (bindParams (params method) vs (JSMap.copy (targetEnv fr2)))
                 (execBody (evalExpr n) (execStmt n) (body method)) fr2) /\
  (forall n co m args fr fr1 fr2 cn ref method vs,
      evalExpr n co fr = Ok (VObject cn ref) fr1 ->
      findMethod n cn m fr1 = Ok (Some method) fr1 ->
      evalArgs (evalExpr n) args fr1 = Ok vs fr2 ->
      List.length vs = List.length args /\
      evalExpr (S n) (CallExpr (FieldAccessExpr co m) args) fr =
      withTarget (bindParams (params method) vs
                             (JSMap.set (JSMap.copy (targetEnv fr2)) "this"
                                        (VObject cn ref)))
                 (execBody (evalExpr n) (execStmt n) (body method)) fr2) /\
  (forall evalE xs ys fr,
      evalArgs evalE (xs ++ ys) fr =
      (vs1 <- evalArgs evalE xs ;; vs2 <- evalArgs evalE ys ;; ret (vs1 ++ vs2)) fr) /\
  (forall ps vs env,
      bindParams ps vs env = setParams (combine ps vs) env /\
      List.length (combine ps vs) = Nat.min (List.length ps) (List.length vs)) /\
  (forall ps vs env x,
      (forall p, In p (firstn (List.length vs) ps) -> AST.name p <> x) ->
      JSMap.get (bindParams ps vs env) x = JSMap.get env x).
Proof.
  repeat apply conj.
  - intros n co m args fr fr1 fr2 cn method vs Hco Hfind Hargs. split.
    + eapply evalArgs_length; eauto.
    + eapply evalExpr_static_call; eauto.
  - intros n co m args fr fr1 fr2 cn ref method vs Hco Hfind Hargs. split.
    + eapply evalArgs_length; eauto.
    + eapply evalExpr_instance_call; eauto.
  - exact evalArgs_app.
  - intros ps vs env. split; [apply bindParams_setParams | apply length_combine].
  - intros ps vs env x. apply bindParams_get_other.
Qed.

(** The amended C9 at [A.f(1)], one argument for two parameters: no error, the
    body's value. *)
Lemma C9_call_witness :
  List.length [VInt (JSNumber.Fin 1)] = List.length [IntLiteral (JSNumber.Fin 1)] /\
  evalExpr 3 callWithOneArgument (mkFrame Globals globalNamedLikeParamRun) =
  Ok (VInt (JSNumber.Fin 0)) (mkFrame Globals globalNamedLikeParamRun).
Proof.
  exact (proj1 C9_call_binds_min_of_params_and_args 2 (Identifier "A") "f"
               [IntLiteral (JSNumber.Fin 1)]
               (mkFrame Globals globalNamedLikeParamRun)
               (mkFrame Globals globalNamedLikeParamRun)
               (mkFrame Globals globalNamedLikeParamRun)
               "A"
               (mkMethod "f" [mkParam "x" "int"; mkParam "y" "int"] "int"
                         [ReturnStmt (Some (IntLiteral (JSNumber.Fin 0)))])
               [VInt (JSNumber.Fin 1)] eq_refl eq_refl eq_refl).
Defined.

(** *** What evaluation keeps *)

Lemma Extends_refl (fr : Frame) : Extends fr fr.
Proof.
  constructor; auto.
  - exists []. now rewrite app_nil_r.
  - destruct (target fr); exact I.
Qed.

Lemma sameKind_trans (a b c : Target) : sameKind a b -> sameKind b c -> sameKind a c.
Proof. destruct a, b, c; simpl; tauto. Qed.

Lemma sameKind_isLocal (a b : Target) : sameKind a b -> isLocal a -> isLocal b.
Proof. destruct a, b; simpl; tauto. Qed.

Lemma Extends_trans (a b c : Frame) : Extends a b -> Extends b c -> Extends a c.
Proof.
  intros [C1 R1 [m1 O1] H1 K1 T1 G1] [C2 R2 [m2 O2] H2 K2 T2 G2].
  constructor.
  - congruence.
  - congruence.
  - exists (m1 ++ m2). rewrite O2, O1. now rewrite app_assoc.
  - lia.
  - auto.
  - eapply sameKind_trans; eauto.
  - intros L. rewrite G2, G1; auto. eapply sameKind_isLocal; eauto.
Qed.

Lemma Monotone_ret {A : Type} (a : A) : Monotone (ret a).
Proof. intros fr x fr' H. injection H as _ <-. apply Extends_refl. Qed.

Lemma Monotone_throw {A : Type} (msg : string) : Monotone (@throw A msg).
Proof. intros fr x fr' H. discriminate. Qed.

Lemma Monotone_outOfFuel {A : Type} : Monotone (@outOfFuel A).
Proof. intros fr x fr' H. discriminate. Qed.

Lemma Monotone_bind {A B : Type} (m : M A) (k : A -> M B) :
  Monotone m -> (forall a, Monotone (k a)) -> Monotone (bind m k).
Proof.
  intros Hm Hk fr b fr' H. unfold bind in H.
  destruct (m fr) as [a fr1| |] eqn:E; try discriminate.
  eapply Extends_trans; [eapply Hm | eapply Hk]; eauto.
Qed.

Lemma Monotone_targetSet (x : string) (v : Value) : Monotone (targetSet x v).
Proof.
  intros fr a fr' H. unfold targetSet in H.
  destruct (target fr) eqn:T; injection H as _ <-.
  - constructor; simpl; auto.
    + exists []. now rewrite app_nil_r.
    + intros k Hk. rewrite has_set, Hk. apply orb_true_r.
    + now rewrite T.
    + rewrite T. simpl. contradiction.
  - constructor; simpl; auto.
    + exists []. now rewrite app_nil_r.
    + now rewrite T.
Qed.

Lemma Monotone_consoleLog (args : list string) : Monotone (consoleLog args).
Proof.
  intros fr a fr' H. injection H as _ <-.
  constructor; simpl; auto.
  - now exists [args].
  - destruct (target fr); exact I.
Qed.

Lemma Monotone_alloc (fields : Env) : Monotone (alloc fields).
Proof.
  intros fr a fr' H. injection H as _ <-.
  constructor; simpl; auto.
  - exists []. now rewrite app_nil_r.
  - rewrite length_app. lia.
  - destruct (target fr); exact I.
Qed.

Lemma updateNth_length {A : Type} (f : A -> A) (l : list A) :
  forall i, List.length (updateNth l i f) = List.length l.
Proof.
  induction l as [|x l IH]; intros [|i]; simpl; auto.
Qed.

Lemma Monotone_fieldSet (ref : nat) (field : string) (v : Value) :
  Monotone (fieldSet ref field v).
Proof.
  intros fr a fr' H. injection H as _ <-.
  constructor; simpl; auto.
  - exists []. now rewrite app_nil_r.
  - now rewrite updateNth_length.
  - destruct (target fr); exact I.
Qed.

Lemma Monotone_fieldGet (ref : nat) (field : string) : Monotone (fieldGet ref field).
Proof.
  intros fr a fr' H. unfold fieldGet in H.
  destruct (nth_error (heap (rt fr)) ref) as [fs|];
    [destruct (JSMap.get fs field)|]; injection H as _ <-; apply Extends_refl.
Qed.

Lemma Monotone_findMethod (n : nat) (cn m : string) : Monotone (findMethod n cn m).
Proof.
  intros fr a fr' H. unfold findMethod in H.
  destruct (findMethodLoop _ _ _ _); [|discriminate].
  injection H as _ <-. apply Extends_refl.
Qed.

(** A method body leaves the caller's [target] as it was and, running on a
    map of its own, the globals too. *)
Lemma Monotone_withTarget {A : Type} (localEnv : Frame -> Env) (m : M A) :
  Monotone m -> Monotone (fun fr => withTarget (localEnv fr) m fr).
Proof.
  intros Hm fr a fr' H. unfold withTarget in H.
  destruct (m (mkFrame (Local (localEnv fr)) (rt fr))) as [x fr1| |] eqn:E;
    try discriminate.
  injection H as _ <-.
  destruct (Hm _ _ _ E) as [C R O Hh K T G]. simpl in *.
  constructor; simpl; auto.
  destruct (target fr); exact I.
Qed.

Lemma Monotone_evalArgs (evalE : Expr -> M Value) (args : list Expr) :
  (forall a, Monotone (evalE a)) -> Monotone (evalArgs evalE args).
Proof.
  intros He. induction args as [|a args IH]; simpl.
  - apply Monotone_ret.
  - apply Monotone_bind; [apply He | intros v].
    apply Monotone_bind; [exact IH | intros vs; apply Monotone_ret].
Qed.

Lemma Monotone_execBlock (execS : Stmt -> M bool) (stmts : list Stmt) :
  (forall s, Monotone (execS s)) -> Monotone (execBlock execS stmts).
Proof.
  intros Hs. induction stmts as [|s stmts IH]; simpl.
  - apply Monotone_ret.
  - apply Monotone_bind; [apply Hs | intros [|]]; [apply Monotone_ret | exact IH].
Qed.

Lemma Monotone_execBody (evalE : Expr -> M Value) (execS : Stmt -> M bool)
      (stmts : list Stmt) :
  (forall e, Monotone (evalE e)) -> (forall s, Monotone (execS s)) ->
  Monotone (execBody evalE execS stmts).
Proof.
  intros He Hs. induction stmts as [|s stmts IH]; simpl.
  - apply Monotone_ret.
  - assert (Hstep : Monotone (execS s ;;; execBody evalE execS stmts))
      by (apply Monotone_bind; [apply Hs | intros _; exact IH]).
    destruct s; try exact Hstep.
    destruct expr; [apply He | apply Monotone_ret].
Qed.

Lemma Monotone_new_object (c : string) (ms : list ClassMember) :
  Monotone (ref <- alloc (nullFields ms) ;;
            match find isConstructor ms with
            | Some _ => ret (VObject c ref)
            | None => ret (VObject c ref)
            end).
Proof.
  apply Monotone_bind; [apply Monotone_alloc | intros ref].
  destruct (find isConstructor ms); apply Monotone_ret.
Qed.

Ltac monotone_step :=
  first
    [ apply Monotone_ret | apply Monotone_throw | apply Monotone_outOfFuel
    | apply Monotone_targetSet | apply Monotone_consoleLog | apply Monotone_alloc
    | apply Monotone_fieldSet | apply Monotone_fieldGet | apply Monotone_findMethod
    | apply Monotone_evalArgs; intros
    | apply Monotone_execBlock; intros
    | apply Monotone_execBody; intros
    | apply Monotone_withTarget
    | apply Monotone_bind; [|intros]
    | match goal with
      | H : forall e, Monotone (evalExpr ?n e) |- Monotone (evalExpr ?n _) => apply H
      | H : forall s, Monotone (execStmt ?n s) |- Monotone (execStmt ?n _) => apply H
      | |- Monotone (match ?x with _ => _ end) => destruct x
      | |- Monotone (if ?x then _ else _) => destruct x
      end ].

Lemma Monotone_eval_exec :
  forall fuel,
    (forall e, Monotone (evalExpr fuel e)) /\ (forall s, Monotone (execStmt fuel s)).
Proof.
  induction fuel as [|n [IHe IHs]]; split; intros x; simpl;
    try apply Monotone_outOfFuel.
  - destruct x; repeat monotone_step.
    + intros fr a fr' H.
      match type of H with
      | context [JSMap.get ?m ?k] => destruct (JSMap.get m k)
      end; [|discriminate].
      injection H as _ <-. apply Extends_refl.
    + intros fr a fr' H.
      match type of H with
      | context [JSMap.get ?m ?k] => destruct (JSMap.get m k) as [cls|]
      end; [|discriminate].
      eapply Monotone_new_object. exact H.
  - destruct x; repeat monotone_step.
Qed.

(** Evaluating an expression or executing a statement never changes the class
    table or [hasReturned], never removes a line [console.log] was given, an
    object of the heap or a global, and changes no global at all when
    [target] is a method's own map. *)
Theorem evaluation_only_extends_the_runtime (fuel : nat) :
  (forall e fr v fr', evalExpr fuel e fr = Ok v fr' -> Extends fr fr') /\
  (forall s fr b fr', execStmt fuel s fr = Ok b fr' -> Extends fr fr').
Proof.
  destruct (Monotone_eval_exec fuel) as [He Hs].
  split; [intros e fr v fr' H; exact (He e _ _ _ H)
         | intros st fr b fr' H; exact (Hs st _ _ _ H)].
Qed.

(** The invariant at the call [A.f(1)] of [callWithOneArgument]. *)
Lemma evaluation_only_extends_witness :
  Extends (mkFrame Globals globalNamedLikeParamRun)
          (mkFrame Globals globalNamedLikeParamRun).
Proof.
  exact (proj1 (evaluation_only_extends_the_runtime 3) callWithOneArgument
               (mkFrame Globals globalNamedLikeParamRun)
               (VInt (JSNumber.Fin 0))
               (mkFrame Globals globalNamedLikeParamRun) eq_refl).
Defined.

(** A method call changes no variable of its caller and no global: when it
    returns, [target] and the globals are as the evaluation of the arguments
    left them, whatever the body assigned or declared. *)
Theorem method_call_keeps_the_callers_variables
        (n : nat) (co : Expr) (m : string) (args : list Expr)
        (fr fr1 fr2 fr3 : Frame) (recv : Value) (cn : string) (method : Method)
        (vs : list Value) (v : Value) :
  evalExpr n co fr = Ok recv fr1 ->
  (recv = VClass cn \/ exists ref, recv = VObject cn ref) ->
  findMethod n cn m fr1 = Ok (Some method) fr1 ->
  evalArgs (evalExpr n) args fr1 = Ok vs fr2 ->
  evalExpr (S n) (CallExpr (FieldAccessExpr co m) args) fr = Ok v fr3 ->
  target fr3 = target fr2 /\ globals (rt fr3) = globals (rt fr2).
Proof.
  intros Hco Hrecv Hfind Hargs Hcall.
  assert (Hbody : exists env,
             withTarget env (execBody (evalExpr n) (execStmt n) (body method)) fr2
             = Ok v fr3).
  { destruct Hrecv as [-> | [ref ->]].
    - rewrite (evalExpr_static_call _ _ _ _ _ _ _ _ _ _ Hco Hfind Hargs) in Hcall. eauto.
    - rewrite (evalExpr_instance_call _ _ _ _ _ _ _ _ _ _ _ Hco Hfind Hargs) in Hcall.
      eauto. }
  destruct Hbody as [env Hbody]. unfold withTarget in Hbody.
  destruct (execBody (evalExpr n) (execStmt n) (body method)
                     (mkFrame (Local env) (rt fr2))) as [x fr'| |] eqn:E;
    try discriminate.
  injection Hbody as _ <-. simpl. split; [reflexivity|].
  destruct (Monotone_eval_exec n) as [He Hs].
  pose proof (Monotone_execBody _ _ (body method) He Hs _ _ _ E) as Hext.
  apply (ext_globals _ _ Hext). exact I.
Qed.

(** The property at the call [A.f(1)] of [callWithOneArgument]. *)
Lemma method_call_keeps_witness :
  target (mkFrame Globals globalNamedLikeParamRun) = Globals /\
  globals (rt (mkFrame Globals globalNamedLikeParamRun))
  = globals globalNamedLikeParamRun.
Proof.
  exact (method_call_keeps_the_callers_variables
           2 (Identifier "A") "f" [IntLiteral (JSNumber.Fin 1)]
           (mkFrame Globals globalNamedLikeParamRun)
           (mkFrame Globals globalNamedLikeParamRun)
           (mkFrame Globals globalNamedLikeParamRun)
           (mkFrame Globals globalNamedLikeParamRun)
           (VClass "A") "A"
           (mkMethod "f" [mkParam "x" "int"; mkParam "y" "int"] "int"
                     [ReturnStmt (Some (IntLiteral (JSNumber.Fin 0)))])
           [VInt (JSNumber.Fin 1)] (VInt (JSNumber.Fin 0))
           eq_refl (or_introl eq_refl) eq_refl eq_refl eq_refl).
Defined.

(** [run] never takes its [break]: nothing sets [hasReturned], so every
    top-level statement is executed, in order, unless one throws. *)
Theorem run_executes_every_statement (fuel : nat) (stmts : list Stmt) :
  forall fr,
    hasReturned (rt fr) = false ->
    runLoop fuel stmts fr = execAll fuel stmts fr.
Proof.
  induction stmts as [|s stmts IH]; intros fr Hfalse; simpl; [reflexivity|].
  unfold bind. destruct (execStmt fuel s fr) as [b fr'| |] eqn:E; try reflexivity.
  destruct (Monotone_eval_exec fuel) as [_ Hs].
  pose proof (ext_hasReturned _ _ (Hs s _ _ _ E)) as Hkeep.
  rewrite Hfalse in Hkeep. rewrite Hkeep. now apply IH.
Qed.

(** The property at the two statements of [globalNamedLikeParam]. *)
Lemma run_executes_every_statement_witness :
  runLoop 3 (AST.body globalNamedLikeParam)
          (mkFrame Globals (Runtime.new globalNamedLikeParam))
  = execAll 3 (AST.body globalNamedLikeParam)
            (mkFrame Globals (Runtime.new globalNamedLikeParam)).
Proof.
  exact (run_executes_every_statement 3 (AST.body globalNamedLikeParam)
                                      (mkFrame Globals (Runtime.new globalNamedLikeParam))
                                      eq_refl).
Defined.

(** *** Method lookup *)

(** [findMethod] returns the method of the class itself when it declares one
    of that name, and otherwise looks in the super class (property 6 of
    section 8 of the specification); so in scenario S4 a method inherited from
    [Person] runs on an [Employee]. *)
Theorem findMethod_most_derived_first :
  (forall cs fuel c m,
      findMethodLoop cs (S fuel) (Some c) m =
      match findMember (members c) m with
      | Some method => Some (Some method)
      | None =>
          match superName c with
          | Some sup =>
              if String.eqb sup "" then Some None
              else findMethodLoop cs fuel (JSMap.get cs sup) m
          | None => Some None
          end
      end) /\
  Main.output
    (Main.interpret 20 []
       ("class Person { greet(): String { return 'hello' } } " ++
        "class Employee extends Person { work(): String { return 'busy' } } " ++
        "let e: Employee = new Employee() print(e.greet(), e.work())"))
  = Some (logLine ["hello"; "busy"]).
Proof. split; [reflexivity | vm_compute; reflexivity]. Qed.

(** Scenario S2: a variable, two reassignments, and [print]. *)
Theorem counter_prints_2 :
  Main.output (Main.interpret 20 [] "let x: int = 0; x = x + 1; x = x + 1; print(x)")
  = Some (logLine ["2"]).
Proof. vm_compute. reflexivity. Qed.

(** [findMethod] walks the chain of super classes from the receiver's class
    and stops at the first class that declares a method of the name asked
    for: the method it returns has that name and is declared there, no class
    met before declares one, and when it returns [undefined] no class of the
    chain declares any. *)
Theorem findMethod_finds_the_nearest_declaration
        (cs : JSMap.t Class) (m : string) :
  forall fuel start,
    (forall method,
        findMethodLoop cs fuel start m = Some (Some method) ->
        mname method = m /\
        exists skipped d,
          Path cs start skipped d /\
          (forall c, In c skipped -> ~ declaresMethod m c) /\
          In (MethodDecl m (params method) (returnType method) (body method))
             (members d)) /\
    (findMethodLoop cs fuel start m = Some None ->
     forall skipped d, Path cs start skipped d -> ~ declaresMethod m d).
Proof.
  assert (Hnone : forall c, findMember (members c) m = None -> ~ declaresMethod m c).
  { intros c H (ps & r & b & Hin). unfold findMember in H.
    destruct (find (isMethodNamed m) (members c)) as [x|] eqn:E.
    - apply find_some in E. destruct E as [_ E].
      destruct x; try discriminate.
    - pose proof (find_none _ _ E _ Hin) as Hf. simpl in Hf.
      now rewrite String.eqb_refl in Hf. }
  assert (Hsome : forall c method,
             findMember (members c) m = Some method ->
             mname method = m /\
             In (MethodDecl m (params method) (returnType method) (body method))
                (members c)).
  { intros c method H. unfold findMember in H.
    destruct (find (isMethodNamed m) (members c)) as [x|] eqn:E; [|discriminate].
    apply find_some in E. destruct E as [Hin Hname].
    destruct x; try discriminate. injection H as <-. simpl in *.
    apply String.eqb_eq in Hname. subst. auto. }
  induction fuel as [|fuel IH]; intros start; (split; [intros method H | intros H]);
    cbn [findMethodLoop] in H; try discriminate.
  - destruct start as [c|]; [|discriminate].
    destruct (findMember (members c) m) as [found|] eqn:E.
    + injection H as <-. destruct (Hsome _ _ E) as [Hn Hin].
      split; [exact Hn|]. exists [], c. repeat split; [constructor | | exact Hin].
      intros ? [].
    + destruct (superName c) as [sup|] eqn:Es; [|discriminate].
      destruct (String.eqb sup "") eqn:Ee; [discriminate|].
      apply String.eqb_neq in Ee.
      destruct (proj1 (IH (JSMap.get cs sup)) method H) as (Hn & skipped & d & Hp & Hsk & Hin).
      split; [exact Hn|]. exists (c :: skipped), d.
      repeat split; [econstructor; eauto | | exact Hin].
      intros c' [<- | Hc']; [now apply Hnone | now apply Hsk].
  - intros skipped d Hp.
    destruct start as [c|]; [|inversion Hp].
    destruct (findMember (members c) m) as [found|] eqn:E; [discriminate|].
    inversion Hp as [c0 | c0 sup skipped' d0 Hs Hne Hp']; subst.
    + now apply Hnone.
    + rewrite Hs in H. apply String.eqb_neq in Hne. rewrite Hne in H.
      exact (proj2 (IH _) H _ _ Hp').
Qed.

(** The property on the classes of [globalNamedLikeParam]: looking [f] up
    from [A] finds a method named [f]. *)
Lemma findMethod_finds_witness :
  mname (mkMethod "f" [mkParam "x" "int"; mkParam "y" "int"] "int"
                  [ReturnStmt (Some (IntLiteral (JSNumber.Fin 0)))]) = "f" /\
  exists skipped d,
    Path (classes globalNamedLikeParamRun)
         (JSMap.get (classes globalNamedLikeParamRun) "A") skipped d /\
    (forall c, In c skipped -> ~ declaresMethod "f" c) /\
    In (MethodDecl "f" [mkParam "x" "int"; mkParam "y" "int"] "int"
                   [ReturnStmt (Some (IntLiteral (JSNumber.Fin 0)))])
       (members d).
Proof.
  exact (proj1 (findMethod_finds_the_nearest_declaration
                  (classes globalNamedLikeParamRun) "f" 1
                  (JSMap.get (classes globalNamedLikeParamRun) "A"))
               (mkMethod "f" [mkParam "x" "int"; mkParam "y" "int"] "int"
                         [ReturnStmt (Some (IntLiteral (JSNumber.Fin 0)))])
               eq_refl).
Defined.

(** *** Variables, fields and classes *)

Lemma nth_error_updateNth_same {A : Type} (f : A -> A) (l : list A) :
  forall i, nth_error (updateNth l i f) i = option_map f (nth_error l i).
Proof. induction l as [|x l IH]; intros [|i]; simpl; auto. Qed.

Lemma nth_error_updateNth_other {A : Type} (f : A -> A) (l : list A) :
  forall i j, i <> j -> nth_error (updateNth l i f) j = nth_error l j.
Proof.
  induction l as [|x l IH]; intros [|i] [|j] H; simpl; auto; try congruence.
Qed.

Lemma fieldGet_readField (ref : nat) (f : string) (fr : Frame) :
  fieldGet ref f fr = Ok (readField (rt fr) ref f) fr.
Proof.
  unfold fieldGet, readField.
  destruct (nth_error (heap (rt fr)) ref) as [fs|]; [|reflexivity].
  destruct (JSMap.get fs f); reflexivity.
Qed.

(** A field assignment [o.f = e] stores the value in the object [o] evaluates
    to, makes it what a read of that field of that object gives, through any
    variable that holds the object, leaves every other field and object as
    it was, and changes no variable; and a field read gives what the object
    holds, null when it holds nothing for the name. *)
Theorem field_assignment_then_read :
  (forall n o f val fr v fr1 cn ref fr2,
      evalExpr n val fr = Ok v fr1 ->
      evalExpr n o fr1 = Ok (VObject cn ref) fr2 ->
      ref < List.length (heap (rt fr2)) ->
      exists fr3,
        evalExpr (S n) (AssignmentExpr (FieldAccessExpr o f) val) fr = Ok v fr3 /\
        target fr3 = target fr2 /\
        globals (rt fr3) = globals (rt fr2) /\
        readField (rt fr3) ref f = v /\
        forall ref' f', ref' <> ref \/ f' <> f ->
                        readField (rt fr3) ref' f' = readField (rt fr2) ref' f') /\
  (forall n o f fr cn ref fr1,
      evalExpr n o fr = Ok (VObject cn ref) fr1 ->
      evalExpr (S n) (FieldAccessExpr o f) fr = Ok (readField (rt fr1) ref f) fr1).
Proof.
  split.
  - intros n o f val fr v fr1 cn ref fr2 Hval Ho Href.
    eexists. split.
    { cbn [evalExpr]. unfold bind at 1. rewrite Hval.
      unfold bind at 1. rewrite Ho. reflexivity. }
    simpl. repeat split.
    + unfold readField. simpl. rewrite nth_error_updateNth_same.
      destruct (nth_error (heap (rt fr2)) ref) as [fs|] eqn:E.
      * simpl. now rewrite get_set_same.
      * apply nth_error_None in E. lia.
    + intros ref' f' Hother. unfold readField. simpl.
      destruct (Nat.eq_dec ref ref') as [<- | Hne].
      * rewrite nth_error_updateNth_same.
        destruct (nth_error (heap (rt fr2)) ref) as [fs|]; [|reflexivity].
        simpl. rewrite get_set_other; [reflexivity|].
        destruct Hother; congruence.
      * now rewrite nth_error_updateNth_other.
  - intros n o f fr cn ref fr1 Ho. cbn [evalExpr].
    unfold bind. rewrite Ho. apply fieldGet_readField.
Qed.

(** The property at [a.x = 5] after [oneObject] has run. *)
Lemma field_assignment_witness :
  exists fr3,
    evalExpr 2 (AssignmentExpr (FieldAccessExpr (Identifier "a") "x")
                               (IntLiteral (JSNumber.Fin 5)))
             (mkFrame Globals oneObjectRun) = Ok (VInt (JSNumber.Fin 5)) fr3 /\
    target fr3 = Globals /\
    globals (rt fr3) = globals oneObjectRun /\
    readField (rt fr3) 0 "x" = VInt (JSNumber.Fin 5) /\
    forall ref' f', ref' <> 0 \/ f' <> "x" ->
                    readField (rt fr3) ref' f' = readField oneObjectRun ref' f'.
Proof.
  refine (proj1 field_assignment_then_read 1 (Identifier "a") "x"
                (IntLiteral (JSNumber.Fin 5)) (mkFrame Globals oneObjectRun)
                (VInt (JSNumber.Fin 5)) (mkFrame Globals oneObjectRun) "P" 0
                (mkFrame Globals oneObjectRun) eq_refl eq_refl _).
  simpl. lia.
Defined.

(** At the top level, where [target] is the globals, a declaration
    [let x: T = e] and an assignment [x = e] bind [x] to the value of [e],
    whatever [T] and the value are; an identifier [x] then evaluates to it,
    and the other globals are as they were. *)
Theorem toplevel_variable_then_read :
  (forall n x ty e fr v fr1,
      evalExpr n e fr = Ok v fr1 ->
      target fr1 = Globals ->
      exists fr2,
        execStmt (S n) (VarDecl x ty (Some e)) fr = Ok false fr2 /\
        (forall k, evalExpr (S k) (Identifier x) fr2 = Ok v fr2) /\
        (forall y, y <> x ->
                   JSMap.get (globals (rt fr2)) y = JSMap.get (globals (rt fr1)) y)) /\
  (forall n x e fr v fr1,
      evalExpr n e fr = Ok v fr1 ->
      target fr1 = Globals ->
      exists fr2,
        evalExpr (S n) (AssignmentExpr (Identifier x) e) fr = Ok v fr2 /\
        (forall k, evalExpr (S k) (Identifier x) fr2 = Ok v fr2) /\
        (forall y, y <> x ->
                   JSMap.get (globals (rt fr2)) y = JSMap.get (globals (rt fr1)) y)).
Proof.
  split.
  - intros n x ty e fr v fr1 He Ht. eexists. split.
    { cbn [execStmt]. unfold bind at 1. rewrite He.
      unfold bind, targetSet. rewrite Ht. reflexivity. }
    split.
    + intros k. rewrite evalExpr_Identifier. simpl. now rewrite get_set_same.
    + intros y Hy. simpl. now apply get_set_other.
  - intros n x e fr v fr1 He Ht. eexists. split.
    { cbn [evalExpr]. unfold bind at 1. rewrite He.
      unfold bind, targetSet. rewrite Ht. reflexivity. }
    split.
    + intros k. rewrite evalExpr_Identifier. simpl. now rewrite get_set_same.
    + intros y Hy. simpl. now apply get_set_other.
Qed.

(** The property at [let s: int = true] on a fresh runtime. *)
Lemma toplevel_variable_witness :
  exists fr2,
    execStmt 2 (VarDecl "s" "int" (Some (BoolLiteral true)))
             (mkFrame Globals (Runtime.new (mkProgram []))) = Ok false fr2 /\
    (forall k, evalExpr (S k) (Identifier "s") fr2 = Ok (VBool true) fr2) /\
    (forall y, y <> "s" ->
               JSMap.get (globals (rt fr2)) y
               = JSMap.get (globals (Runtime.new (mkProgram []))) y).
Proof.
  exact (proj1 toplevel_variable_then_read 1 "s" "int" (BoolLiteral true)
               (mkFrame Globals (Runtime.new (mkProgram []))) (VBool true)
               (mkFrame Globals (Runtime.new (mkProgram []))) eq_refl eq_refl).
Defined.

Lemma get_classPairs (n : string) (stmts : list Stmt) :
  forall m,
    JSMap.get (fold_left (fun (m : JSMap.t Class) kv => JSMap.set m (fst kv) (snd kv))
                         (classPairs (mkProgram stmts)) m) n =
    match lastClass n stmts with
    | Some c => Some c
    | None => JSMap.get m n
    end.
Proof.
  unfold classPairs. simpl.
  induction stmts as [|s stmts IH]; intros m; simpl; [reflexivity|].
  rewrite fold_left_app. rewrite IH.
  destruct (lastClass n stmts); [reflexivity|].
  destruct s as [| n' sup ms | | | | |]; simpl; try reflexivity.
  destruct (String.eqb n' n) eqn:E.
  - apply String.eqb_eq in E. subst. apply get_set_same.
  - apply String.eqb_neq in E. now apply get_set_other.
Qed.

Lemma lastClass_declares (n : string) (stmts : list Stmt) :
  match lastClass n stmts with Some _ => true | None => false end
  = existsb (declares n) stmts.
Proof.
  induction stmts as [|s stmts IH]; simpl; [reflexivity|].
  destruct (lastClass n stmts); simpl in *.
  - rewrite <- IH. apply eq_sym, orb_true_r.
  - rewrite <- IH, orb_false_r.
    destruct s as [| n' sup ms | | | | |]; simpl; try reflexivity.
    destruct (String.eqb n' n); reflexivity.
Qed.

Lemma get_class_globals (n : string) (l : list (string * Class)) :
  forall g : Env,
    JSMap.get (fold_left (fun (g : Env) entry =>
                            JSMap.set g (fst entry) (VClass (fst entry))) l g) n =
    if JSMap.has l n then Some (VClass n) else JSMap.get g n.
Proof.
  induction l as [|[k c] l IH]; intros g; simpl; [reflexivity|].
  rewrite IH. unfold JSMap.has. simpl.
  destruct (String.eqb k n) eqn:E.
  - apply String.eqb_eq in E. subst.
    destruct (JSMap.get l n); [reflexivity | apply get_set_same].
  - apply String.eqb_neq in E.
    destruct (JSMap.get l n); [reflexivity | now apply get_set_other].
Qed.

(** [new Runtime(program)] keeps, for each class name, the last declaration
    of that name, and makes every declared class name, and nothing else, a
    global bound to its class handle. *)
Theorem new_runtime_registers_every_class (program : Program) (n : string) :
  JSMap.get (classes (Runtime.new program)) n = lastClass n (AST.body program) /\
  JSMap.get (globals (Runtime.new program)) n =
  (if existsb (declares n) (AST.body program) then Some (VClass n) else None).
Proof.
  destruct program as [stmts].
  assert (Hc : JSMap.get (JSMap.ofList (classPairs (mkProgram stmts))) n
               = lastClass n stmts).
  { unfold JSMap.ofList. rewrite get_classPairs.
    destruct (lastClass n stmts); reflexivity. }
  split; [exact Hc|].
  unfold Runtime.new. cbn [globals]. unfold JSMap.entries.
  rewrite get_class_globals. unfold JSMap.has. rewrite Hc. simpl.
  rewrite <- lastClass_declares. destruct (lastClass n stmts); reflexivity.
Qed.

(** *** Operators *)

Lemma In_binaryOperators (op : string) :
  In op Parser.binaryOperators <->
  op = "+" \/ op = "-" \/ op = "*" \/ op = "/" \/ op = "==" \/ op = "!=" \/
  op = "<" \/ op = ">" \/ op = "<=" \/ op = ">=".
Proof. unfold Parser.binaryOperators. simpl. intuition congruence. Qed.

(** Every binary operator the parser builds is defined on two Integers and
    yields an Integer, which for a comparison is 0 or 1; [+] with a string on
    either side yields the concatenation of the two texts; and once both
    operands have a value the interpreter throws
    [Unsupported binary op or operand types] for exactly the other
    combinations. *)
Theorem binary_operators_of_the_parser_are_supported :
  (forall op a b,
      In op Parser.binaryOperators ->
      exists v, binaryOp op (VInt a) (VInt b) = Some (VInt v)) /\
  (forall op a b,
      In op comparisonOperators ->
      binaryOp op (VInt a) (VInt b) = Some (VInt (JSNumber.Fin 1)) \/
      binaryOp op (VInt a) (VInt b) = Some (VInt (JSNumber.Fin 0))) /\
  (forall l r,
      isString l = true \/ isString r = true ->
      binaryOp "+" l r = Some (VString (valToString l ++ valToString r))) /\
  (forall op l r,
      binaryOp op l r = None <->
      ~ (op = "+" /\ (isString l = true \/ isString r = true)) /\
      ~ (In op Parser.binaryOperators /\ exists a b, l = VInt a /\ r = VInt b)) /\
  (forall n op l r fr lv fr1 rv fr2,
      evalExpr n l fr = Ok lv fr1 ->
      evalExpr n r fr1 = Ok rv fr2 ->
      evalExpr (S n) (BinaryExpr op l r) fr =
      match binaryOp op lv rv with
      | Some v => Ok v fr2
      | None => Error "Unsupported binary op or operand types"
      end).
Proof.
  repeat apply conj.
  5:{ intros n op l r fr lv fr1 rv fr2 Hl Hr. cbn [evalExpr].
      unfold bind at 1. rewrite Hl. unfold bind at 1. rewrite Hr.
      destruct (binaryOp op lv rv); reflexivity. }
  - intros op a b H. apply In_binaryOperators in H.
    repeat (destruct H as [-> | H]); try subst op; eexists; reflexivity.
  - intros op a b H. unfold comparisonOperators in H. simpl in H.
    repeat (destruct H as [<- | H]); try contradiction; unfold binaryOp; simpl;
      match goal with |- context [boolInt ?c] => destruct c end; auto.
  - intros l r H. unfold binaryOp. simpl.
    destruct H as [H | H]; rewrite H; [reflexivity | now rewrite orb_true_r].
  - intros op l r. rewrite In_binaryOperators. unfold binaryOp.
    destruct (String.eqb op "+") eqn:Eplus.
    + apply String.eqb_eq in Eplus. subst op.
      destruct l, r; simpl;
        (split;
         [ intros Hn;
           first [ discriminate Hn
                 | split;
                   [ intros [_ [Hs | Hs]]; discriminate Hs
                   | intros (_ & a' & b' & Ha & Hb); congruence ] ]
         | intros [H1 H2];
           first [ reflexivity
                 | exfalso; apply H1; split; [reflexivity | simpl; auto; fail]
                 | exfalso; apply H2; split; [intuition | eauto] ] ]).
    + apply String.eqb_neq in Eplus.
      destruct l, r;
        try (split; [ intros _; split;
                      [ intros [H _]; contradiction
                      | intros (_ & a' & b' & Ha & Hb); congruence ]
                    | reflexivity ]).
      repeat match goal with
             | |- context [String.eqb op ?x] =>
                 let E := fresh "E" in
                 destruct (String.eqb op x) eqn:E;
                 [ apply String.eqb_eq in E; subst op;
                   split; [ discriminate
                          | intros [_ H]; exfalso; apply H; split; [intuition | eauto] ]
                 | apply String.eqb_neq in E ]
             end.
      split; [|reflexivity]. intros _. split; [tauto|].
      intros [H _]. intuition congruence.
Qed.

(** The property at [1 < 2]. *)
Lemma binary_operators_witness :
  exists v, binaryOp "<" (VInt (JSNumber.Fin 1)) (VInt (JSNumber.Fin 2)) = Some (VInt v).
Proof.
  refine (proj1 binary_operators_of_the_parser_are_supported "<" _ _ _).
  simpl. tauto.
Defined.

(** *** Division *)

Lemma floorDiv_by_zero (x z : JSNumber.number) :
  JSNumber.isZero z = true ->
  JSNumber.floorDiv x z = JSNumber.PosInf \/
  JSNumber.floorDiv x z = JSNumber.NegInf \/
  JSNumber.floorDiv x z = JSNumber.NaN.
Proof.
  intros Hz.
  destruct z as [z| | | |]; try discriminate.
  - destruct z; try discriminate.
    destruct x as [[|a|a]| | | |]; simpl; auto.
  - destruct x as [[|a|a]| | | |]; simpl; auto.
Qed.

(** C10: a division whose operands evaluate to Integers, the divisor to a
    zero, raises no error; its value is an Integer whose payload is
    [Math.floor] of the quotient, which is Infinity, -Infinity or NaN. *)
Theorem C10_division_by_zero_yields_a_non_finite_Integer
        (n : nat) (l r : Expr) (fr fr1 fr2 : Frame) (x z : JSNumber.number) :
  evalExpr n l fr = Ok (VInt x) fr1 ->
  evalExpr n r fr1 = Ok (VInt z) fr2 ->
  JSNumber.isZero z = true ->
  evalExpr (S n) (BinaryExpr "/" l r) fr = Ok (VInt (JSNumber.floorDiv x z)) fr2 /\
  (JSNumber.floorDiv x z = JSNumber.PosInf \/
   JSNumber.floorDiv x z = JSNumber.NegInf \/
   JSNumber.floorDiv x z = JSNumber.NaN).
Proof.
  intros Hl Hr Hz. split; [|now apply floorDiv_by_zero].
  cbn [evalExpr]. unfold bind at 1. rewrite Hl.
  unfold bind at 1. rewrite Hr. reflexivity.
Qed.

(** C10 at [7 / 0]: the Integer Infinity. *)
Lemma C10_division_by_zero_witness :
  evalExpr 2 (BinaryExpr "/" (IntLiteral (JSNumber.Fin 7)) (IntLiteral (JSNumber.Fin 0)))
           (mkFrame Globals (Runtime.new (mkProgram [])))
  = Ok (VInt JSNumber.PosInf) (mkFrame Globals (Runtime.new (mkProgram []))) /\
  (JSNumber.PosInf = JSNumber.PosInf \/ JSNumber.PosInf = JSNumber.NegInf \/
   JSNumber.PosInf = JSNumber.NaN).
Proof.
  exact (C10_division_by_zero_yields_a_non_finite_Integer
           1 (IntLiteral (JSNumber.Fin 7)) (IntLiteral (JSNumber.Fin 0))
           (mkFrame Globals (Runtime.new (mkProgram []))) _ _
           (JSNumber.Fin 7) (JSNumber.Fin 0) eq_refl eq_refl eq_refl).
Defined.

(** The non-finite Integers go on through later operations and to [print]. *)
Lemma division_by_zero_flows_on :
  Main.output (Main.interpret 20 [] "print(7 / 0 + 1, 0 / 0, 0 - 7 / 0 * 2)")
  = Some (logLine ["Infinity"; "NaN"; "-Infinity"]).
Proof. vm_compute. reflexivity. Qed.

End RuntimeFacts.

(* ------------------------------------------------------------------ *)
(** ** The parser never reads past the end *)

Module ParserSafety.

Import Lexer AST Parser Notions.

Lemma Ready_Ok {A : Type} (p p' : Parser.t) (a : A) :
  Ready p -> Allowed p (Ok a p') -> Ready p'.
Proof.
  intros [He Hp] (Ht & _ & _ & Hlt). split; rewrite Ht; assumption.
Qed.

Lemma Allowed_trans {A B : Type} (p p' : Parser.t) (a : A) (r : Result B) :
  Allowed p (Ok a p') -> Allowed p' r -> Allowed p r.
Proof.
  intros (Ht & Hs & Hle & Hlt) H. destruct r as [b p''|e| |]; simpl in *; auto.
  - destruct H as (Ht' & Hs' & Hle' & Hlt'). rewrite Ht in *.
    repeat split; try congruence; lia.
  - destruct H as (Hsrc & i & tk & Hi & Hn & Hloc). split; [congruence|].
    exists i, tk. rewrite <- Ht. repeat split; auto. lia.
Qed.

Lemma Safe_ret {A : Type} (a : A) : Safe (ret a).
Proof. intros p [_ Hp]. simpl. auto. Qed.

Lemma Safe_outOfFuel {A : Type} : Safe (@outOfFuel A).
Proof. intros p _. exact I. Qed.

Lemma Safe_bind {A B : Type} (m : P A) (k : A -> P B) :
  Safe m -> (forall a, Safe (k a)) -> Safe (bind m k).
Proof.
  intros Hm Hk p Hr. unfold bind. specialize (Hm p Hr).
  destruct (m p) as [a p'|e| |]; auto.
  eapply Allowed_trans; [exact Hm|]. apply Hk. eapply Ready_Ok; eauto.
Qed.

Lemma SafeAt_of_Safe {A : Type} (tk : Token) (m : P A) : Safe m -> SafeAt tk m.
Proof. intros H p Hr _. now apply H. Qed.

Lemma SafeAt_bind {A B : Type} (tk : Token) (m : P A) (k : A -> P B) :
  SafeAt tk m -> (forall a, Safe (k a)) -> SafeAt tk (bind m k).
Proof.
  intros Hm Hk p Hr Hn. unfold bind. specialize (Hm p Hr Hn).
  destruct (m p) as [a p'|e| |]; auto.
  eapply Allowed_trans; [exact Hm|]. apply Hk. eapply Ready_Ok; eauto.
Qed.

Lemma Safe_throwError {A : Type} (msg : string) : Safe (@throwError A msg).
Proof.
  intros p [_ Hp]. unfold throwError, peek.
  destruct (nth_error (tokens p) (pos p)) as [tk|] eqn:E.
  - simpl. split; [reflexivity|]. exists (pos p), tk. auto.
  - apply nth_error_None in E. lia.
Qed.

(** After [peek], the rest stands on the token read. *)
Lemma Safe_peek_bind {A : Type} (k : Token -> P A) :
  (forall tk, SafeAt tk (k tk)) -> Safe (bind peek k).
Proof.
  intros Hk p Hr. unfold bind, peek.
  destruct (nth_error (tokens p) (pos p)) as [tk|] eqn:E.
  - now apply Hk.
  - destruct Hr as [_ Hp]. apply nth_error_None in E. lia.
Qed.

(** Standing on a token that is not [eof], the parser may move on. *)
Lemma Ready_advance (p : Parser.t) (tk : Token) :
  Ready p -> nth_error (tokens p) (pos p) = Some tk -> isEof tk = false ->
  Ready (advance p) /\ Allowed p (Ok tt (advance p)).
Proof.
  intros [(front & l & c & Hf) Hp] Hn Hne.
  assert (Hlt : S (pos p) < List.length (tokens p)).
  { rewrite Hf in *. rewrite length_app in *. simpl in *.
    destruct (Nat.eq_dec (pos p) (List.length front)) as [E|E]; [|lia].
    rewrite E, nth_error_app2, Nat.sub_diag in Hn by lia.
    simpl in Hn. injection Hn as <-. discriminate. }
  split.
  - split; simpl; [eauto | exact Hlt].
  - simpl. repeat split; auto.
Qed.

Lemma SafeAt_next_bind {A : Type} (tk : Token) (k : option Token -> P A) :
  isEof tk = false -> (forall o, Safe (k o)) -> SafeAt tk (bind next k).
Proof.
  intros Hne Hk p Hr Hn. unfold bind, next.
  destruct (Ready_advance p tk Hr Hn Hne) as [Hr' Hal].
  eapply Allowed_trans; [exact Hal|]. now apply Hk.
Qed.

Lemma SafeAt_nextValue_bind {A : Type} (ty : TokenType) (v : string) (l c : Z)
      (k : string -> P A) :
  Safe (k v) -> SafeAt (Tok ty v l c) (bind nextValue k).
Proof.
  intros Hk p Hr Hn. unfold bind at 1, nextValue, bind at 1, next. rewrite Hn.
  destruct (Ready_advance p _ Hr Hn eq_refl) as [Hr' Hal].
  simpl. eapply Allowed_trans; [exact Hal|]. now apply Hk.
Qed.

Lemma isSym_Tok (tk : Token) (v : string) :
  isSym tk v = true -> exists l c, tk = Tok sym v l c.
Proof.
  destruct tk as [[] v' l c|]; simpl; try discriminate.
  intros H. apply String.eqb_eq in H. subst. eauto.
Qed.

Lemma isKw_Tok (tk : Token) (v : string) :
  isKw tk v = true -> exists l c, tk = Tok kw v l c.
Proof.
  destruct tk as [[] v' l c|]; simpl; try discriminate.
  intros H. apply String.eqb_eq in H. subst. eauto.
Qed.

Lemma isBinaryOperator_Tok (tk : Token) :
  isBinaryOperator tk = true -> exists v l c, tk = Tok sym v l c.
Proof. destruct tk as [[] v' l c|]; simpl; try discriminate. eauto. Qed.

(** One step of a safety proof. *)
Ltac safe_step :=
  first
    [ assumption
    | apply Safe_ret | apply Safe_outOfFuel | apply Safe_throwError
    | apply Safe_peek_bind; intros ?tk
    | apply Safe_bind; [|intros ?]
    | apply SafeAt_nextValue_bind
    | apply SafeAt_next_bind; [reflexivity | intros ?]
    | match goal with
      | |- SafeAt ?tk (if isSym ?tk ?v || _ then _ else _) =>
          let E := fresh "E" in
          destruct (isSym tk v) eqn:E; cbn [orb];
          [ apply isSym_Tok in E; destruct E as (? & ? & ->) | ]
      | |- SafeAt ?tk (if isSym ?tk ?v then _ else _) =>
          let E := fresh "E" in
          destruct (isSym tk v) eqn:E;
          [ apply isSym_Tok in E; destruct E as (? & ? & ->) | ]
      | |- SafeAt ?tk (if isKw ?tk ?v then _ else _) =>
          let E := fresh "E" in
          destruct (isKw tk v) eqn:E;
          [ apply isKw_Tok in E; destruct E as (? & ? & ->) | ]
      | |- SafeAt ?tk (if isBinaryOperator ?tk then _ else _) =>
          let E := fresh "E" in
          destruct (isBinaryOperator tk) eqn:E;
          [ apply isBinaryOperator_Tok in E; destruct E as (? & ? & ? & ->) | ]
      | |- SafeAt _ (if ?b then _ else _) => destruct b
      | |- Safe (if ?b then _ else _) => destruct b
      | |- SafeAt ?tk (match ?tk with _ => _ end) => destruct tk as [[] ? ? ?|]
      | |- SafeAt _ (bind (if _ then _ else _) _) => apply SafeAt_bind; [|intros ?]
      end
    | apply SafeAt_of_Safe ].

Ltac safe := repeat safe_step.

Lemma Safe_eatSym (v : string) : Safe (eatSym v).
Proof. unfold eatSym. safe. Qed.

Lemma Safe_eatKw (v : string) : Safe (eatKw v).
Proof. unfold eatKw. safe. Qed.

Lemma Safe_optionalSemi : Safe optionalSemi.
Proof. unfold optionalSemi. safe. Qed.

Lemma Safe_expectIdent : Safe expectIdent.
Proof. unfold expectIdent. safe. Qed.

Ltac safe' :=
  repeat first
    [ apply Safe_eatSym | apply Safe_eatKw | apply Safe_optionalSemi
    | apply Safe_expectIdent
    | safe_step
    | match goal with H : _ |- Safe _ => apply H end ].

Lemma Safe_parseImport : Safe parseImport.
Proof. unfold parseImport. safe'. Qed.

Lemma Safe_parseParams (fuel : nat) : Safe (parseParams fuel).
Proof.
  assert (Hloop : forall iters params, Safe (parseParamsLoop iters params))
    by (induction iters as [|iters IH]; intros params; simpl; safe').
  unfold parseParams. safe'.
Qed.

Lemma Safe_parseBinaryLoop (operand : P Expr) :
  Safe operand -> forall iters left, Safe (parseBinaryLoop operand iters left).
Proof. intros Ho. induction iters as [|iters IH]; intros left; simpl; safe'. Qed.

Lemma Safe_parseArgsLoop (expr : P Expr) :
  Safe expr -> forall iters args, Safe (parseArgsLoop expr iters args).
Proof. intros He. induction iters as [|iters IH]; intros args; simpl; safe'. Qed.

Lemma Safe_parseSuffixLoop (parseArgs : P (list Expr)) :
  Safe parseArgs -> forall iters expr, Safe (parseSuffixLoop parseArgs iters expr).
Proof. intros Ha. induction iters as [|iters IH]; intros expr; simpl; safe'. Qed.

Lemma Safe_expressions (fuel : nat) :
  Safe (parseExpr fuel) /\ Safe (parseAssignment fuel) /\ Safe (parseBinary fuel) /\
  Safe (parseUnary fuel) /\ Safe (parsePrimary fuel) /\ Safe (parseArgs fuel).
Proof.
  induction fuel as [|n (He & Has & Hb & Hu & Hp & Ha)];
    [repeat split; apply Safe_outOfFuel|].
  pose proof (Safe_parseSuffixLoop _ Ha n) as Hsuffix.
  repeat apply conj; simpl.
  - exact Has.
  - safe'.
  - apply Safe_bind; [exact Hu | intros left].
    now apply Safe_parseBinaryLoop.
  - safe'.
  - safe'.
  - apply Safe_peek_bind. intros tk.
    destruct (isSym tk ")"); apply SafeAt_of_Safe; [apply Safe_ret|].
    now apply Safe_parseArgsLoop.
Qed.

Lemma Safe_parseExpr (fuel : nat) : Safe (parseExpr fuel).
Proof. apply Safe_expressions. Qed.

Lemma Safe_parseVarDecl (fuel : nat) : Safe (parseVarDecl fuel).
Proof. pose proof (Safe_parseExpr fuel). unfold parseVarDecl. safe'. Qed.

Lemma Safe_parseExprStmt (fuel : nat) : Safe (parseExprStmt fuel).
Proof. pose proof (Safe_parseExpr fuel). unfold parseExprStmt. safe'. Qed.

Lemma Safe_parseBlockLoop (parseIf : P Stmt) (fuel : nat) :
  Safe parseIf -> forall iters stmts, Safe (parseBlockLoop parseIf fuel iters stmts).
Proof.
  intros Hif.
  pose proof (Safe_parseExpr fuel). pose proof (Safe_parseVarDecl fuel).
  pose proof (Safe_parseExprStmt fuel).
  induction iters as [|iters IH]; intros stmts; simpl; safe'.
Qed.

Lemma Safe_parseIfStmt (fuel : nat) : Safe (parseIfStmt fuel).
Proof.
  induction fuel as [|n IH]; simpl; [apply Safe_outOfFuel|].
  pose proof (Safe_parseExpr n).
  pose proof (Safe_parseBlockLoop _ n IH n) as Hblock.
  safe'.
Qed.

Lemma Safe_parseBlock (fuel : nat) : Safe (parseBlock fuel).
Proof. apply Safe_parseBlockLoop, Safe_parseIfStmt. Qed.

Lemma Safe_parseClass (fuel : nat) : Safe (parseClass fuel).
Proof.
  pose proof (Safe_parseParams fuel). pose proof (Safe_parseBlock fuel).
  assert (Hloop : forall iters members, Safe (parseClassLoop fuel iters members))
    by (induction iters as [|iters IH]; intros members; simpl; safe').
  unfold parseClass. safe'.
Qed.

Lemma Safe_parseTopLevel (fuel : nat) : Safe (parseTopLevel fuel).
Proof.
  pose proof Safe_parseImport. pose proof (Safe_parseClass fuel).
  pose proof (Safe_parseVarDecl fuel). pose proof (Safe_parseExprStmt fuel).
  unfold parseTopLevel. safe'.
Qed.

Lemma Safe_parseProgramLoop (fuel : nat) :
  forall iters body, Safe (parseProgramLoop fuel iters body).
Proof.
  pose proof (Safe_parseTopLevel fuel).
  induction iters as [|iters IH]; intros body; simpl; [apply Safe_outOfFuel|].
  apply Safe_peek_bind. intros tk.
  destruct tk; apply SafeAt_of_Safe; safe'.
Qed.

(** [parseProgram] stops only on the [eof] token. *)
Lemma parseProgramLoop_stops_on_eof (fuel : nat) :
  forall iters body p prog p',
    parseProgramLoop fuel iters body p = Ok prog p' ->
    exists l c, nth_error (tokens p') (pos p') = Some (Eof l c).
Proof.
  induction iters as [|iters IH]; intros body p prog p' H; simpl in H; [discriminate|].
  unfold bind at 1, peek in H.
  destruct (nth_error (tokens p) (pos p)) as [tk|] eqn:E; [|discriminate].
  destruct tk as [ty v l c | l c].
  - unfold bind in H.
    destruct (parseTopLevel fuel p) as [st p1| | |]; try discriminate.
    eapply IH; eauto.
  - injection H as _ <-. eauto.
Qed.

Lemma eof_is_last (front : list Token) (l c : Z) (i : nat) (l' c' : Z) :
  existsb isEof front = false ->
  nth_error (front ++ [Eof l c]) i = Some (Eof l' c') ->
  i = List.length front.
Proof.
  intros Hno Hn.
  destruct (Nat.lt_ge_cases i (List.length front)) as [Hlt | Hge].
  - rewrite nth_error_app1 in Hn by exact Hlt.
    apply nth_error_In in Hn.
    assert (Hex : existsb isEof front = true)
      by (apply existsb_exists; exists (Eof l' c'); auto).
    congruence.
  - assert (Hlen : i < List.length (front ++ [Eof l c]))
      by (apply nth_error_Some; congruence).
    rewrite length_app in Hlen. simpl in Hlen. lia.
Qed.

(** On every source text the parser reads no token past the end of the token
    array.  When it throws, the error carries the text and the line and
    column of one of the tokens; when it returns a program, it stands on the
    final [eof] token, every token before it consumed. *)
Theorem parse_never_reads_past_the_tokens (text : string) :
  match Parser.parse text with
  | Ok prog p' =>
      exists front l c,
        lex text = Some (front ++ [Eof l c]) /\
        tokens p' = front ++ [Eof l c] /\ pos p' = List.length front
  | Throw e =>
      source e = text /\
      exists toks tk, lex text = Some toks /\ In tk toks /\
                      location e = (line tk, column tk)
  | TypeError => False
  | OutOfFuel => True
  end.
Proof.
  unfold Parser.parse, Parser.new.
  destruct (LexerFacts.lex_shape text)
    as (front & l & c & Hlex & Hfront).
  rewrite Hlex.
  set (p := mkParser (front ++ [Eof l c]) 0 text).
  assert (Hready : Ready p).
  { split; simpl; [eauto | rewrite length_app; simpl; lia]. }
  pose proof (Safe_parseProgramLoop (6 * S (List.length (tokens p)))
                                    (6 * S (List.length (tokens p))) [] p Hready) as Hal.
  unfold parseProgram.
  destruct (parseProgramLoop _ _ [] p) as [prog p'|e| |] eqn:E; simpl in Hal; auto.
  - destruct Hal as (Ht & _ & _ & _).
    destruct (parseProgramLoop_stops_on_eof _ _ _ _ _ _ E) as (l' & c' & Hn).
    exists front, l, c. repeat split; auto.
    rewrite Ht in Hn. simpl in Hn. eapply eof_is_last; eauto.
  - destruct Hal as (Hs & i & tk & _ & Hn & Hloc). split; [exact Hs|].
    exists (front ++ [Eof l c]), tk. repeat split; auto.
    eapply nth_error_In; eauto.
Qed.

(** A chain of binary operators of any length is one tier, grouped from the
    left: when [parseUnary] reads a first operand and then the tokens are
    operators and operands up to a token that is no binary operator,
    [parseBinary] returns the operands folded from the left. *)
Theorem parseBinary_groups_any_chain_from_the_left
        (n : nat) (p0 p1 p2 : Parser.t) (first : Expr)
        (ops : list (string * Expr)) (stop : Token) :
  List.length ops < n ->
  parseUnary n p0 = Ok first p1 ->
  Operands (parseUnary n) p1 ops p2 ->
  peek p2 = Ok stop p2 ->
  isBinaryOperator stop = false ->
  parseBinary (S n) p0 = Ok (leftAssoc first ops) p2.
Proof.
  intros Hlen Hfirst Hops Hstop Hno.
  cbn [parseBinary]. unfold bind at 1. rewrite Hfirst.
  clear Hfirst p0. revert first. generalize dependent n.
  intros n. generalize n at 1 4 as iters.
  intros iters Hlen Hops. revert iters Hlen.
  induction Hops as [p | p q1 q2 op l c right rest Hpeek Hin Hright Hrest IH];
    intros iters Hlen first.
  - destruct iters as [|iters]; [simpl in Hlen; lia|].
    exact (ParserFacts.parseBinaryLoop_stop _ _ _ _ _ Hstop Hno).
  - destruct iters as [|iters]; [simpl in Hlen; lia|].
    rewrite (ParserFacts.parseBinaryLoop_step _ _ _ _ _ _ _ _ _ Hpeek Hin Hright).
    simpl in Hlen. apply IH; [exact Hstop | lia].
Qed.

(** The property at the tokens of [1 + 2 * 3]. *)
Lemma parseBinary_chain_witness :
  parseBinary 4 onePlusTwoTimesThree =
  Ok (leftAssoc (IntLiteral (JSNumber.Fin 1))
                [("+", IntLiteral (JSNumber.Fin 2)); ("*", IntLiteral (JSNumber.Fin 3))])
     (advance (advance (advance (advance (advance onePlusTwoTimesThree))))).
Proof.
  refine (parseBinary_groups_any_chain_from_the_left
            3 onePlusTwoTimesThree (advance onePlusTwoTimesThree)
            (advance (advance (advance (advance (advance onePlusTwoTimesThree)))))
            (IntLiteral (JSNumber.Fin 1))
            [("+", IntLiteral (JSNumber.Fin 2)); ("*", IntLiteral (JSNumber.Fin 3))]
            (Eof 1 10) _ eq_refl _ eq_refl eq_refl).
  - simpl. lia.
  - eapply (Operands_more _ _ _ _ "+" 1%Z 3%Z); [reflexivity | simpl; tauto | reflexivity |].
    eapply (Operands_more _ _ _ _ "*" 1%Z 7%Z); [reflexivity | simpl; tauto | reflexivity |].
    apply Operands_none.
Defined.

End ParserSafety.

(* ------------------------------------------------------------------ *)
(** ** Error reports *)

Module ErrorsFacts.

Import Lexer Notions.

(** *** Lines and columns are counted from 1 *)

Lemma lexLoop_positive (input : string) :
  forall fuel i line column tokens toks,
    (1 <= line)%Z -> (1 <= column)%Z ->
    Forall positive tokens ->
    lexLoop fuel input i line column tokens = Some toks ->
    Forall positive toks.
Proof.
  induction fuel as [|fuel IH]; intros i line column tokens toks Hl Hc Hpos H;
    [discriminate|].
  assert (Hpush : forall ty v, Forall positive (tokens ++ [Tok ty v line column])).
  { intros ty v. apply Forall_app. split; [exact Hpos|].
    constructor; [split; assumption | constructor]. }
  rewrite LexerFacts.lexLoop_unfold in H. cbv zeta in H.
  destruct (String.get i input) as [ch|] eqn:Hget.
  2:{ injection H as <-. apply Forall_app. split; [exact Hpos|].
      constructor; [split; assumption | constructor]. }
  destruct (isSpace ch).
  { destruct (Ascii.eqb ch newline); (eapply IH; [| | exact Hpos | exact H]); lia. }
  destruct (Ascii.eqb ch "/" && _).
  { eapply IH; [| | exact Hpos | exact H]; assumption. }
  destruct (isDigit ch).
  { pose proof (LexerFacts.scanWhile_ge isDigit input (String.length input - i) i).
    eapply IH; [| | apply Hpush | exact H]; lia. }
  destruct (Ascii.eqb ch dquote || Ascii.eqb ch squote).
  { destruct (scanString ch input (String.length input - i) (S i) "") as [j s0].
    eapply IH; [| | apply Hpush | exact H]; lia. }
  destruct (isIdentStart ch).
  { pose proof (LexerFacts.scanWhile_ge isIdentPart input (String.length input - i) i).
    eapply IH; [| | apply Hpush | exact H]; lia. }
  destruct (includes twoCharSymbols (slice input i (i + 2)));
    (eapply IH; [| | apply Hpush | exact H]); lia.
Qed.

Lemma lexLoop_no_str (input : string) :
  quoteFree input = true ->
  forall fuel i line column tokens toks,
    existsb isStr tokens = false ->
    lexLoop fuel input i line column tokens = Some toks ->
    existsb isStr toks = false.
Proof.
  intros Hfree.
  induction fuel as [|fuel IH]; intros i line column tokens toks Hno H; [discriminate|].
  assert (Hpush : forall ty v l c,
             ty <> str -> existsb isStr (tokens ++ [Tok ty v l c]) = false).
  { intros ty v l c Hty. rewrite existsb_app, Hno. simpl.
    destruct ty; try reflexivity. congruence. }
  rewrite LexerFacts.lexLoop_unfold in H. cbv zeta in H.
  destruct (String.get i input) as [ch|] eqn:Hget.
  2:{ injection H as <-. rewrite existsb_app, Hno. reflexivity. }
  destruct (isSpace ch).
  { destruct (Ascii.eqb ch newline); eapply IH; eauto. }
  destruct (Ascii.eqb ch "/" && _).
  { eapply IH; eauto. }
  destruct (isDigit ch).
  { eapply IH; [| exact H]. apply Hpush. discriminate. }
  destruct (Ascii.eqb ch dquote || Ascii.eqb ch squote) eqn:Hq.
  { pose proof (LexerFacts.quoteFree_get _ Hfree _ _ Hget) as Hn. unfold isQuote in Hn.
    congruence. }
  destruct (isIdentStart ch).
  { eapply IH; [| exact H]. apply Hpush.
    destruct (includes keywords _); discriminate. }
  destruct (includes twoCharSymbols (slice input i (i + 2)));
    (eapply IH; [| exact H]; apply Hpush; discriminate).
Qed.

Lemma forallb_noNewline (p : ascii -> bool) (v : string) :
  p newline = false -> forallb p (chars v) = true -> noNewline v = true.
Proof.
  intros Hp. unfold noNewline, chars.
  induction v as [|c v IH]; simpl; [reflexivity|].
  intros H. apply andb_true_iff in H. destruct H as [Hc Hv].
  rewrite (IH Hv), andb_true_r. apply negb_true_iff, Ascii.eqb_neq.
  intros ->. congruence.
Qed.

Lemma startsWith_nonempty (p : ascii -> bool) (v : string) :
  startsWith p v = true -> v <> "".
Proof. destruct v; [discriminate | discriminate]. Qed.

Lemma included_visible (l : list string) (v : string) :
  forallb (fun w => negb (String.eqb w "") && noNewline w) l = true ->
  includes l v = true -> v <> "" /\ noNewline v = true.
Proof.
  intros Hl H. unfold includes in H. apply existsb_exists in H.
  destruct H as (w & Hin & E). apply String.eqb_eq in E. subst w.
  pose proof (proj1 (forallb_forall _ _) Hl _ Hin) as Hv.
  apply andb_true_iff in Hv. destruct Hv as [Hne Hnl].
  split; [|exact Hnl]. apply negb_true_iff, String.eqb_neq in Hne. exact Hne.
Qed.

(** A token that is no string literal is at least one character of one line. *)
Lemma wellFormed_visible (ty : TokenType) (v : string) (l c : Z) :
  wellFormed (Tok ty v l c) = true -> ty <> str ->
  v <> "" /\ noNewline v = true.
Proof.
  intros H Hty. destruct ty; cbn [wellFormed] in H.
  - apply andb_true_iff in H. destruct H as [Hs Ha].
    split; [eapply startsWith_nonempty; eauto|].
    eapply forallb_noNewline; [|exact Ha]. reflexivity.
  - apply andb_true_iff in H. destruct H as [H _].
    apply andb_true_iff in H. destruct H as [Hs Ha].
    split; [eapply startsWith_nonempty; eauto|].
    eapply forallb_noNewline; [|exact Ha]. reflexivity.
  - congruence.
  - eapply included_visible; [|exact H]. reflexivity.
  - apply orb_true_iff in H. destruct H as [H | H].
    + eapply included_visible; [|exact H]. reflexivity.
    + destruct v as [|x [|y v]]; try discriminate.
      split; [discriminate|].
      unfold noNewline. simpl. rewrite andb_true_r.
      apply negb_true_iff, Ascii.eqb_neq. intros ->. discriminate.
Qed.

(** *** The lines of the source text *)

Lemma substring_empty (i n : nat) : substring i n "" = "".
Proof. destruct i, n; reflexivity. Qed.

Lemma splitOn_cons (sep c : ascii) (s : string) :
  Ascii.eqb c sep = false ->
  exists first others,
    Errors.splitOn sep s = first :: others /\
    Errors.splitOn sep (String c s) = String c first :: others.
Proof.
  intros Hc. simpl. rewrite Hc.
  assert (H : exists first others, Errors.splitOn sep s = first :: others).
  { destruct s as [|a s]; simpl; [eauto|].
    destruct (Ascii.eqb a sep); [eauto|].
    destruct (Errors.splitOn sep s); eauto. }
  destruct H as (first & others & ->). eauto.
Qed.

(** The first line begins as the text does, up to the first line feed. *)
Lemma splitOn_head (s : string) :
  forall n first others,
    Errors.splitOn newline s = first :: others ->
    noNewline (substring 0 n s) = true ->
    substring 0 n first = substring 0 n s.
Proof.
  induction s as [|a s IH]; intros n first others Hsplit Hn.
  - simpl in Hsplit. injection Hsplit as <- <-. reflexivity.
  - destruct n as [|n]; [now rewrite !LexerFacts.substring_zero|].
    simpl in Hn. unfold noNewline in Hn. simpl in Hn.
    apply andb_true_iff in Hn. destruct Hn as [Ha Hn].
    apply negb_true_iff in Ha.
    destruct (splitOn_cons newline a s Ha) as (first' & others' & Hs & Hs').
    rewrite Hs' in Hsplit. injection Hsplit as <- <-.
    simpl. f_equal. eapply IH; eauto.
Qed.

(** The character at index [i] is on line [l] of the split text, at column
    [c] of it; [line] and [column] are those of the first character. *)
Lemma positionFrom_line (input : string) :
  forall i line column l c,
    positionFrom input i line column = (l, c) ->
    (l = line /\ (column <= c)%Z /\
     exists pl,
       nth_error (Errors.splitOn newline input) 0 = Some pl /\
       forall n, noNewline (substring i n input) = true ->
                 substring (Z.to_nat (c - column)) n pl = substring i n input) \/
    ((line < l)%Z /\ (1 <= c)%Z /\
     exists pl,
       nth_error (Errors.splitOn newline input) (Z.to_nat (l - line)) = Some pl /\
       forall n, noNewline (substring i n input) = true ->
                 substring (Z.to_nat (c - 1)) n pl = substring i n input).
Proof.
  induction input as [|a s IH]; intros i line column l c H.
  - left. assert (E : (l, c) = (line, column)) by (destruct i; simpl in H; congruence).
    injection E as -> ->. split; [reflexivity|]. split; [lia|].
    exists "". split; [reflexivity|]. intros n _. now rewrite !substring_empty.
  - destruct i as [|i].
    + simpl in H. injection H as <- <-. left. split; [reflexivity|]. split; [lia|].
      assert (Hex : exists first others,
                 Errors.splitOn newline (String a s) = first :: others).
      { simpl. destruct (Ascii.eqb a newline); [eauto|].
        destruct (Errors.splitOn newline s); eauto. }
      destruct Hex as (first & others & Hs). exists first. rewrite Hs.
      split; [reflexivity|]. intros n Hn.
      rewrite Z.sub_diag. simpl Z.to_nat. eapply splitOn_head; eauto.
    + cbn [positionFrom] in H.
      destruct (Ascii.eqb a newline) eqn:Ha.
      * right. cbn [Errors.splitOn]. rewrite Ha.
        destruct (IH _ _ _ _ _ H) as [(-> & Hc & pl & Hpl & Hsub)
                                     | (Hl & Hc & pl & Hpl & Hsub)].
        -- split; [lia|]. split; [exact Hc|]. exists pl. split.
           ++ replace (line + 1 - line)%Z with 1%Z by lia. exact Hpl.
           ++ intros n Hn. simpl in Hn. simpl. apply Hsub. exact Hn.
        -- split; [lia|]. split; [exact Hc|]. exists pl. split.
           ++ replace (Z.to_nat (l - line)) with (S (Z.to_nat (l - (line + 1)))) by lia.
              exact Hpl.
           ++ intros n Hn. simpl in Hn. simpl. apply Hsub. exact Hn.
      * destruct (splitOn_cons newline a s Ha) as (first & others & Hs & Hs').
        rewrite Hs'.
        destruct (IH _ _ _ _ _ H) as [(-> & Hc & pl & Hpl & Hsub)
                                     | (Hl & Hc & pl & Hpl & Hsub)].
        -- left. split; [reflexivity|]. split; [lia|].
           rewrite Hs in Hpl. simpl in Hpl. injection Hpl as ->.
           exists (String a pl). split; [reflexivity|].
           intros n Hn. simpl in Hn.
           replace (Z.to_nat (c - column)) with (S (Z.to_nat (c - (column + 1)))) by lia.
           simpl. apply Hsub. exact Hn.
        -- right. split; [exact Hl|]. split; [exact Hc|]. exists pl. split.
           ++ rewrite Hs in Hpl.
              destruct (Z.to_nat (l - line)) as [|k] eqn:Ek; [lia|]. exact Hpl.
           ++ intros n Hn. simpl in Hn. simpl. apply Hsub. exact Hn.
Qed.

Lemma positionOf_line (input : string) (i : nat) (l c : Z) :
  positionOf input i = (l, c) ->
  (1 <= l)%Z /\ (1 <= c)%Z /\
  exists pl,
    Errors.at_index (Errors.splitOn newline input) (l - 1) = Some pl /\
    forall n, noNewline (substring i n input) = true ->
              substring (Z.to_nat (c - 1)) n pl = substring i n input.
Proof.
  intros H. unfold Errors.at_index.
  destruct (positionFrom_line _ _ _ _ _ _ H) as [(-> & Hc & pl & Hpl & Hsub)
                                                | (Hl & Hc & pl & Hpl & Hsub)].
  - split; [lia|]. split; [exact Hc|]. exists pl. split; [exact Hpl | exact Hsub].
  - split; [lia|]. split; [exact Hc|]. exists pl.
    destruct (l - 1 <? 0)%Z eqn:E; [apply Z.ltb_lt in E; lia|].
    split; [exact Hpl | exact Hsub].
Qed.

(** *** The report of a parse error *)

Lemma spaces_blanks (n : Z) :
  (0 <= n)%Z -> Errors.spaces n = Some (blanks (Z.to_nat n)).
Proof.
  intros H. unfold Errors.spaces, blanks.
  destruct (n <? 0)%Z eqn:E; [apply Z.ltb_lt in E; lia | reflexivity].
Qed.

Lemma format_report (e : Parser.CompileError) (l c : Z) :
  Parser.location e = (l, c) -> (1 <= c)%Z ->
  Errors.format (Errors.ofParser e) =
  Some (match Errors.at_index (Errors.splitOn newline (Parser.source e)) (l - 1) with
        | Some problemLine =>
            if String.eqb (Parser.source e) "" || String.eqb problemLine ""
            then reportWithoutExcerpt l c (Parser.message e)
            else reportWithExcerpt l c problemLine (Parser.message e)
        | None => reportWithoutExcerpt l c (Parser.message e)
        end).
Proof.
  intros Hloc Hc.
  unfold Errors.format, Errors.locationLines, Errors.ofParser. simpl.
  rewrite Hloc.
  destruct (String.eqb (Parser.source e) "") eqn:Es.
  { simpl. now destruct (Errors.at_index _ _). }
  destruct (Errors.at_index _ _) as [pl|]; [|reflexivity].
  simpl. destruct (String.eqb pl ""); [reflexivity|].
  rewrite spaces_blanks by lia. reflexivity.
Qed.

(** The error the parser throws is at one of the tokens. *)
Lemma parse_throws_at_a_token (text : string) (e : Parser.CompileError) :
  Parser.parse text = Parser.Throw e ->
  Parser.source e = text /\
  exists toks tk, lex text = Some toks /\ In tk toks /\
                  Parser.location e = (line tk, column tk).
Proof.
  unfold Parser.parse, Parser.new.
  destruct (LexerFacts.lex_shape text) as (front & l & c & Hlex & Hfront).
  rewrite Hlex.
  set (p := Parser.mkParser (front ++ [Eof l c]) 0 text).
  assert (Hready : Ready p).
  { split; simpl; [eauto | rewrite length_app; simpl; lia]. }
  pose proof (ParserSafety.Safe_parseProgramLoop
                (6 * S (List.length (Parser.tokens p)))
                (6 * S (List.length (Parser.tokens p))) [] p Hready) as Hal.
  unfold Parser.parseProgram. intros E. rewrite E in Hal. simpl in Hal.
  destruct Hal as (Hs & i & tk & _ & Hn & Hloc). split; [exact Hs|].
  exists (front ++ [Eof l c]), tk. repeat split; auto.
  eapply nth_error_In; eauto.
Qed.

(** Printing the error the parser throws never fails, on any source text:
    the line and the column it carries are 1 or more, and [format] returns
    the head, the message and, between them, either nothing or the source
    line of that number with a caret line. *)
Theorem parse_error_is_always_printed (text : string) (e : Parser.CompileError) :
  Parser.parse text = Parser.Throw e ->
  exists l c,
    Parser.location e = (l, c) /\ (1 <= l)%Z /\ (1 <= c)%Z /\
    (Errors.format (Errors.ofParser e)
     = Some (reportWithoutExcerpt l c (Parser.message e)) \/
     exists problemLine,
       Errors.at_index (Errors.splitOn newline text) (l - 1) = Some problemLine /\
       Errors.format (Errors.ofParser e)
       = Some (reportWithExcerpt l c problemLine (Parser.message e))).
Proof.
  intros H.
  destruct (parse_throws_at_a_token _ _ H) as (Hsrc & toks & tk & Hlex & Hin & Hloc).
  assert (Hpos : Forall positive toks).
  { eapply lexLoop_positive; [| | constructor | exact Hlex]; lia. }
  destruct (proj1 (Forall_forall _ _) Hpos _ Hin) as [Hl Hc].
  exists (line tk), (column tk). repeat split; auto.
  rewrite (format_report _ _ _ Hloc Hc), Hsrc.
  destruct (Errors.at_index _ _) as [pl|] eqn:Epl; [|now left].
  destruct (String.eqb text "" || String.eqb pl ""); [now left|].
  right. exists pl. auto.
Qed.

Lemma get_caret (n : nat) :
  String.get n (blanks n ++ "^") = Some "^"%char.
Proof. induction n as [|n IH]; [reflexivity | exact IH]. Qed.

(** Line numbers below 10 are one character wide. *)
Lemma num_one_digit (l : Z) :
  (1 <= l < 10)%Z -> exists d, Errors.num l = String d "".
Proof.
  intros H.
  assert (E : (l = 1 \/ l = 2 \/ l = 3 \/ l = 4 \/ l = 5 \/ l = 6 \/ l = 7 \/ l = 8
               \/ l = 9)%Z) by lia.
  repeat (destruct E as [-> | E]; [eexists; reflexivity|]).
  subst. eexists. reflexivity.
Qed.

(** In a text without quote characters, the report of a parse error at a
    token that is not the end of the text shows the line the token is on,
    with the token at the column the error carries; and on the first nine
    lines the caret stands under the token's first character. *)
Theorem parse_error_report_points_at_the_token
        (text : string) (e : Parser.CompileError) :
  quoteFree text = true ->
  Parser.parse text = Parser.Throw e ->
  exists toks tk,
    lex text = Some toks /\ In tk toks /\
    Parser.location e = (line tk, column tk) /\
    match tk with
    | Tok _ v l c =>
        exists problemLine,
          Errors.at_index (Errors.splitOn newline text) (l - 1) = Some problemLine /\
          substring (Z.to_nat (c - 1)) (String.length v) problemLine = v /\
          v <> "" /\
          Errors.format (Errors.ofParser e)
          = Some (reportWithExcerpt l c problemLine (Parser.message e)) /\
          ((l < 10)%Z ->
           exists k,
             String.get k (caretLine c) = Some "^"%char /\
             substring k (String.length v) (excerptLine l problemLine) = v)
    | Eof _ _ => True
    end.
Proof.
  intros Hfree H.
  destruct (parse_throws_at_a_token _ _ H) as (Hsrc & toks & tk & Hlex & Hin & Hloc).
  exists toks, tk. repeat split; auto.
  destruct tk as [ty v l c | l c]; [|exact I].
  assert (Hplaced : Forall (placed text) toks).
  { eapply LexerFacts.lexLoop_placed; [exact Hfree | constructor | | exact Hlex].
    unfold tracked, positionOf. destruct text; simpl; auto. }
  assert (Hwf : forallb wellFormed toks = true).
  { eapply LexerFacts.lexLoop_wellFormed; [|exact Hlex]. reflexivity. }
  assert (Hnostr : existsb isStr toks = false).
  { eapply lexLoop_no_str; [exact Hfree | | exact Hlex]. reflexivity. }
  assert (Hty : ty <> str).
  { intros ->. assert (existsb isStr toks = true); [|congruence].
    apply existsb_exists. exists (Tok str v l c). auto. }
  destruct (wellFormed_visible _ _ _ _ (proj1 (forallb_forall _ _) Hwf _ Hin) Hty)
    as [Hne Hnl].
  destruct (proj1 (Forall_forall _ _) Hplaced _ Hin) as (i & Hi & Hpos & Hsub).
  destruct (positionOf_line _ _ _ _ Hpos) as (Hl & Hc & pl & Hpl & Hline).
  assert (Hv : substring (Z.to_nat (c - 1)) (String.length v) pl = v).
  { rewrite Hline; [exact Hsub | now rewrite Hsub]. }
  exists pl. repeat split; auto.
  - simpl in Hloc. rewrite (format_report _ _ _ Hloc Hc), Hsrc, Hpl.
    assert (Et : String.eqb text "" = false).
    { apply String.eqb_neq. intros ->. simpl in Hi. lia. }
    assert (Ep : String.eqb pl "" = false).
    { apply String.eqb_neq. intros ->. rewrite substring_empty in Hv. congruence. }
    now rewrite Et, Ep.
  - intros Hlt. exists (6 + Z.to_nat (c - 1)).
    destruct (num_one_digit l (conj Hl Hlt)) as (d & Hd).
    unfold caretLine, excerptLine. rewrite Hd. simpl. split; [apply get_caret | exact Hv].
Qed.

(** The two reports at the text [missingType], whose second line lacks the
    type of [x]: the parser throws at the [=] of line 2, column 7. *)
Lemma parse_error_is_always_printed_witness :
  exists l c,
    Parser.location missingTypeError = (l, c) /\ (1 <= l)%Z /\ (1 <= c)%Z /\
    (Errors.format (Errors.ofParser missingTypeError)
     = Some (reportWithoutExcerpt l c (Parser.message missingTypeError)) \/
     exists problemLine,
       Errors.at_index (Errors.splitOn newline missingType) (l - 1) = Some problemLine /\
       Errors.format (Errors.ofParser missingTypeError)
       = Some (reportWithExcerpt l c problemLine (Parser.message missingTypeError))).
Proof.
  apply (parse_error_is_always_printed missingType missingTypeError).
  vm_compute. reflexivity.
Defined.

Lemma parse_error_report_witness :
  exists toks tk,
    lex missingType = Some toks /\ In tk toks /\
    Parser.location missingTypeError = (line tk, column tk) /\
    match tk with
    | Tok _ v l c =>
        exists problemLine,
          Errors.at_index (Errors.splitOn newline missingType) (l - 1)
          = Some problemLine /\
          substring (Z.to_nat (c - 1)) (String.length v) problemLine = v /\
          v <> "" /\
          Errors.format (Errors.ofParser missingTypeError)
          = Some (reportWithExcerpt l c problemLine (Parser.message missingTypeError)) /\
          ((l < 10)%Z ->
           exists k,
             String.get k (caretLine c) = Some "^"%char /\
             substring k (String.length v) (excerptLine l problemLine) = v)
    | Eof _ _ => True
    end.
Proof.
  apply (parse_error_report_points_at_the_token missingType missingTypeError).
  - vm_compute. reflexivity.
  - vm_compute. reflexivity.
Defined.

End ErrorsFacts.

(* ------------------------------------------------------------------ *)
(** ** The code generator *)

Module CodegenFacts.

Import AST Codegen Notions.

(** *** Expressions *)

(** Induction on expressions, with the arguments of calls and of [new]. *)
Lemma Expr_nested_ind (P : Expr -> Prop) :
  (forall v, P (IntLiteral v)) ->
  (forall v, P (StringLiteral v)) ->
  (forall v, P (BoolLiteral v)) ->
  (forall x, P (Identifier x)) ->
  (forall op l r, P l -> P r -> P (BinaryExpr op l r)) ->
  (forall op e, P e -> P (UnaryExpr op e)) ->
  (forall callee args, P callee -> Forall P args -> P (CallExpr callee args)) ->
  (forall c args, Forall P args -> P (NewExpr c args)) ->
  (forall o f, P o -> P (FieldAccessExpr o f)) ->
  P ThisExpr ->
  (forall m, P (SuperExpr m)) ->
  (forall t v, P t -> P v -> P (AssignmentExpr t v)) ->
  forall e, P e.
Proof.
  intros Hint Hstr Hbool Hid Hbin Hun Hcall Hnew Hfield Hthis Hsuper Hassign.
  fix IH 1. intros [v | v | v | x | op l r | op e | callee args | c args | o f | | m | t v].
  - apply Hint.
  - apply Hstr.
  - apply Hbool.
  - apply Hid.
  - apply Hbin; apply IH.
  - apply Hun; apply IH.
  - apply Hcall; [apply IH|].
    induction args as [|a args IHargs]; constructor; [apply IH | exact IHargs].
  - apply Hnew.
    induction args as [|a args IHargs]; constructor; [apply IH | exact IHargs].
  - apply Hfield; apply IH.
  - apply Hthis.
  - apply Hsuper.
  - apply Hassign; apply IH.
Qed.

Lemma emitExpr_CallExpr (callee : Expr) (args : list Expr) :
  emitExpr (CallExpr callee args) =
  if isPrint callee then
    match mapEmitted emitExpr args with
    | Text args' =>
        if (List.length args' =? 0)%nat
        then Text ("printf(" ++ quote ++ backslashN ++ quote ++ ")")%string
        else Text ("printf(" ++ quote ++ String.concat " " (map printFormat args)
                             ++ backslashN ++ quote
                             ++ ", " ++ String.concat ", " args' ++ ")")%string
    | Thrown msg => Thrown msg
    end
  else
    match callee with
    | FieldAccessExpr obj method =>
        match mapEmitted emitExpr args with
        | Text args' =>
            Text (match obj with
                  | Identifier name => name
                  | _ => "obj"
                  end ++ "_" ++ method ++ "(" ++ String.concat ", " args' ++ ")")%string
        | Thrown msg => Thrown msg
        end
    | _ => Thrown "Unsupported call: CallExpr"
    end.
Proof. reflexivity. Qed.

Lemma emitExpr_NewExpr (c : string) (args : list Expr) :
  emitExpr (NewExpr c args) =
  match mapEmitted emitExpr args with
  | Text args' => Text (c ++ "_new(" ++ String.concat ", " args' ++ ")")%string
  | Thrown msg => Thrown msg
  end.
Proof. reflexivity. Qed.

Lemma mapEmitted_emitted (args : list Expr) :
  Forall emitted args ->
  match mapEmitted emitExpr args with
  | Text _ => forallb emittable args = true
  | Thrown msg => forallb emittable args = false /\ msg = "Unsupported call: CallExpr"
  end.
Proof.
  induction 1 as [|x args Hx _ IH]; simpl; [reflexivity|].
  unfold emitted in Hx.
  destruct (emitExpr x) as [y|msg].
  - rewrite Hx. simpl. destruct (mapEmitted emitExpr args); exact IH.
  - destruct Hx as [-> ->]. auto.
Qed.

Lemma emitExpr_emitted (e : Expr) : emitted e.
Proof.
  induction e as [v | v | v | x | op l r IHl IHr | op e IHe | callee args _ IHargs
                 | c args IHargs | o f IHo | | m | t v IHt IHv]
    using Expr_nested_ind; unfold emitted in *;
    try (simpl; reflexivity).
  - simpl. destruct (emitExpr l) as [sl|ml].
    + rewrite IHl. destruct (emitExpr r) as [sr|mr]; [exact IHr|].
      destruct IHr as [-> ->]. auto.
    + destruct IHl as [-> ->]. auto.
  - simpl. destruct (emitExpr e); exact IHe.
  - rewrite emitExpr_CallExpr. cbn [emittable].
    pose proof (mapEmitted_emitted _ IHargs) as Hargs.
    destruct (isPrint callee) eqn:Hp.
    + destruct (mapEmitted emitExpr args) as [args'|msg].
      * rewrite Hargs. now destruct (List.length args' =? 0)%nat.
      * destruct Hargs as [-> ->]. auto.
    + destruct callee; simpl; auto.
      destruct (mapEmitted emitExpr args) as [args'|msg]; [exact Hargs|].
      destruct Hargs as [-> ->]. auto.
  - rewrite emitExpr_NewExpr. cbn [emittable].
    pose proof (mapEmitted_emitted _ IHargs) as Hargs.
    destruct (mapEmitted emitExpr args); exact Hargs.
  - simpl. destruct (emitExpr o); exact IHo.
  - simpl. destruct (emitExpr t) as [st|mt].
    + rewrite IHt. destruct (emitExpr v) as [sv|mv]; [exact IHv|].
      destruct IHv as [-> ->]. auto.
    + destruct IHt as [-> ->]. auto.
Qed.

(** [emitExpr] returns a text for exactly the expressions in which every
    call it emits is a call of [print] or of a field; for every other
    expression it throws [Unsupported call: CallExpr].  It never throws
    [Unsupported expression]. *)
Theorem emitExpr_fails_only_on_unsupported_calls (e : Expr) :
  (emittable e = true -> exists text, emitExpr e = Text text) /\
  (emittable e = false -> emitExpr e = Thrown "Unsupported call: CallExpr").
Proof.
  pose proof (emitExpr_emitted e) as H. unfold emitted in H.
  destruct (emitExpr e) as [text|msg].
  - split; [eauto | congruence].
  - destruct H as [H ->]. split; [congruence | reflexivity].
Qed.

(** *** Statements *)

Lemma blanks_app (a b : nat) : blanks (a + b) = (blanks a ++ blanks b)%string.
Proof.
  unfold blanks. induction a as [|a IH]; simpl; [reflexivity | now rewrite IH].
Qed.

Lemma append_assoc' (a b c : string) : ((a ++ b) ++ c = a ++ (b ++ c))%string.
Proof. induction a as [|x a IH]; simpl; [reflexivity | now rewrite IH]. Qed.

Lemma indentedBy_less (n : Z) (line : string) :
  (1 <= n)%Z -> indentedBy n line -> indentedBy (n - 1) line.
Proof.
  intros Hn [rest ->].
  exists (blanks 2 ++ rest)%string.
  replace (2 * Z.to_nat n) with (2 * Z.to_nat (n - 1) + 2) by lia.
  now rewrite blanks_app, append_assoc'.
Qed.

Lemma repeat_blanks (n : Z) :
  (0 <= n)%Z -> Codegen.repeat "  " n = Some (blanks (2 * Z.to_nat n)).
Proof.
  intros Hn. unfold Codegen.repeat.
  destruct (n <? 0)%Z eqn:E; [apply Z.ltb_lt in E; lia|]. f_equal.
  induction (Z.to_nat n) as [|k IH]; [reflexivity|].
  replace (2 * S k) with (S (S (2 * k))) by lia.
  change (blanks (S (S (2 * k)))) with (String " " (String " " (blanks (2 * k)))).
  rewrite <- IH. simpl. destruct (List.repeat "  " k); reflexivity.
Qed.

Lemma Emits_equiv {A : Type} (m : M A) (es es' : list Expr) :
  forallb emittable es = forallb emittable es' -> Emits m es -> Emits m es'.
Proof. intros E H g Hg. rewrite <- E. now apply H. Qed.

Lemma EmitsInside_equiv {A : Type} (m : M A) (es es' : list Expr) :
  forallb emittable es = forallb emittable es' -> EmitsInside m es -> EmitsInside m es'.
Proof. intros E H g Hg. rewrite <- E. now apply H. Qed.

Lemma Emits_ret {A : Type} (a : A) : Emits (ret a) [].
Proof.
  intros g Hg. simpl. exists a, g, []. rewrite app_nil_r. repeat split. constructor.
Qed.

Lemma Emits_emit (line : string) : Emits (emit line) [].
Proof.
  intros g Hg. simpl. unfold emit. rewrite (repeat_blanks _ Hg).
  eexists tt, _, [_]. repeat split. constructor; [|constructor]. now eexists.
Qed.

Lemma Emits_bind {A B : Type} (m : M A) (k : A -> M B) (es1 es2 : list Expr) :
  Emits m es1 -> (forall a, Emits (k a) es2) -> Emits (bind m k) (es1 ++ es2).
Proof.
  intros Hm Hk g Hg. rewrite forallb_app. unfold bind.
  specialize (Hm g Hg).
  destruct (forallb emittable es1); simpl.
  - destruct Hm as (a & g1 & lines1 & -> & Hi1 & Hc1 & Hl1).
    assert (Hg1 : (0 <= indent g1)%Z) by lia.
    specialize (Hk a g1 Hg1).
    destruct (forallb emittable es2).
    + destruct Hk as (b & g2 & lines2 & -> & Hi2 & Hc2 & Hl2).
      exists b, g2, (lines1 ++ lines2)%list. repeat split.
      * lia.
      * now rewrite Hc2, Hc1, app_assoc.
      * apply Forall_app. split; [exact Hl1|]. now rewrite Hi1 in Hl2.
    + exact Hk.
  - now rewrite Hm.
Qed.

Lemma EmitsInside_bind {A B : Type} (m : M A) (k : A -> M B) (es1 es2 : list Expr) :
  Emits m es1 -> (forall a, EmitsInside (k a) es2) -> EmitsInside (bind m k) (es1 ++ es2).
Proof.
  intros Hm Hk g Hg. rewrite forallb_app. unfold bind.
  assert (Hg0 : (0 <= indent g)%Z) by lia.
  specialize (Hm g Hg0).
  destruct (forallb emittable es1); simpl.
  - destruct Hm as (a & g1 & lines1 & -> & Hi1 & Hc1 & Hl1).
    assert (Hg1 : (1 <= indent g1)%Z) by lia.
    specialize (Hk a g1 Hg1).
    destruct (forallb emittable es2).
    + destruct Hk as (b & g2 & lines2 & -> & Hi2 & Hc2 & Hl2).
      exists b, g2, (lines1 ++ lines2)%list. repeat split.
      * lia.
      * now rewrite Hc2, Hc1, app_assoc.
      * apply Forall_app. split.
        -- eapply Forall_impl; [|exact Hl1]. intros line. now apply indentedBy_less.
        -- now rewrite Hi1 in Hl2.
    + exact Hk.
  - now rewrite Hm.
Qed.

(** [this.indent++] opens what [this.indent--] closes. *)
Lemma Emits_indentMore {A : Type} (k : M A) (es : list Expr) :
  EmitsInside k es -> Emits (indentMore ;;; k) es.
Proof.
  intros Hk g Hg. unfold bind, indentMore.
  set (g1 := mkCodeGenerator (code g) (indent g + 1)).
  assert (Hg1 : (1 <= indent g1)%Z) by (simpl; lia).
  specialize (Hk g1 Hg1).
  destruct (forallb emittable es); [|exact Hk].
  destruct Hk as (a & g2 & lines & -> & Hi & Hc & Hl).
  exists a, g2, lines. simpl in *.
  replace (indent g + 1 - 1)%Z with (indent g) in * by lia. auto.
Qed.

Lemma EmitsInside_indentLess {A : Type} (k : M A) (es : list Expr) :
  Emits k es -> EmitsInside (indentLess ;;; k) es.
Proof.
  intros Hk g Hg. unfold bind, indentLess.
  set (g1 := mkCodeGenerator (code g) (indent g - 1)).
  assert (Hg1 : (0 <= indent g1)%Z) by (simpl; lia).
  specialize (Hk g1 Hg1).
  destruct (forallb emittable es); [|exact Hk].
  destruct Hk as (a & g2 & lines & -> & Hi & Hc & Hl).
  exists a, g2, lines. simpl in *. auto.
Qed.

Lemma EmitsInside_indentLess_last : EmitsInside indentLess [].
Proof.
  intros g Hg. simpl. unfold indentLess.
  eexists tt, _, []. simpl. rewrite app_nil_r. repeat split. constructor.
Qed.

Lemma Emits_expression {A : Type} (e : Expr) (k : string -> M A) (es : list Expr) :
  (forall v, Emits (k v) es) -> Emits (bind (expression e) k) (e :: es).
Proof.
  intros Hk g Hg. cbn [forallb]. unfold bind, expression.
  pose proof (emitExpr_emitted e) as He. unfold emitted in He.
  destruct (emitExpr e) as [v|msg].
  - rewrite He. simpl. now apply Hk.
  - destruct He as [-> ->]. reflexivity.
Qed.

Lemma Emits_forEach {A : Type} (body : A -> M unit) (f : A -> list Expr) (xs : list A) :
  Forall (fun x => Emits (body x) (f x)) xs ->
  Emits (forEach body xs) (flat_map f xs).
Proof.
  induction 1 as [|x xs Hx _ IH]; simpl; [apply Emits_ret|].
  apply Emits_bind; [exact Hx | intros _; exact IH].
Qed.

Lemma Emits_forEach_silent {A : Type} (body : A -> M unit) (xs : list A) :
  (forall x, Emits (body x) []) -> Emits (forEach body xs) [].
Proof.
  intros H. induction xs as [|x xs IH]; simpl; [apply Emits_ret|].
  apply (Emits_bind _ _ [] []); [apply H | intros _; exact IH].
Qed.

(** Induction on statements, with the statements of both branches of an
    [if]. *)
Lemma Stmt_nested_ind (P : Stmt -> Prop) :
  (forall m a, P (ImportStmt m a)) ->
  (forall n sup ms, P (ClassDecl n sup ms)) ->
  (forall x ty init, P (VarDecl x ty init)) ->
  (forall n ps r b, P (FuncDecl n ps r b)) ->
  (forall e, P (ExprStmt e)) ->
  (forall e, P (ReturnStmt e)) ->
  (forall c thenBody, Forall P thenBody -> P (IfStmt c thenBody None)) ->
  (forall c thenBody stmts,
      Forall P thenBody -> Forall P stmts -> P (IfStmt c thenBody (Some stmts))) ->
  forall s, P s.
Proof.
  intros Himport Hclass Hvar Hfunc Hexpr Hreturn Hif Hifelse.
  fix IH 1. intros [m a | n sup ms | x ty init | n ps r b | e | e | c thenBody elseBody].
  - apply Himport.
  - apply Hclass.
  - apply Hvar.
  - apply Hfunc.
  - apply Hexpr.
  - apply Hreturn.
  - assert (Hthen : Forall P thenBody).
    { induction thenBody as [|s rest IHrest]; constructor; [apply IH | exact IHrest]. }
    destruct elseBody as [stmts|]; [|now apply Hif].
    apply Hifelse; [exact Hthen|].
    induction stmts as [|s rest IHrest]; constructor; [apply IH | exact IHrest].
Qed.

Lemma emitStmt_IfStmt (c : Expr) (thenBody : list Stmt) (elseBody : option (list Stmt)) :
  emitStmt (IfStmt c thenBody elseBody) =
  (v <- expression c ;;
   emit ("if (" ++ v ++ ") {")%string ;;;
   indentMore ;;;
   forEach emitStmt thenBody ;;;
   indentLess ;;;
   match elseBody with
   | Some stmts =>
       emit "} else {" ;;;
       indentMore ;;;
       forEach emitStmt stmts ;;;
       indentLess
   | None => ret tt
   end ;;;
   emit "}").
Proof. reflexivity. Qed.

Ltac same_expressions :=
  simpl; rewrite ?forallb_app; simpl; rewrite ?andb_true_r; reflexivity.

Lemma Emits_emitStmt (s : Stmt) : Emits (emitStmt s) (stmtExprs s).
Proof.
  induction s as [m a | n sup ms | x ty init | n ps r b | e | e
                 | c thenBody IHthen | c thenBody stmts IHthen IHelse]
    using Stmt_nested_ind.
  - apply Emits_ret.
  - apply Emits_ret.
  - destruct init as [e|]; simpl.
    + apply Emits_expression. intros v. apply Emits_emit.
    + apply Emits_emit.
  - apply Emits_ret.
  - simpl. apply Emits_expression. intros v. apply Emits_emit.
  - destruct e as [e|]; simpl.
    + apply Emits_expression. intros v. apply Emits_emit.
    + apply Emits_emit.
  - rewrite emitStmt_IfStmt. cbn [stmtExprs].
    apply Emits_expression. intros v.
    eapply Emits_equiv; cycle 1.
    + apply Emits_bind; [apply Emits_emit | intros _].
      apply Emits_indentMore.
      apply EmitsInside_bind; [apply (Emits_forEach _ stmtExprs); exact IHthen | intros _].
      apply EmitsInside_indentLess.
      apply Emits_bind; [apply Emits_ret | intros _; apply Emits_emit].
    + same_expressions.
  - rewrite emitStmt_IfStmt. cbn [stmtExprs].
    apply Emits_expression. intros v.
    eapply Emits_equiv; cycle 1.
    + apply Emits_bind; [apply Emits_emit | intros _].
      apply Emits_indentMore.
      apply EmitsInside_bind; [apply (Emits_forEach _ stmtExprs); exact IHthen | intros _].
      apply EmitsInside_indentLess.
      apply Emits_bind; [|intros _; apply Emits_emit].
      apply Emits_bind; [apply Emits_emit | intros _].
      apply Emits_indentMore.
      apply EmitsInside_bind; [apply (Emits_forEach _ stmtExprs); exact IHelse | intros _].
      apply EmitsInside_indentLess_last.
    + same_expressions.
Qed.

Lemma Emits_emitBlock (stmts : list Stmt) :
  Emits (emitBlock stmts) (flat_map stmtExprs stmts).
Proof.
  apply Emits_forEach. apply Forall_forall. intros s _. apply Emits_emitStmt.
Qed.

(** [emitStmt] on a generator whose [indent] is not negative: when every
    expression of the statement is emittable it returns, [indent] is what it
    was, no line of [code] is changed or removed, and each line it adds is
    indented by [indent] or more; otherwise it throws
    [Unsupported call: CallExpr].  It never comes to a negative [indent]. *)
Theorem emitStmt_adds_indented_lines (s : Stmt) (g : Codegen.t) :
  (0 <= indent g)%Z ->
  if forallb emittable (stmtExprs s)
  then exists g' lines,
      emitStmt s g = Ok tt g' /\
      indent g' = indent g /\
      code g' = (code g ++ lines)%list /\
      Forall (indentedBy (indent g)) lines
  else emitStmt s g = Error "Unsupported call: CallExpr".
Proof.
  intros Hg. pose proof (Emits_emitStmt s g Hg) as H.
  destruct (forallb emittable (stmtExprs s)); [|exact H].
  destruct H as ([] & g' & lines & H). eauto.
Qed.

(** *** Programs *)

Lemma Emits_emitForward (cls : Stmt) : Emits (emitForward cls) [].
Proof. destruct cls; simpl; try apply Emits_ret. apply Emits_emit. Qed.

Lemma Emits_emitStruct (cls : Stmt) : Emits (emitStruct cls) [].
Proof.
  destruct cls as [| n sup ms | | | | |]; simpl; try apply Emits_ret.
  apply (Emits_bind _ _ [] []); [apply Emits_emit | intros _].
  apply Emits_indentMore.
  apply (EmitsInside_bind _ _ [] []).
  - apply Emits_forEach_silent. intros [f ty | | ]; try apply Emits_ret. apply Emits_emit.
  - intros _. apply EmitsInside_indentLess.
    apply (Emits_bind _ _ [] []); [apply Emits_emit | intros _; apply Emits_emit].
Qed.

Lemma Emits_emitPrototypes (cls : Stmt) : Emits (emitPrototypes cls) [].
Proof.
  destruct cls as [| n sup ms | | | | |]; simpl; try apply Emits_ret.
  apply Emits_forEach_silent. intros [| m ps r b |]; try apply Emits_ret. apply Emits_emit.
Qed.

Lemma Emits_emitMethods (cls : Stmt) : Emits (emitMethods cls) (methodExprs cls).
Proof.
  destruct cls as [| n sup ms | | | | |]; simpl; try apply Emits_ret.
  apply Emits_forEach. apply Forall_forall.
  intros [| m ps r b |] _; try apply Emits_ret.
  eapply Emits_equiv; cycle 1.
  - apply Emits_bind; [apply Emits_emit | intros _].
    apply Emits_indentMore.
    apply EmitsInside_bind; [apply Emits_emitBlock | intros _].
    apply EmitsInside_indentLess.
    apply (Emits_bind _ _ [] []); [apply Emits_emit | intros _; apply Emits_emit].
  - same_expressions.
Qed.

Lemma Emits_emitConstructor (cls : Stmt) :
  Emits (emitConstructor cls) (constructorExprs cls).
Proof.
  destruct cls as [| n sup ms | | | | |]; simpl; try apply Emits_ret.
  destruct (findConstructor ms) as [[ps b]|].
  - eapply Emits_equiv; cycle 1.
    + apply Emits_bind; [apply Emits_emit | intros _].
      apply Emits_indentMore.
      apply EmitsInside_bind; [apply Emits_emit | intros _].
      apply EmitsInside_bind; [apply Emits_emitBlock | intros _].
      apply EmitsInside_bind; [apply Emits_emit | intros _].
      apply EmitsInside_indentLess.
      apply (Emits_bind _ _ [] []); [apply Emits_emit | intros _; apply Emits_emit].
    + same_expressions.
  - eapply Emits_equiv; cycle 1.
    + apply Emits_bind; [apply Emits_emit | intros _].
      apply Emits_indentMore.
      apply EmitsInside_bind; [apply Emits_emit | intros _].
      apply EmitsInside_bind; [apply Emits_ret | intros _].
      apply EmitsInside_bind; [apply Emits_emit | intros _].
      apply EmitsInside_indentLess.
      apply (Emits_bind _ _ [] []); [apply Emits_emit | intros _; apply Emits_emit].
    + same_expressions.
Qed.

Lemma Emits_emitMainStmt (s : Stmt) : Emits (emitMainStmt s) (mainExprs s).
Proof.
  destruct s; unfold emitMainStmt, mainExprs; try apply Emits_ret; apply Emits_emitStmt.
Qed.

Lemma bind_Ok {A B : Type} (m : M A) (k : A -> M B) (g g' : Codegen.t) (a : A) :
  m g = Ok a g' -> bind m k g = k a g'.
Proof. intros H. unfold bind. now rewrite H. Qed.

Lemma bind_inv {A B : Type} (m : M A) (k : A -> M B) (g g' : Codegen.t) (b : B) :
  bind m k g = Ok b g' -> exists a g1, m g = Ok a g1 /\ k a g1 = Ok b g'.
Proof.
  unfold bind. destruct (m g) as [a g1| |]; try discriminate. eauto.
Qed.

(** [generate], on a fresh generator, returns the lines of [code] joined by
    line feeds, with [indent] back at 0, when every expression it emits is
    emittable: those of the method bodies, of the first constructor of each
    class, and of the top-level variable declarations and expression
    statements.  Otherwise it throws [Unsupported call: CallExpr].  It fails
    in no other way: there is no RangeError from a negative [indent] and no
    [Unsupported expression]. *)
Theorem generate_fails_only_on_unsupported_calls (program : Program) :
  if forallb emittable (generatedExprs program)
  then exists text g,
      generate program Codegen.new = Ok text g /\
      indent g = 0%Z /\
      text = String.concat (String Lexer.newline "") (code g)
  else generate program Codegen.new = Error "Unsupported call: CallExpr".
Proof.
  unfold generate.
  do 6 (erewrite bind_Ok; [|reflexivity]).
  match goal with
  | |- context [bind ?m ?k ?g] =>
      assert (H : Emits (bind m k) (generatedExprs program));
      [| assert (Hg : (0 <= indent g)%Z) by (simpl; lia);
         specialize (H g Hg) ]
  end.
  - unfold generatedExprs. cbv zeta.
    eapply Emits_equiv; cycle 1.
    + eapply (Emits_bind _ _ []);
        [apply Emits_forEach_silent; apply Emits_emitForward | intros _].
      eapply (Emits_bind _ _ []); [apply Emits_emit | intros _].
      eapply (Emits_bind _ _ []);
        [apply Emits_forEach_silent; apply Emits_emitStruct | intros _].
      eapply (Emits_bind _ _ []);
        [apply Emits_forEach_silent; apply Emits_emitPrototypes | intros _].
      eapply (Emits_bind _ _ []); [apply Emits_emit | intros _].
      apply Emits_bind;
        [apply (Emits_forEach _ methodExprs); apply Forall_forall; intros cls _;
         apply Emits_emitMethods | intros _].
      apply Emits_bind;
        [apply (Emits_forEach _ constructorExprs); apply Forall_forall; intros cls _;
         apply Emits_emitConstructor | intros _].
      eapply (Emits_bind _ _ []); [apply Emits_emit | intros _].
      apply Emits_indentMore.
      apply EmitsInside_bind;
        [apply (Emits_forEach _ mainExprs); apply Forall_forall; intros s _;
         apply Emits_emitMainStmt | intros _].
      eapply (EmitsInside_bind _ _ []); [apply Emits_emit | intros _].
      apply EmitsInside_indentLess.
      apply (Emits_bind _ _ [] []); [apply Emits_emit | intros _].
      intros g' Hg'. simpl. eexists _, g', []. rewrite app_nil_r.
      repeat split. constructor.
    + same_expressions.
  - destruct (forallb emittable (generatedExprs program)); [|exact H].
    destruct H as (text & g' & lines & H & Hi & Hc & _).
    exists text, g'. split; [exact H|]. split; [rewrite Hi; reflexivity|].
    repeat (apply bind_inv in H; destruct H as (? & ? & _ & H)).
    injection H as <- <-. reflexivity.
Qed.

(** The property at [if (a) { return a + 1; } else { print(a); }]. *)
Lemma emitStmt_adds_indented_lines_witness :
  exists g' lines,
    emitStmt sampleIf Codegen.new = Ok tt g' /\
    indent g' = indent Codegen.new /\
    code g' = (code Codegen.new ++ lines)%list /\
    Forall (indentedBy (indent Codegen.new)) lines.
Proof.
  apply (emitStmt_adds_indented_lines sampleIf Codegen.new). simpl. lia.
Defined.

(** The property at the condition and the call of [sampleIf]. *)
Lemma emitExpr_witness :
  exists text, emitExpr (CallExpr (Identifier "print") [Identifier "a"]) = Text text.
Proof.
  apply (proj1 (emitExpr_fails_only_on_unsupported_calls
                  (CallExpr (Identifier "print") [Identifier "a"]))).
  reflexivity.
Defined.

End CodegenFacts.
